(** * A model of [vector.h]: [RawMemory<T>] and [Vector<T>]

    The two class templates of [vector.h] are embedded as pure functions over
    explicit storage.  A block of raw memory is a list of slots, each of which
    is either raw or holds a live object.  An operation that can throw returns
    the state it leaves behind on either path, together with the objects it
    destroyed or leaked; a precondition violation (a failed [assert], a read
    or a destructor call on a raw slot, an access outside the block) is a
    third outcome, [Undef].

    Modelling conventions.
    - [size_t] values are natural numbers.  A block of [n] slots only exists
      after [operator new] has returned [n * sizeof(T)] bytes, so the sizes
      and capacities of vectors stay far below the point where [size_ * 2]
      could wrap.  [Allocate(n)] is taken to return [n] raw slots: the
      computation of the byte size and a failing [operator new] are below the
      level of this model.
    - A pointer [T*] into a block is the offset from the start of that block,
      so [GetAddress()] is offset 0; the block it points into is passed next
      to it.  Each block has exactly one owner ([RawMemory] is move-only), so
      blocks are stored by value in the object that owns them.
    - The operations of the element type [T] are deterministic partial
      functions of their operands: [None] stands for a thrown exception, and
      an operation that throws leaves its operands as they were. *)

From stdpp Require Import base tactics option list numbers.

Set Default Proof Using "Type".

(** ** The element type

    Everything [Vector<T>] asks of [T]: the two traits tested by
    [if constexpr], and the special member functions.  [move_construct x]
    returns the new object and the state the source is left in; the assignment
    operators take the target first.  A constructor call [T(args...)] with
    forwarded arguments is represented by its outcome, an [option T]. *)
Class ElemType (T : Type) := {
  nothrow_move_constructible : bool;
  copy_constructible : bool;
  value_construct : option T;
  copy_construct : T → option T;
  move_construct : T → option (T * T);
  copy_assign : T → T → option T;
  move_assign : T → T → option (T * T);
  nothrow_move_total :
    nothrow_move_constructible = true → ∀ x, is_Some (move_construct x)
}.

Section Storage.
Context {T : Type}.

(** One element-sized cell of a block. *)
Inductive slot : Type :=
| Raw
| Live (x : T).

(** What happened to an object: its destructor ran, or its storage was
    released or reused while it was still alive. *)
Inductive event : Type :=
| Destroyed (x : T)
| Leaked (x : T).

(** Outcome of a call: normal return with state [s], an exception that
    propagates leaving state [e], or undefined behaviour. *)
Inductive result (S E : Type) : Type :=
| Ok (s : S) (tr : list event)
| Throw (e : E) (tr : list event)
| Undef.

End Storage.

Arguments slot : clear implicits.
Arguments event : clear implicits.
Arguments result : clear implicits.
Arguments Ok {T S E} s tr.
Arguments Throw {T S E} e tr.
Arguments Undef {T S E}.

(** A block of storage, and the record of what a call did to objects. *)
Abbreviation block T := (list (slot T)) (only parsing).
Abbreviation trace T := (list (event T)) (only parsing).

(** Events that happened before the call whose outcome is [r]. *)
Definition after {T S E} (pre : trace T) (r : result T S E) : result T S E :=
  match r with
  | Ok s tr => Ok s (pre ++ tr)
  | Throw e tr => Throw e (pre ++ tr)
  | Undef => Undef
  end.

(** Sequencing of two calls on the same state; an exception of the first
    propagates. *)
Definition and_then {T S} (r : result T S S) (k : S → result T S S) : result T S S :=
  match r with
  | Ok s tr => after tr (k s)
  | Throw e tr => Throw e tr
  | Undef => Undef
  end.

(** Lifting of a step that cannot throw. *)
Definition nothrow {T S E} (o : option (S * trace T)) : result T S E :=
  match o with
  | Some (s, tr) => Ok s tr
  | None => Undef
  end.

(** ** Objects in raw storage *)
Section Objects.
Context {T : Type}.

(** [*p] for a live object. *)
Definition deref (b : block T) (p : nat) : option T :=
  match b !! p with
  | Some (Live x) => Some x
  | _ => None
  end.

(** [new (p) T(...)] once the constructor has produced [x].  Building over a
    live object ends that object's lifetime without running its destructor. *)
Definition construct_at (b : block T) (p : nat) (x : T) : option (block T * trace T) :=
  match b !! p with
  | Some Raw => Some (<[p := Live x]> b, [])
  | Some (Live y) => Some (<[p := Live x]> b, [Leaked y])
  | None => None
  end.

(** Modelled on the C++ standard library: [std::destroy_at(p)]. *)
Definition destroy_at (b : block T) (p : nat) : option (block T * trace T) :=
  match b !! p with
  | Some (Live x) => Some (<[p := Raw]> b, [Destroyed x])
  | _ => None
  end.

(** Modelled on the C++ standard library: [std::destroy_n(first, n)]. *)
Fixpoint destroy_n (b : block T) (first n : nat) : option (block T * trace T) :=
  match n with
  | 0 => Some (b, [])
  | S n' =>
    match destroy_at b first with
    | None => None
    | Some (b1, tr1) =>
      match destroy_n b1 (S first) n' with
      | None => None
      | Some (b2, tr2) => Some (b2, tr1 ++ tr2)
      end
    end
  end.

(** Overwriting a live object with a new state of the same object. *)
Definition store (b : block T) (p : nat) (x : T) : block T := <[p := Live x]> b.

End Objects.

(** ** Algorithms of [<memory>] and [<algorithm>]

    Modelled on the C++ standard library.  The [uninitialized_*] algorithms
    destroy what they built before they let an exception out; the assigning
    algorithms simply stop. *)
Section Algorithms.
Context {T : Type} `{ElemType T}.

Fixpoint uninitialized_value_construct_loop (b : block T) (cur n : nat)
  : result T (block T * nat) (block T * nat) :=
  match n with
  | 0 => Ok (b, cur) []
  | S n' =>
    match value_construct with
    | None => Throw (b, cur) []
    | Some x =>
      match construct_at b cur x with
      | None => Undef
      | Some (b1, tr1) => after tr1 (uninitialized_value_construct_loop b1 (S cur) n')
      end
    end
  end.

(** [std::uninitialized_value_construct_n(first, n)]. *)
Definition uninitialized_value_construct_n (b : block T) (first n : nat)
  : result T (block T) (block T) :=
  match uninitialized_value_construct_loop b first n with
  | Ok (b1, _) tr => Ok b1 tr
  | Throw (b1, cur) tr => after tr (
      match destroy_n b1 first (cur - first) with
      | Some (b2, tr2) => Throw b2 tr2
      | None => Undef
      end)
  | Undef => Undef
  end.

Fixpoint uninitialized_copy_loop (src : block T) (first n : nat) (dst : block T) (cur : nat)
  : result T (block T * nat) (block T * nat) :=
  match n with
  | 0 => Ok (dst, cur) []
  | S n' =>
    match deref src first with
    | None => Undef
    | Some x =>
      match copy_construct x with
      | None => Throw (dst, cur) []
      | Some y =>
        match construct_at dst cur y with
        | None => Undef
        | Some (dst1, tr1) =>
          after tr1 (uninitialized_copy_loop src (S first) n' dst1 (S cur))
        end
      end
    end
  end.

(** [std::uninitialized_copy_n(first, n, d_first)]: the source block is only
    read. *)
Definition uninitialized_copy_n (src : block T) (first n : nat) (dst : block T) (d_first : nat)
  : result T (block T) (block T) :=
  match uninitialized_copy_loop src first n dst d_first with
  | Ok (dst1, _) tr => Ok dst1 tr
  | Throw (dst1, cur) tr => after tr (
      match destroy_n dst1 d_first (cur - d_first) with
      | Some (dst2, tr2) => Throw dst2 tr2
      | None => Undef
      end)
  | Undef => Undef
  end.

Fixpoint uninitialized_move_loop (src : block T) (first n : nat) (dst : block T) (cur : nat)
  : result T (block T * block T * nat) (block T * block T * nat) :=
  match n with
  | 0 => Ok (src, dst, cur) []
  | S n' =>
    match deref src first with
    | None => Undef
    | Some x =>
      match move_construct x with
      | None => Throw (src, dst, cur) []
      | Some (y, x') =>
        match construct_at dst cur y with
        | None => Undef
        | Some (dst1, tr1) =>
          after tr1 (uninitialized_move_loop (store src first x') (S first) n' dst1 (S cur))
        end
      end
    end
  end.

(** [std::uninitialized_move_n(first, n, d_first)]: the sources that were
    moved from stay moved-from when a later move throws. *)
Definition uninitialized_move_n (src : block T) (first n : nat) (dst : block T) (d_first : nat)
  : result T (block T * block T) (block T * block T) :=
  match uninitialized_move_loop src first n dst d_first with
  | Ok (src1, dst1, _) tr => Ok (src1, dst1) tr
  | Throw (src1, dst1, cur) tr => after tr (
      match destroy_n dst1 d_first (cur - d_first) with
      | Some (dst2, tr2) => Throw (src1, dst2) tr2
      | None => Undef
      end)
  | Undef => Undef
  end.

Fixpoint copy_loop (src : block T) (first n : nat) (dst : block T) (d_first : nat)
  : result T (block T) (block T) :=
  match n with
  | 0 => Ok dst []
  | S n' =>
    match deref src first, deref dst d_first with
    | Some x, Some d =>
      match copy_assign d x with
      | None => Throw dst []
      | Some d' => copy_loop src (S first) n' (store dst d_first d') (S d_first)
      end
    | _, _ => Undef
    end
  end.

(** [std::copy(first, last, d_first)] between two blocks. *)
Definition std_copy (src : block T) (first last : nat) (dst : block T) (d_first : nat)
  : result T (block T) (block T) :=
  if first <=? last then copy_loop src first (last - first) dst d_first else Undef.

Fixpoint move_loop (b : block T) (first n d_first : nat) : result T (block T) (block T) :=
  match n with
  | 0 => Ok b []
  | S n' =>
    match deref b first, deref b d_first with
    | Some x, Some d =>
      match move_assign d x with
      | None => Throw b []
      | Some (d', x') =>
        move_loop (store (store b first x') d_first d') (S first) n' (S d_first)
      end
    | _, _ => Undef
    end
  end.

(** [std::move(first, last, d_first)] inside one block. *)
Definition std_move (b : block T) (first last d_first : nat) : result T (block T) (block T) :=
  if first <=? last then move_loop b first (last - first) d_first else Undef.

Fixpoint move_backward_loop (b : block T) (n last d_last : nat)
  : result T (block T) (block T) :=
  match n with
  | 0 => Ok b []
  | S n' =>
    match last, d_last with
    | S last', S d_last' =>
      match deref b last', deref b d_last' with
      | Some x, Some d =>
        match move_assign d x with
        | None => Throw b []
        | Some (d', x') =>
          move_backward_loop (store (store b last' x') d_last' d') n' last' d_last'
        end
      | _, _ => Undef
      end
    | _, _ => Undef
    end
  end.

(** [std::move_backward(first, last, d_last)] inside one block. *)
Definition std_move_backward (b : block T) (first last d_last : nat)
  : result T (block T) (block T) :=
  if first <=? last then move_backward_loop b (last - first) last d_last else Undef.

End Algorithms.

(** ** [RawMemory<T>] *)
Section RawMemory.
Context {T : Type}.

Record RawMemory : Type := mkRawMemory {
  buffer_ : block T;
  capacity_ : nat
}.

(** [Allocate(n)]: raw storage for [n] elements; the null pointer, an empty
    block, when [n] is zero. *)
Definition Allocate (n : nat) : block T :=
  if n =? 0 then [] else replicate n Raw.

Definition leak (s : slot T) : trace T :=
  match s with
  | Raw => []
  | Live x => [Leaked x]
  end.

(** [Deallocate(buf)]: the block is released as it is; no destructor runs, so
    whatever is still alive in it is lost. *)
Definition Deallocate (buf : block T) : trace T :=
  concat (leak <$> buf).

(** [RawMemory() = default]. *)
Definition RawMemory_default : RawMemory :=
  {| buffer_ := []; capacity_ := 0 |}.

(** [explicit RawMemory(size_t capacity)]. *)
Definition RawMemory_sized (capacity : nat) : RawMemory :=
  {| buffer_ := Allocate capacity; capacity_ := capacity |}.

(** [~RawMemory()]. *)
Definition RawMemory_destroy (m : RawMemory) : trace T :=
  Deallocate (buffer_ m).

(** [RawMemory(RawMemory&& other) noexcept]: the new object and what is left
    of [other]. *)
Definition RawMemory_move (other : RawMemory) : RawMemory * RawMemory :=
  ({| buffer_ := buffer_ other; capacity_ := capacity_ other |},
   {| buffer_ := []; capacity_ := 0 |}).

(** [operator=(RawMemory&& rhs) noexcept] for [this != &rhs]. *)
Definition RawMemory_move_assign (this rhs : RawMemory) : RawMemory * RawMemory * trace T :=
  ({| buffer_ := buffer_ rhs; capacity_ := capacity_ rhs |},
   {| buffer_ := []; capacity_ := 0 |},
   Deallocate (buffer_ this)).

(** [operator+(size_t offset)]: the asserted form of pointer arithmetic. *)
Definition RawMemory_plus (m : RawMemory) (offset : nat) : option nat :=
  if offset <=? capacity_ m then Some offset else None.

(** [operator[](size_t index)], read as a value. *)
Definition RawMemory_at (m : RawMemory) (index : nat) : option T :=
  if index <? capacity_ m then deref (buffer_ m) index else None.

Definition RawMemory_Swap (this other : RawMemory) : RawMemory * RawMemory :=
  ({| buffer_ := buffer_ other; capacity_ := capacity_ other |},
   {| buffer_ := buffer_ this; capacity_ := capacity_ this |}).

(** The same owner after an algorithm has worked on its block. *)
Definition with_buffer (m : RawMemory) (b : block T) : RawMemory :=
  {| buffer_ := b; capacity_ := capacity_ m |}.

End RawMemory.

Arguments RawMemory : clear implicits.

(** ** [Vector<T>] *)
Section Vector.
Context {T : Type} `{ElemType T}.

Record Vector : Type := mkVector {
  data_ : RawMemory T;
  size_ : nat
}.

Definition with_block (v : Vector) (b : block T) : Vector :=
  {| data_ := with_buffer (data_ v) b; size_ := size_ v |}.

(** The vector after an algorithm has worked on its block. *)
Definition on_block (v : Vector) (r : result T (block T) (block T)) : result T Vector Vector :=
  match r with
  | Ok b tr => Ok (with_block v b) tr
  | Throw b tr => Throw (with_block v b) tr
  | Undef => Undef
  end.

Definition Size (v : Vector) : nat := size_ v.

Definition Capacity (v : Vector) : nat := capacity_ (data_ v).

(** [operator[](size_t index)], read as a value. *)
Definition Vector_at (v : Vector) (index : nat) : option T :=
  if index <? size_ v then RawMemory_at (data_ v) index else None.

(** [begin()] and [end()] as offsets into the vector's own block. *)
Definition begin (v : Vector) : nat := 0.
Definition end_ (v : Vector) : nat := size_ v.

(** [Vector() = default]. *)
Definition Vector_default : Vector :=
  {| data_ := RawMemory_default; size_ := 0 |}.

(** [explicit Vector(size_t size)].  When an element constructor throws no
    vector comes into being; the member [data_] is still released. *)
Definition Vector_sized (size : nat) : result T Vector unit :=
  let data := RawMemory_sized size in
  match uninitialized_value_construct_n (buffer_ data) 0 size with
  | Ok b tr => Ok {| data_ := with_buffer data b; size_ := size |} tr
  | Throw b tr => Throw () (tr ++ RawMemory_destroy (with_buffer data b))
  | Undef => Undef
  end.

(** [Vector(const Vector& other)]. *)
Definition Vector_copy (other : Vector) : result T Vector unit :=
  let data := RawMemory_sized (size_ other) in
  let size := size_ other in
  match uninitialized_copy_n (buffer_ (data_ other)) 0 size (buffer_ data) 0 with
  | Ok b tr => Ok {| data_ := with_buffer data b; size_ := size |} tr
  | Throw b tr => Throw () (tr ++ RawMemory_destroy (with_buffer data b))
  | Undef => Undef
  end.

(** [Vector(Vector&& other) noexcept]: the new vector, what is left of
    [other], and the events of the two [std::exchange] calls. *)
Definition Vector_move (other : Vector) : Vector * Vector * trace T :=
  let '(old_data, moved_from) := RawMemory_move (data_ other) in
  let '(other_data, temporary, tr1) := RawMemory_move_assign moved_from RawMemory_default in
  let tr2 := RawMemory_destroy temporary in
  let '(data, old_data') := RawMemory_move old_data in
  let tr3 := RawMemory_destroy old_data' in
  ({| data_ := data; size_ := size_ other |},
   {| data_ := other_data; size_ := 0 |},
   tr1 ++ tr2 ++ tr3).

(** [Swap(Vector& other) noexcept]. *)
Definition Swap (this other : Vector) : Vector * Vector :=
  let '(d, od) := RawMemory_Swap (data_ this) (data_ other) in
  ({| data_ := d; size_ := size_ other |}, {| data_ := od; size_ := size_ this |}).

(** [~Vector()]. *)
Definition Vector_destroy (v : Vector) : option (trace T) :=
  match destroy_n (buffer_ (data_ v)) 0 (size_ v) with
  | None => None
  | Some (b, tr) => Some (tr ++ RawMemory_destroy (with_buffer (data_ v) b))
  end.

(** [operator=(const Vector& rhs)] for [this != &rhs]; [rhs] is only read. *)
Definition Vector_copy_assign (this rhs : Vector) : result T Vector Vector :=
  let src := buffer_ (data_ rhs) in
  if size_ rhs <=? Capacity this then
    and_then
      (if size_ this <=? size_ rhs then
         and_then
           (on_block this (std_copy src 0 (size_ this) (buffer_ (data_ this)) 0))
           (λ v, on_block v (uninitialized_copy_n src (size_ v) (size_ rhs - size_ v)
                               (buffer_ (data_ v)) (size_ v)))
       else
         and_then
           (on_block this (std_copy src 0 (size_ rhs) (buffer_ (data_ this)) 0))
           (λ v, on_block v (nothrow (destroy_n (buffer_ (data_ v)) (size_ rhs)
                                        (size_ v - size_ rhs)))))
      (λ v, Ok {| data_ := data_ v; size_ := size_ rhs |} [])
  else
    match Vector_copy rhs with
    | Ok other_copy tr =>
      let '(this', other_copy') := Swap this other_copy in
      match Vector_destroy other_copy' with
      | Some tr' => Ok this' (tr ++ tr')
      | None => Undef
      end
    | Throw _ tr => Throw this tr
    | Undef => Undef
    end.

(** [operator=(const Vector& rhs)] when [rhs] is [*this]. *)
Definition Vector_copy_assign_self (this : Vector) : result T Vector Vector :=
  Ok this [].

(** [operator=(Vector&& rhs) noexcept]. *)
Definition Vector_move_assign (this rhs : Vector) : Vector * Vector :=
  Swap this rhs.

(** [Reserve(size_t new_capacity)]. *)
Definition Reserve (new_capacity : nat) (this : Vector) : result T Vector Vector :=
  if new_capacity <=? Capacity this then Ok this []
  else
    let new_data := RawMemory_sized new_capacity in
    match
      (if nothrow_move_constructible || negb copy_constructible then
         uninitialized_move_n (buffer_ (data_ this)) 0 (size_ this) (buffer_ new_data) 0
       else
         match uninitialized_copy_n (buffer_ (data_ this)) 0 (size_ this)
                 (buffer_ new_data) 0 with
         | Ok dst tr => Ok (buffer_ (data_ this), dst) tr
         | Throw dst tr => Throw (buffer_ (data_ this), dst) tr
         | Undef => Undef
         end)
    with
    | Ok (src, dst) tr =>
      match destroy_n src 0 (size_ this) with
      | None => Undef
      | Some (src', tr') =>
        let '(data, new_data') :=
          RawMemory_Swap (with_buffer (data_ this) src') (with_buffer new_data dst) in
        Ok {| data_ := data; size_ := size_ this |}
           (tr ++ tr' ++ RawMemory_destroy new_data')
      end
    | Throw (src, dst) tr =>
      Throw (with_block this src) (tr ++ RawMemory_destroy (with_buffer new_data dst))
    | Undef => Undef
    end.

(** [Resize(size_t new_size)]. *)
Definition Resize (new_size : nat) (this : Vector) : result T Vector Vector :=
  and_then
    (if new_size <? size_ this then
       on_block this
         (nothrow (destroy_n (buffer_ (data_ this)) new_size (size_ this - new_size)))
     else
       and_then
         (if Capacity this <? new_size then Reserve new_size this else Ok this [])
         (λ v, on_block v
                 (uninitialized_value_construct_n (buffer_ (data_ v)) (size_ v)
                    (new_size - size_ v))))
    (λ v, Ok {| data_ := data_ v; size_ := new_size |} []).

(** [PopBack()]. *)
Definition PopBack (this : Vector) : result T Vector Vector :=
  if size_ this =? 0 then Undef
  else
    match destroy_at (buffer_ (data_ this)) (size_ this - 1) with
    | None => Undef
    | Some (b, tr) => Ok {| data_ := with_buffer (data_ this) b; size_ := size_ this - 1 |} tr
    end.

(** [EmplaceBack(Args&&... args)]; [args] is the outcome of [T(args...)].
    The reference returned is given as the element it refers to. *)
Definition EmplaceBack (args : option T) (this : Vector) : result T (Vector * T) Vector :=
  match
    (if Capacity this <=? size_ this then
       let new_data := RawMemory_sized (if size_ this =? 0 then 1 else size_ this * 2) in
       match args with
       | None => Throw this (RawMemory_destroy new_data)
       | Some x =>
         match construct_at (buffer_ new_data) (size_ this) x with
         | None => Undef
         | Some (dst0, tr0) =>
           let new_data := with_buffer new_data dst0 in
           after tr0
             match
               (if nothrow_move_constructible || negb copy_constructible then
                  uninitialized_move_n (buffer_ (data_ this)) 0 (size_ this)
                    (buffer_ new_data) 0
                else
                  match uninitialized_copy_n (buffer_ (data_ this)) 0 (size_ this)
                          (buffer_ new_data) 0 with
                  | Ok dst tr => Ok (buffer_ (data_ this), dst) tr
                  | Throw dst tr => Throw (buffer_ (data_ this), dst) tr
                  | Undef => Undef
                  end)
             with
             | Ok (src, dst) tr =>
               match destroy_n src 0 (size_ this) with
               | None => Undef
               | Some (src', tr') =>
                 let '(data, new_data') :=
                   RawMemory_Swap (with_buffer (data_ this) src') (with_buffer new_data dst) in
                 Ok {| data_ := data; size_ := size_ this |}
                    (tr ++ tr' ++ RawMemory_destroy new_data')
               end
             | Throw (src, dst) tr =>
               let new_data := with_buffer new_data dst in
               match RawMemory_plus new_data (size_ this) with
               | None => Undef
               | Some p =>
                 match destroy_at (buffer_ new_data) p with
                 | None => Undef
                 | Some (dst', tr') =>
                   Throw (with_block this src)
                         (tr ++ tr' ++ RawMemory_destroy (with_buffer new_data dst'))
                 end
               end
             | Undef => Undef
             end
         end
       end
     else
       match args with
       | None => Throw this []
       | Some x =>
         match construct_at (buffer_ (data_ this)) (size_ this) x with
         | None => Undef
         | Some (b, tr) => Ok (with_block this b) tr
         end
       end)
  with
  | Ok v tr =>
    match RawMemory_at (data_ v) (size_ v) with
    | None => Undef
    | Some x => Ok ({| data_ := data_ v; size_ := size_ v + 1 |}, x) tr
    end
  | Throw v tr => Throw v tr
  | Undef => Undef
  end.

(** [PushBack(const T& value)] and [PushBack(T&& value)].  The argument is
    read before the vector is touched, so it is passed by value even when it
    refers to an element of this vector; what the rvalue overload leaves in
    the caller's object is not part of the vector's state. *)
Definition PushBack (value : T) (this : Vector) : result T Vector Vector :=
  match EmplaceBack (copy_construct value) this with
  | Ok (v, _) tr => Ok v tr
  | Throw v tr => Throw v tr
  | Undef => Undef
  end.

Definition PushBack_rvalue (value : T) (this : Vector) : result T Vector Vector :=
  match EmplaceBack (fst <$> move_construct value) this with
  | Ok (v, _) tr => Ok v tr
  | Throw v tr => Throw v tr
  | Undef => Undef
  end.

(** [Emplace(const_iterator pos, Args&&... args)]; [pos] is the offset of the
    position from [begin()], [args] the outcome of [T(args...)].  The iterator
    returned is given as an offset as well. *)
Definition Emplace (pos : nat) (args : option T) (this : Vector)
  : result T (Vector * nat) Vector :=
  if negb ((begin this <=? pos) && (pos <=? end_ this)) then Undef
  else
    let distance := pos - begin this in
    match
      (if Capacity this <=? size_ this then
         let new_data := RawMemory_sized (if size_ this =? 0 then 1 else size_ this * 2) in
         match args with
         | None => Throw this (RawMemory_destroy new_data)
         | Some x =>
           match construct_at (buffer_ new_data) distance x with
           | None => Undef
           | Some (dst0, tr0) =>
             let new_data := with_buffer new_data dst0 in
             after tr0
               match
                 (if nothrow_move_constructible || negb copy_constructible then
                    and_then
                      (uninitialized_move_n (buffer_ (data_ this)) 0 distance
                         (buffer_ new_data) 0)
                      (λ '(src, dst),
                         uninitialized_move_n src distance (size_ this - distance)
                           dst (distance + 1))
                  else
                    and_then
                      (match uninitialized_copy_n (buffer_ (data_ this)) 0 distance
                               (buffer_ new_data) 0 with
                       | Ok dst tr => Ok (buffer_ (data_ this), dst) tr
                       | Throw dst tr => Throw (buffer_ (data_ this), dst) tr
                       | Undef => Undef
                       end)
                      (λ '(src, dst),
                         match uninitialized_copy_n src distance (size_ this - distance)
                                 dst (distance + 1) with
                         | Ok dst' tr => Ok (src, dst') tr
                         | Throw dst' tr => Throw (src, dst') tr
                         | Undef => Undef
                         end))
               with
               | Ok (src, dst) tr =>
                 match destroy_n src 0 (size_ this) with
                 | None => Undef
                 | Some (src', tr') =>
                   let '(data, new_data') :=
                     RawMemory_Swap (with_buffer (data_ this) src')
                       (with_buffer new_data dst) in
                   Ok {| data_ := data; size_ := size_ this |}
                      (tr ++ tr' ++ RawMemory_destroy new_data')
                 end
               | Throw (src, dst) tr =>
                 match destroy_n dst 0 (distance + 1) with
                 | None => Undef
                 | Some (dst', tr') =>
                   Throw (with_block this src)
                         (tr ++ tr' ++ RawMemory_destroy (with_buffer new_data dst'))
                 end
               | Undef => Undef
               end
           end
         end
       else if negb (pos =? end_ this) then
         match args with
         | None => Throw this []
         | Some new_value =>
           match RawMemory_at (data_ this) (size_ this - 1) with
           | None => Undef
           | Some last =>
             match move_construct last with
             | None => Throw this [Destroyed new_value]
             | Some (y, last') =>
               match construct_at (store (buffer_ (data_ this)) (size_ this - 1) last')
                       (end_ this) y with
               | None => Undef
               | Some (b1, tr1) =>
                 after tr1
                   match std_move_backward b1 (begin this + distance) (end_ this - 1)
                           (end_ this) with
                   | Ok b2 tr2 =>
                     match deref b2 (begin this + distance) with
                     | None => Undef
                     | Some d =>
                       match move_assign d new_value with
                       | None => Throw (with_block this b2) (tr2 ++ [Destroyed new_value])
                       | Some (d', new_value') =>
                         Ok (with_block this (store b2 (begin this + distance) d'))
                            (tr2 ++ [Destroyed new_value'])
                       end
                     end
                   | Throw b2 tr2 =>
                     match destroy_at b2 (end_ this) with
                     | None => Undef
                     | Some (b3, tr3) =>
                       Throw (with_block this b3) (tr2 ++ tr3 ++ [Destroyed new_value])
                     end
                   | Undef => Undef
                   end
               end
             end
           end
         end
       else
         match args with
         | None => Throw this []
         | Some x =>
           match construct_at (buffer_ (data_ this)) (end_ this) x with
           | None => Undef
           | Some (b, tr) => Ok (with_block this b) tr
           end
         end)
    with
    | Ok v tr => Ok ({| data_ := data_ v; size_ := size_ v + 1 |}, begin v + distance) tr
    | Throw v tr => Throw v tr
    | Undef => Undef
    end.

(** [Erase(const_iterator pos)]; positions are offsets from [begin()]. *)
Definition Erase (pos : nat) (this : Vector) : result T (Vector * nat) Vector :=
  if negb ((begin this <=? pos) && (pos <? begin this + Size this)) then Undef
  else
    let distance := pos - begin this in
    match std_move (buffer_ (data_ this)) (begin this + distance + 1) (end_ this)
            (begin this + distance) with
    | Ok b tr =>
      match destroy_at b (end_ this - 1) with
      | None => Undef
      | Some (b', tr') =>
        Ok ({| data_ := with_buffer (data_ this) b'; size_ := size_ this - 1 |},
            begin this + distance)
           (tr ++ tr')
      end
    | Throw b tr => Throw (with_block this b) tr
    | Undef => Undef
    end.

(** [Insert(const_iterator pos, const T& value)] and
    [Insert(const_iterator pos, T&& value)]; the argument as for [PushBack]. *)
Definition Insert (pos : nat) (value : T) (this : Vector) : result T (Vector * nat) Vector :=
  Emplace pos (copy_construct value) this.

Definition Insert_rvalue (pos : nat) (value : T) (this : Vector)
  : result T (Vector * nat) Vector :=
  Emplace pos (fst <$> move_construct value) this.

End Vector.

Arguments Vector T : clear implicits.

(** * Specification vocabulary *)
Section Specification.
Context {T : Type} `{ElemType T}.

Definition is_live (s : slot T) : bool :=
  match s with
  | Live _ => true
  | Raw => false
  end.

(** A call on block [b] with outcome [r] left every slot as live or as raw as
    it was, and destroyed or leaked nothing. *)
Definition unchanged_shape (b : block T) (r : result T (block T) (block T)) : Prop :=
  match r with
  | Ok b' tr | Throw b' tr => is_live <$> b' = is_live <$> b ∧ tr = []
  | Undef => True
  end.

(** The class invariant: [size_ <= capacity_], the block has [capacity_]
    slots, the first [size_] of them hold live objects and the rest is raw. *)
Definition invariant (v : Vector T) : Prop :=
  size_ v ≤ capacity_ (data_ v) ∧
  is_live <$> buffer_ (data_ v)
  = replicate (size_ v) true ++ replicate (capacity_ (data_ v) - size_ v) false.

(** [v] satisfies the invariant and its elements, in index order, are [xs]. *)
Definition holds (v : Vector T) (xs : list T) : Prop :=
  size_ v = length xs ∧
  size_ v ≤ capacity_ (data_ v) ∧
  buffer_ (data_ v) = (Live <$> xs) ++ replicate (capacity_ (data_ v) - size_ v) Raw.

(** The vector of capacity [cap] whose elements are [xs]. *)
Definition vector_of (xs : list T) (cap : nat) : Vector T :=
  {| data_ := {| buffer_ := (Live <$> xs) ++ replicate (cap - length xs) Raw;
                 capacity_ := cap |};
     size_ := length xs |}.

(** The objects [std::uninitialized_copy_n] builds from the sources [xs]
    before a copy constructor throws, and whether it got through. *)
Fixpoint copies (xs : list T) : list T * bool :=
  match xs with
  | [] => ([], true)
  | x :: xs' =>
    match copy_construct x with
    | None => ([], false)
    | Some y => let '(ys, ok) := copies xs' in (y :: ys, ok)
    end
  end.

(** The same for [std::uninitialized_move_n]: each pair is the object built
    and the state its source was left in. *)
Fixpoint moves (xs : list T) : list (T * T) * bool :=
  match xs with
  | [] => ([], true)
  | x :: xs' =>
    match move_construct x with
    | None => ([], false)
    | Some p => let '(ps, ok) := moves xs' in (p :: ps, ok)
    end
  end.

(** The sources [xs] after [std::uninitialized_move_n] has built [ps]. *)
Definition moved_from (ps : list (T * T)) (xs : list T) : list T :=
  ps.*2 ++ drop (length ps) xs.

(** Relocation of [xs] into a new block as the three growing operations do
    it: the objects built, the state of the sources, and whether it got
    through. *)
Definition relocation (xs : list T) : list T * list T * bool :=
  if nothrow_move_constructible || negb copy_constructible then
    let '(ps, ok) := moves xs in (ps.*1, moved_from ps xs, ok)
  else
    let '(ys, ok) := copies xs in (ys, xs, ok).

(** No constructor that relocation may call throws. *)
Definition relocation_total : Prop :=
  (∀ x, is_Some (copy_construct x)) ∧ (∀ x, is_Some (move_construct x)).

(** The public mutating member functions, with their arguments. *)
Inductive method : Type :=
| call_Reserve (new_capacity : nat)
| call_Resize (new_size : nat)
| call_PushBack (value : T)
| call_PushBack_rvalue (value : T)
| call_PopBack
| call_EmplaceBack (args : option T)
| call_Emplace (pos : nat) (args : option T)
| call_Insert (pos : nat) (value : T)
| call_Insert_rvalue (pos : nat) (value : T)
| call_Erase (pos : nat).

Definition state_of {A} (r : result T (Vector T * A) (Vector T))
  : result T (Vector T) (Vector T) :=
  match r with
  | Ok (v, _) tr => Ok v tr
  | Throw v tr => Throw v tr
  | Undef => Undef
  end.

Definition call (m : method) (v : Vector T) : result T (Vector T) (Vector T) :=
  match m with
  | call_Reserve n => Reserve n v
  | call_Resize n => Resize n v
  | call_PushBack x => PushBack x v
  | call_PushBack_rvalue x => PushBack_rvalue x v
  | call_PopBack => PopBack v
  | call_EmplaceBack args => state_of (EmplaceBack args v)
  | call_Emplace pos args => state_of (Emplace pos args v)
  | call_Insert pos x => state_of (Insert pos x v)
  | call_Insert_rvalue pos x => state_of (Insert_rvalue pos x v)
  | call_Erase pos => state_of (Erase pos v)
  end.

(** The vectors a program can hold: built by a constructor and then taken
    through any finite sequence of public operations.  With [throwing] the
    states left behind by an operation that threw count as well; without it,
    only what operations return. *)
Inductive reachable_with (throwing : bool) : Vector T → Prop :=
| reachable_default : reachable_with throwing Vector_default
| reachable_sized n v tr : Vector_sized n = Ok v tr → reachable_with throwing v
| reachable_copy u v tr :
    reachable_with throwing u → Vector_copy u = Ok v tr → reachable_with throwing v
| reachable_move u : reachable_with throwing u → reachable_with throwing (Vector_move u).1.1
| reachable_moved_from u :
    reachable_with throwing u → reachable_with throwing (Vector_move u).1.2
| reachable_copy_assign u w v tr :
    reachable_with throwing u → reachable_with throwing w →
    Vector_copy_assign u w = Ok v tr → reachable_with throwing v
| reachable_copy_assign_throw u w v tr :
    throwing = true → reachable_with throwing u → reachable_with throwing w →
    Vector_copy_assign u w = Throw v tr → reachable_with throwing v
| reachable_swap u w :
    reachable_with throwing u → reachable_with throwing w →
    reachable_with throwing (Swap u w).1
| reachable_return m u v tr :
    reachable_with throwing u → call m u = Ok v tr → reachable_with throwing v
| reachable_throw m u v tr :
    throwing = true → reachable_with throwing u → call m u = Throw v tr →
    reachable_with throwing v.

Definition reachable : Vector T → Prop := reachable_with true.

(** Element types whose copies and moves carry the value over. *)
Class ValuePreserving : Prop := {
  copy_construct_value x y : copy_construct x = Some y → y = x;
  move_construct_value x y x' : move_construct x = Some (y, x') → y = x
}.

(** Element types with the usual copy and move semantics: the four
    operations always succeed and the target ends up with the value of the
    source. *)
Class Regular : Prop := {
  copy_construct_regular x : copy_construct x = Some x;
  move_construct_regular x : ∃ x', move_construct x = Some (x, x');
  copy_assign_regular d s : copy_assign d s = Some s;
  move_assign_regular d s : ∃ s', move_assign d s = Some (s, s')
}.

End Specification.

Arguments ValuePreserving T {_}.
Arguments Regular T {_}.

(** ** Vocabulary for the further properties *)
Section FurtherVocabulary.
Context {T : Type} `{ElemType T}.

(** A client of the class, the loop [for (const T& x : xs) v.PushBack(x);]:
    an exception of a [PushBack] ends the loop and propagates. *)
Fixpoint push_all (xs : list T) (v : Vector T) : result T (Vector T) (Vector T) :=
  match xs with
  | [] => Ok v []
  | x :: xs' => and_then (PushBack x v) (push_all xs')
  end.

(** No object was lost: the trace records no storage released or reused
    under a live object. *)
Definition leak_free (tr : trace T) : Prop := ∀ y, Leaked y ∉ tr.

End FurtherVocabulary.

(** ** Element types used in examples *)

(** [int]: every operation succeeds and leaves its source as it was. *)
Definition IntElem : ElemType Z := {|
  nothrow_move_constructible := true;
  copy_constructible := true;
  value_construct := Some 0%Z;
  copy_construct x := Some x;
  move_construct x := Some (x, x);
  copy_assign d s := Some s;
  move_assign d s := Some (s, s);
  nothrow_move_total := λ _ x, ex_intro _ (x, x) eq_refl
|}.

(** A class holding a number whose copy and move operations throw when the
    source holds [13].  A moved-from object holds [0].  The move constructor
    is not [noexcept]; [copyable] tells whether the class has a copy
    constructor. *)
Definition Fragile (copyable : bool) : ElemType nat := {|
  nothrow_move_constructible := false;
  copy_constructible := copyable;
  value_construct := Some 0;
  copy_construct x := if x =? 13 then None else Some x;
  move_construct x := if x =? 13 then None else Some (x, 0);
  copy_assign d s := if s =? 13 then None else Some s;
  move_assign d s := if s =? 13 then None else Some (s, 0);
  nothrow_move_total := λ (absurd : false = true) _,
    False_ind _ (Bool.diff_false_true absurd)
|}.

(** ** Vectors used in examples *)

(** A full vector of two [Fragile] objects, the second of which cannot be
    copied or moved, and one whose first object cannot. *)
Definition fragile_full : Vector nat := vector_of [5; 13] 2.
Definition fragile_full' : Vector nat := vector_of [13; 5] 2.

(** Vectors of two [Fragile] objects with room for a third. *)
Definition fragile_room : Vector nat := vector_of [13; 5] 3.
Definition fragile_room' : Vector nat := vector_of [1; 5] 3.

(** * Properties *)

(** ** Traces *)
Section TraceFacts.
Context {T : Type}.

Lemma after_nil {S E} (r : result T S E) : after [] r = r.
Proof. by destruct r. Qed.

Lemma after_after {S E} (tr1 tr2 : trace T) (r : result T S E) :
  after tr1 (after tr2 r) = after (tr1 ++ tr2) r.
Proof. destruct r; simpl; by rewrite ?app_assoc. Qed.

Lemma Deallocate_app (b1 b2 : block T) :
  Deallocate (b1 ++ b2) = Deallocate b1 ++ Deallocate b2.
Proof. unfold Deallocate. by rewrite fmap_app, concat_app. Qed.

Lemma Deallocate_raw n : Deallocate (replicate n (@Raw T)) = [].
Proof. induction n as [|n IH]; [done|]. unfold Deallocate in *. simpl. exact IH. Qed.

Lemma Deallocate_cons_raw (b : block T) : Deallocate (Raw :: b) = Deallocate b.
Proof. done. Qed.

Lemma Deallocate_Allocate n : Deallocate (@Allocate T n) = [].
Proof. unfold Allocate. destruct (n =? 0); [done|]. apply Deallocate_raw. Qed.

Lemma Deallocate_live (xs : list T) : Deallocate (Live <$> xs) = Leaked <$> xs.
Proof.
  induction xs as [|x xs IH]; [done|].
  unfold Deallocate in *. cbn. by f_equal.
Qed.

Lemma Allocate_replicate n : @Allocate T n = replicate n Raw.
Proof. unfold Allocate. by destruct n. Qed.

End TraceFacts.

(** ** Single objects *)
Section ObjectFacts.
Context {T : Type}.
Implicit Types (b pre post : block T) (x : T) (xs : list T).

Lemma lookup_middle pre (s : slot T) post : (pre ++ s :: post) !! length pre = Some s.
Proof. by rewrite list_lookup_middle. Qed.

Lemma insert_middle pre (s s' : slot T) post :
  <[length pre := s']> (pre ++ s :: post) = pre ++ s' :: post.
Proof. rewrite insert_app_r_alt by lia. by rewrite Nat.sub_diag. Qed.

Lemma deref_live pre x post : deref (pre ++ Live x :: post) (length pre) = Some x.
Proof. unfold deref. by rewrite lookup_middle. Qed.

Lemma store_live pre (s : slot T) x post :
  store (pre ++ s :: post) (length pre) x = pre ++ Live x :: post.
Proof. apply insert_middle. Qed.

Lemma construct_at_raw pre x post :
  construct_at (pre ++ Raw :: post) (length pre) x = Some (pre ++ Live x :: post, []).
Proof. unfold construct_at. by rewrite lookup_middle, insert_middle. Qed.

Lemma destroy_at_live pre x post :
  destroy_at (pre ++ Live x :: post) (length pre) = Some (pre ++ Raw :: post, [Destroyed x]).
Proof. unfold destroy_at. by rewrite lookup_middle, insert_middle. Qed.

Lemma destroy_at_raw pre post : destroy_at (pre ++ Raw :: post) (length pre) = None.
Proof. unfold destroy_at. by rewrite lookup_middle. Qed.

Lemma destroy_n_live pre xs post :
  destroy_n (pre ++ (Live <$> xs) ++ post) (length pre) (length xs)
  = Some (pre ++ replicate (length xs) Raw ++ post, Destroyed <$> xs).
Proof.
  revert pre. induction xs as [|x xs IH]; intros pre; [done|].
  cbn [fmap list_fmap length destroy_n app]. rewrite destroy_at_live.
  specialize (IH (pre ++ [Raw])).
  rewrite length_app, Nat.add_1_r, <- !app_assoc in IH. cbn [app] in IH.
  by rewrite IH.
Qed.

Lemma destroy_n_spec b first n pre xs post :
  b = pre ++ (Live <$> xs) ++ post → first = length pre → n = length xs →
  destroy_n b first n = Some (pre ++ replicate n Raw ++ post, Destroyed <$> xs).
Proof. intros -> -> ->. apply destroy_n_live. Qed.

End ObjectFacts.

(** ** The library algorithms on laid-out blocks *)
Section AlgorithmFacts.
Context {T : Type} `{ElemType T}.
Implicit Types (xs ys : list T) (src dst spre spost dpre dpost pre post : block T).

Lemma copies_length xs : length (copies xs).1 ≤ length xs.
Proof.
  induction xs as [|x xs IH]; simpl; [done|].
  destruct (copy_construct x); simpl; [|lia].
  destruct (copies xs); simpl in *; lia.
Qed.

Lemma copies_ok_length xs : (copies xs).2 = true → length (copies xs).1 = length xs.
Proof.
  induction xs as [|x xs IH]; simpl; [done|].
  destruct (copy_construct x); simpl; [|done].
  destruct (copies xs); simpl in *. intros; f_equal; auto.
Qed.

Lemma moves_length xs : length (moves xs).1 ≤ length xs.
Proof.
  induction xs as [|x xs IH]; simpl; [done|].
  destruct (move_construct x); simpl; [|lia].
  destruct (moves xs); simpl in *; lia.
Qed.

Lemma moves_ok_length xs : (moves xs).2 = true → length (moves xs).1 = length xs.
Proof.
  induction xs as [|x xs IH]; simpl; [done|].
  destruct (move_construct x); simpl; [|done].
  destruct (moves xs); simpl in *. intros; f_equal; auto.
Qed.

Lemma uninitialized_copy_loop_layout xs spre spost dpre dpost :
  uninitialized_copy_loop (spre ++ (Live <$> xs) ++ spost) (length spre) (length xs)
    (dpre ++ replicate (length xs) Raw ++ dpost) (length dpre)
  = (if (copies xs).2 then Ok else Throw)
      (dpre ++ (Live <$> (copies xs).1)
         ++ replicate (length xs - length (copies xs).1) Raw ++ dpost,
       length dpre + length (copies xs).1) [].
Proof.
  revert spre dpre. induction xs as [|x xs IH]; intros spre dpre.
  { simpl. by rewrite Nat.add_0_r. }
  cbn [fmap list_fmap length uninitialized_copy_loop app replicate copies].
  rewrite deref_live. destruct (copy_construct x) as [y|]; simpl.
  { rewrite construct_at_raw, after_nil.
    specialize (IH (spre ++ [Live x]) (dpre ++ [Live y])).
    rewrite !length_app, <- !app_assoc in IH. simpl in IH.
    rewrite !Nat.add_1_r in IH. rewrite IH.
    destruct (copies xs) as [ys ok]; simpl.
    by rewrite Nat.add_succ_r. }
  by rewrite Nat.add_0_r.
Qed.

Lemma uninitialized_copy_n_layout src first n dst d_first xs spre spost dpre dpost :
  src = spre ++ (Live <$> xs) ++ spost → first = length spre → n = length xs →
  dst = dpre ++ replicate n Raw ++ dpost → d_first = length dpre →
  uninitialized_copy_n src first n dst d_first
  = if (copies xs).2 then Ok (dpre ++ (Live <$> (copies xs).1) ++ dpost) []
    else Throw dst (Destroyed <$> (copies xs).1).
Proof.
  intros -> -> -> -> ->. unfold uninitialized_copy_n.
  rewrite uninitialized_copy_loop_layout.
  pose proof (copies_length xs) as Hle.
  destruct (copies xs) as [ys ok] eqn:Hc; simpl in *. destruct ok.
  { pose proof (copies_ok_length xs) as Hl. rewrite Hc in Hl. simpl in Hl.
    rewrite Hl, Nat.sub_diag by done. done. }
  rewrite (destroy_n_spec _ _ _ dpre ys
             (replicate (length xs - length ys) Raw ++ dpost)); [|done|done|lia].
  simpl. f_equal. f_equal.
  rewrite app_assoc, <- replicate_add. f_equal. f_equal. lia.
Qed.

Lemma moved_from_length (ps : list (T * T)) xs :
  length ps ≤ length xs → length (moved_from ps xs) = length xs.
Proof.
  intros Hle. unfold moved_from.
  rewrite length_app, length_fmap, length_drop. lia.
Qed.

Lemma uninitialized_move_loop_layout xs spre spost dpre dpost :
  uninitialized_move_loop (spre ++ (Live <$> xs) ++ spost) (length spre) (length xs)
    (dpre ++ replicate (length xs) Raw ++ dpost) (length dpre)
  = (if (moves xs).2 then Ok else Throw)
      (spre ++ (Live <$> moved_from (moves xs).1 xs) ++ spost,
       dpre ++ (Live <$> (moves xs).1.*1)
         ++ replicate (length xs - length (moves xs).1) Raw ++ dpost,
       length dpre + length (moves xs).1) [].
Proof.
  revert spre dpre. induction xs as [|x xs IH]; intros spre dpre.
  { simpl. by rewrite Nat.add_0_r. }
  cbn [fmap list_fmap length uninitialized_move_loop app replicate moves].
  rewrite deref_live. destruct (move_construct x) as [[y x']|]; simpl.
  { rewrite construct_at_raw, after_nil, store_live.
    specialize (IH (spre ++ [Live x']) (dpre ++ [Live y])).
    rewrite !length_app, <- !app_assoc in IH. simpl in IH.
    rewrite !Nat.add_1_r in IH. rewrite IH.
    destruct (moves xs) as [ps ok]; simpl.
    by rewrite Nat.add_succ_r. }
  by rewrite Nat.add_0_r.
Qed.

Lemma uninitialized_move_n_layout src first n dst d_first xs spre spost dpre dpost :
  src = spre ++ (Live <$> xs) ++ spost → first = length spre → n = length xs →
  dst = dpre ++ replicate n Raw ++ dpost → d_first = length dpre →
  uninitialized_move_n src first n dst d_first
  = if (moves xs).2
    then Ok (spre ++ (Live <$> moved_from (moves xs).1 xs) ++ spost,
             dpre ++ (Live <$> (moves xs).1.*1) ++ dpost) []
    else Throw (spre ++ (Live <$> moved_from (moves xs).1 xs) ++ spost, dst)
               (Destroyed <$> (moves xs).1.*1).
Proof.
  intros -> -> -> -> ->. unfold uninitialized_move_n.
  rewrite uninitialized_move_loop_layout.
  pose proof (moves_length xs) as Hle.
  destruct (moves xs) as [ps ok] eqn:Hc; simpl in *. destruct ok.
  { pose proof (moves_ok_length xs) as Hl. rewrite Hc in Hl. simpl in Hl.
    rewrite Hl, Nat.sub_diag by done. done. }
  rewrite (destroy_n_spec _ _ _ dpre (ps.*1)
             (replicate (length xs - length ps) Raw ++ dpost));
    [|done|done|rewrite length_fmap; lia].
  simpl. do 3 f_equal.
  rewrite app_assoc, <- replicate_add. do 2 f_equal. lia.
Qed.

Lemma uninitialized_value_construct_loop_layout d n pre post :
  value_construct = Some d →
  uninitialized_value_construct_loop (pre ++ replicate n Raw ++ post) (length pre) n
  = Ok (pre ++ replicate n (Live d) ++ post, length pre + n) [].
Proof.
  intros Hd. revert pre. induction n as [|n IH]; intros pre.
  { simpl. by rewrite Nat.add_0_r. }
  cbn [uninitialized_value_construct_loop replicate app]. rewrite Hd.
  rewrite construct_at_raw, after_nil.
  specialize (IH (pre ++ [Live d])).
  rewrite !length_app, <- !app_assoc in IH. simpl in IH.
  rewrite !Nat.add_1_r in IH. rewrite IH. by rewrite Nat.add_succ_r.
Qed.

Lemma uninitialized_value_construct_n_layout b first n pre post :
  b = pre ++ replicate n Raw ++ post → first = length pre →
  uninitialized_value_construct_n b first n
  = match value_construct with
    | Some d => Ok (pre ++ replicate n (Live d) ++ post) []
    | None => if n =? 0 then Ok b [] else Throw b []
    end.
Proof.
  intros -> ->. unfold uninitialized_value_construct_n.
  destruct value_construct as [d|] eqn:Hd.
  { by rewrite (uninitialized_value_construct_loop_layout d). }
  destruct n as [|n]; simpl; [done|]. rewrite Hd.
  by rewrite Nat.sub_diag.
Qed.

(** Assignment never changes which slots hold an object. *)
Lemma deref_is_live (b : block T) i x :
  deref b i = Some x → (is_live <$> b) !! i = Some true.
Proof.
  unfold deref. rewrite list_lookup_fmap.
  destruct (b !! i) as [[|y]|]; intros; simplify_eq; done.
Qed.

Lemma store_shape (b : block T) i x :
  (is_live <$> b) !! i = Some true → is_live <$> store b i x = is_live <$> b.
Proof.
  intros Hy. unfold store. rewrite list_fmap_insert. simpl.
  by apply list_insert_id.
Qed.

Lemma store_store_shape (b : block T) i j x y z w :
  deref b i = Some x → deref b j = Some y →
  is_live <$> store (store b i z) j w = is_live <$> b.
Proof.
  intros Hi%deref_is_live Hj%deref_is_live.
  rewrite store_shape; rewrite store_shape; done.
Qed.

Lemma copy_loop_shape src first n dst d_first :
  unchanged_shape dst (copy_loop src first n dst d_first).
Proof.
  revert first dst d_first. induction n as [|n IH]; intros first dst d_first; simpl; [done|].
  destruct (deref src first) as [x|]; [|done].
  destruct (deref dst d_first) as [d|] eqn:Hd; [|done].
  destruct (copy_assign d x) as [d'|]; [|done].
  specialize (IH (S first) (store dst d_first d') (S d_first)).
  destruct (copy_loop _ _ _ _ _); simpl in *; [| |done];
    (destruct IH as [-> ->]; split; [|done]);
    apply store_shape; by eapply deref_is_live.
Qed.

Lemma std_copy_shape src first last dst d_first :
  unchanged_shape dst (std_copy src first last dst d_first).
Proof. unfold std_copy. destruct (first <=? last); [apply copy_loop_shape|done]. Qed.

Lemma move_loop_shape b first n d_first :
  unchanged_shape b (move_loop b first n d_first).
Proof.
  revert b first d_first. induction n as [|n IH]; intros b first d_first; simpl; [done|].
  destruct (deref b first) as [x|] eqn:Hx; [|done].
  destruct (deref b d_first) as [d|] eqn:Hd; [|done].
  destruct (move_assign d x) as [[d' x']|]; [|done].
  specialize (IH (store (store b first x') d_first d') (S first) (S d_first)).
  destruct (move_loop _ _ _ _); simpl in *; [| |done];
    (destruct IH as [-> ->]; split; [|done]); by eapply store_store_shape.
Qed.

Lemma std_move_shape b first last d_first :
  unchanged_shape b (std_move b first last d_first).
Proof. unfold std_move. destruct (first <=? last); [apply move_loop_shape|done]. Qed.

Lemma move_backward_loop_shape b n last d_last :
  unchanged_shape b (move_backward_loop b n last d_last).
Proof.
  revert b last d_last. induction n as [|n IH]; intros b last d_last; simpl; [done|].
  destruct last as [|last]; [done|]. destruct d_last as [|d_last]; [done|].
  destruct (deref b last) as [x|] eqn:Hx; [|done].
  destruct (deref b d_last) as [d|] eqn:Hd; [|done].
  destruct (move_assign d x) as [[d' x']|]; [|done].
  specialize (IH (store (store b last x') d_last d') last d_last).
  destruct (move_backward_loop _ _ _ _); simpl in *; [| |done];
    (destruct IH as [-> ->]; split; [|done]); by eapply store_store_shape.
Qed.

Lemma std_move_backward_shape b first last d_last :
  unchanged_shape b (std_move_backward b first last d_last).
Proof.
  unfold std_move_backward.
  destruct (first <=? last); [apply move_backward_loop_shape|done].
Qed.

(** The two shifting algorithms on regular element types. *)
Lemma deref_live_next pre (s : slot T) x post :
  deref (pre ++ s :: Live x :: post) (S (length pre)) = Some x.
Proof.
  rewrite (cons_middle s), app_assoc.
  replace (S (length pre)) with (length (pre ++ [s])) by (rewrite length_app; simpl; lia).
  apply deref_live.
Qed.

Lemma store_live_next pre (s s' : slot T) x post :
  store (pre ++ s :: s' :: post) (S (length pre)) x = pre ++ s :: Live x :: post.
Proof.
  rewrite (cons_middle s), app_assoc.
  replace (S (length pre)) with (length (pre ++ [s])) by (rewrite length_app; simpl; lia).
  rewrite store_live. by rewrite <- app_assoc.
Qed.

Lemma move_loop_regular `{!Regular T} pre d xs post :
  ∃ z, move_loop (pre ++ (Live <$> d :: xs) ++ post) (S (length pre)) (length xs)
         (length pre)
       = Ok (pre ++ (Live <$> xs ++ [z]) ++ post) [].
Proof.
  revert pre d. induction xs as [|x xs IH]; intros pre d.
  { by exists d. }
  cbn [fmap list_fmap length move_loop app].
  rewrite deref_live_next, deref_live.
  destruct (move_assign_regular d x) as [x' ->].
  rewrite store_live_next, store_live.
  destruct (IH (pre ++ [Live x]) x') as [z Hz].
  rewrite length_app, Nat.add_1_r, <- !app_assoc in Hz. cbn [app length] in Hz.
  exists z. by rewrite fmap_cons in Hz.
Qed.

Lemma move_backward_loop_regular `{!Regular T} pre xs t post :
  ∃ z, move_backward_loop (pre ++ (Live <$> xs ++ [t]) ++ post) (length xs)
         (length pre + length xs) (S (length pre + length xs))
       = Ok (pre ++ (Live <$> z :: xs) ++ post) [].
Proof.
  revert t post. induction xs as [|x xs IH] using rev_ind; intros t post.
  { by exists t. }
  rewrite length_app, Nat.add_1_r, Nat.add_succ_r.
  cbn [move_backward_loop].
  replace (pre ++ (Live <$> (xs ++ [x]) ++ [t]) ++ post)
    with ((pre ++ (Live <$> xs)) ++ Live x :: Live t :: post)
    by (rewrite !fmap_app, <- !app_assoc; done).
  replace (length pre + length xs) with (length (pre ++ (Live <$> xs)))
    by (rewrite length_app, length_fmap; done).
  rewrite deref_live_next, deref_live.
  destruct (move_assign_regular t x) as [x' ->].
  rewrite store_live, store_live_next.
  destruct (IH x' (Live x :: post)) as [z Hz].
  exists z.
  rewrite length_app, length_fmap.
  replace ((pre ++ (Live <$> xs)) ++ Live x' :: Live x :: post)
    with (pre ++ (Live <$> xs ++ [x']) ++ Live x :: post)
    by (rewrite !fmap_app, <- !app_assoc; done).
  rewrite Hz. f_equal. f_equal.
  rewrite !fmap_cons, !fmap_app. simpl. by rewrite <- !app_assoc.
Qed.

(** [std::move_backward] leaves everything from [d_last] on alone. *)
Lemma move_backward_loop_frame (b : block T) n last d_last i :
  last ≤ d_last → d_last ≤ i →
  match move_backward_loop b n last d_last with
  | Ok b' _ | Throw b' _ => b' !! i = b !! i
  | Undef => True
  end.
Proof.
  revert b last d_last. induction n as [|n IH]; intros b last d_last Hl Hi; simpl; [done|].
  destruct last as [|last]; [done|]. destruct d_last as [|d_last]; [done|].
  destruct (deref b last) as [x|]; [|done].
  destruct (deref b d_last) as [d|]; [|done].
  destruct (move_assign d x) as [[d' x']|]; [|done].
  specialize (IH (store (store b last x') d_last d') last d_last).
  destruct (move_backward_loop _ _ _ _); [| |done];
    (rewrite IH by lia; unfold store; rewrite !list_lookup_insert_ne by lia; done).
Qed.

Lemma std_move_backward_frame (b : block T) first last d_last i :
  last ≤ d_last → d_last ≤ i →
  match std_move_backward b first last d_last with
  | Ok b' _ | Throw b' _ => b' !! i = b !! i
  | Undef => True
  end.
Proof.
  intros Hl Hi. unfold std_move_backward.
  destruct (first <=? last); [by apply move_backward_loop_frame|done].
Qed.

End AlgorithmFacts.

(** ** Well-formed vectors *)
Section VectorFacts.
Context {T : Type} `{ElemType T}.
Implicit Types (v : Vector T) (xs ys : list T).

Lemma replicate_split {A} (a n : nat) (x : A) :
  a ≤ n → replicate n x = replicate a x ++ replicate (n - a) x.
Proof. intros Hle. rewrite <- replicate_add. f_equal. lia. Qed.

Lemma replicate_pos {A} (n : nat) (x : A) :
  0 < n → replicate n x = x :: replicate (n - 1) x.
Proof. destruct n; [lia|]. simpl. by rewrite Nat.sub_0_r. Qed.

Lemma holds_vector_of v xs : holds v xs → v = vector_of xs (Capacity v).
Proof.
  destruct v as [[b c] s]. unfold holds, vector_of, Capacity. simpl.
  by intros (-> & _ & ->).
Qed.

Lemma vector_of_holds xs cap : length xs ≤ cap → holds (vector_of xs cap) xs.
Proof. intros Hle. unfold holds, vector_of. simpl. done. Qed.

Lemma holds_size v xs : holds v xs → Size v = length xs.
Proof. by intros (? & _). Qed.

Lemma holds_capacity v xs : holds v xs → length xs ≤ Capacity v.
Proof. intros (<- & ? & _). done. Qed.

Lemma holds_invariant v xs : holds v xs → invariant v.
Proof.
  intros (Hs & Hle & Hb). split; [done|].
  rewrite Hb, fmap_app, fmap_replicate, <- list_fmap_compose, Hs. simpl.
  f_equal. clear. induction xs as [|x xs IH]; [done|]. simpl. by f_equal.
Qed.

Lemma invariant_holds v : invariant v → ∃ xs, holds v xs.
Proof.
  destruct v as [[b c] s]. unfold invariant, holds. simpl. intros [Hle Hb].
  assert (length b = c) as Hlen.
  { rewrite <- (length_fmap is_live), Hb, length_app, !length_replicate. lia. }
  assert (∃ xs, take s b = Live <$> xs) as [xs Hxs].
  { assert (is_live <$> take s b = replicate s true) as Ht.
    { rewrite fmap_take, Hb, take_app_length'; [done|by rewrite length_replicate]. }
    clear -Ht. revert Ht. generalize (take s b). intros l. revert s.
    induction l as [|[|x] l IH]; intros s Hs.
    - by exists [].
    - by destruct s.
    - destruct s as [|s]; [done|]. simpl in Hs. injection Hs as Hs.
      destruct (IH _ Hs) as [xs ->]. by exists (x :: xs). }
  assert (drop s b = replicate (c - s) Raw) as Hd.
  { assert (is_live <$> drop s b = replicate (c - s) false) as Ht.
    { rewrite fmap_drop, Hb, drop_app_length'; [done|by rewrite length_replicate]. }
    assert (length (drop s b) = c - s) as Hl by (rewrite length_drop; lia).
    clear -Ht Hl. revert Ht Hl. generalize (drop s b) (c - s). intros l n. revert n.
    induction l as [|[|x] l IH]; intros n Hn Hl; simpl in *; subst n; [done| |done].
    simpl in *. injection Hn as Hn. f_equal. by apply IH. }
  exists xs. split; [|split; [done|]].
  - apply (f_equal length) in Hxs. rewrite length_take, length_fmap in Hxs. lia.
  - by rewrite <- (take_drop s b), Hxs, Hd.
Qed.

Lemma Vector_at_holds v xs i : holds v xs → Vector_at v i = xs !! i.
Proof.
  intros Hv. rewrite (holds_vector_of v xs Hv).
  pose proof (holds_capacity _ _ Hv) as Hc.
  unfold Vector_at, vector_of, RawMemory_at, deref. simpl.
  destruct (i <? length xs) eqn:Hi.
  - apply Nat.ltb_lt in Hi. assert ((i <? Capacity v) = true) as -> by (apply Nat.ltb_lt; lia).
    rewrite lookup_app_l by (by rewrite length_fmap).
    rewrite list_lookup_fmap. by destruct (xs !! i).
  - apply Nat.ltb_ge in Hi. by rewrite lookup_ge_None_2.
Qed.

Lemma relocation_built_length xs : length (relocation xs).1.1 ≤ length xs.
Proof.
  unfold relocation. destruct (_ || _).
  - pose proof (moves_length xs). destruct (moves xs); simpl in *.
    by rewrite length_fmap.
  - pose proof (copies_length xs). by destruct (copies xs).
Qed.

Lemma relocation_ok_length xs :
  (relocation xs).2 = true → length (relocation xs).1.1 = length xs.
Proof.
  unfold relocation. destruct (_ || _).
  - pose proof (moves_ok_length xs). destruct (moves xs); simpl in *.
    rewrite length_fmap. auto.
  - pose proof (copies_ok_length xs). by destruct (copies xs).
Qed.

Lemma relocation_source_length xs : length (relocation xs).1.2 = length xs.
Proof.
  unfold relocation. destruct (_ || _).
  - pose proof (moves_length xs). destruct (moves xs); simpl in *.
    by apply moved_from_length.
  - by destruct (copies xs).
Qed.

(** One relocation step as [Reserve], [EmplaceBack] and [Emplace] spell it. *)
Lemma relocate_layout src first n dst d_first xs spre spost dpre dpost :
  src = spre ++ (Live <$> xs) ++ spost → first = length spre → n = length xs →
  dst = dpre ++ replicate n Raw ++ dpost → d_first = length dpre →
  (if nothrow_move_constructible || negb copy_constructible then
     uninitialized_move_n src first n dst d_first
   else
     match uninitialized_copy_n src first n dst d_first with
     | Ok dst' tr => Ok (src, dst') tr
     | Throw dst' tr => Throw (src, dst') tr
     | Undef => Undef
     end)
  = if (relocation xs).2
    then Ok (spre ++ (Live <$> (relocation xs).1.2) ++ spost,
             dpre ++ (Live <$> (relocation xs).1.1) ++ dpost) []
    else Throw (spre ++ (Live <$> (relocation xs).1.2) ++ spost, dst)
               (Destroyed <$> (relocation xs).1.1).
Proof.
  intros Hsrc Hfirst Hn Hdst Hd. unfold relocation. destruct (_ || _).
  - rewrite (uninitialized_move_n_layout _ _ _ _ _ xs spre spost dpre dpost) by done.
    by destruct (moves xs) as [ps []].
  - rewrite (uninitialized_copy_n_layout _ _ _ _ _ xs spre spost dpre dpost) by done.
    subst src. by destruct (copies xs) as [ys []].
Qed.

Lemma Reserve_noop n v : n ≤ Capacity v → Reserve n v = Ok v [].
Proof. intros Hle. unfold Reserve. by apply Nat.leb_le in Hle as ->. Qed.

Lemma Reserve_grow n xs cap :
  length xs ≤ cap → cap < n →
  Reserve n (vector_of xs cap)
  = if (relocation xs).2
    then Ok (vector_of (relocation xs).1.1 n) (Destroyed <$> (relocation xs).1.2)
    else Throw (vector_of (relocation xs).1.2 cap) (Destroyed <$> (relocation xs).1.1).
Proof.
  intros Hle Hlt. unfold Reserve, Capacity, vector_of. simpl.
  apply Nat.leb_gt in Hlt as Hlt'. rewrite Hlt'. clear Hlt'.
  rewrite (relocate_layout _ _ _ _ _ xs [] (replicate (cap - length xs) Raw)
             [] (replicate (n - length xs) Raw));
    [|done|done|done|rewrite Allocate_replicate; apply replicate_split; lia|done].
  pose proof (relocation_source_length xs) as Hsrc.
  pose proof (relocation_ok_length xs) as Hok.
  destruct (relocation xs) as [[ys xs'] ok]. simpl in *. destruct ok.
  - rewrite (destroy_n_spec _ _ _ [] xs' (replicate (cap - length xs) Raw)); [|done|done|done].
    unfold RawMemory_destroy. simpl.
    rewrite Deallocate_app, !Deallocate_raw, !app_nil_r.
    by rewrite Hok.
  - unfold RawMemory_destroy, with_block, with_buffer. simpl.
    rewrite Deallocate_Allocate, app_nil_r. by rewrite Hsrc.
Qed.

Lemma construct_at_spec (b : block T) p x pre post :
  b = pre ++ Raw :: post → p = length pre →
  construct_at b p x = Some (pre ++ Live x :: post, []).
Proof. intros -> ->. apply construct_at_raw. Qed.

Lemma destroy_at_spec (b : block T) p x pre post :
  b = pre ++ Live x :: post → p = length pre →
  destroy_at b p = Some (pre ++ Raw :: post, [Destroyed x]).
Proof. intros -> ->. apply destroy_at_live. Qed.

Lemma deref_spec (b : block T) p x pre post :
  b = pre ++ Live x :: post → p = length pre → deref b p = Some x.
Proof. intros -> ->. apply deref_live. Qed.

Lemma growth_max s : (if s =? 0 then 1 else s * 2) = 1 `max` (2 * s).
Proof. destruct s; simpl; lia. Qed.

Lemma EmplaceBack_grow x xs cap :
  length xs ≤ cap → cap ≤ length xs →
  EmplaceBack (Some x) (vector_of xs cap)
  = if (relocation xs).2
    then Ok (vector_of ((relocation xs).1.1 ++ [x]) (1 `max` (2 * length xs)), x)
            (Destroyed <$> (relocation xs).1.2)
    else Throw (vector_of (relocation xs).1.2 cap)
               (Destroyed <$> (relocation xs).1.1 ++ [x]).
Proof.
  intros Hle Hge. unfold EmplaceBack, Capacity, vector_of. simpl.
  apply Nat.leb_le in Hge as Hge'. rewrite Hge'. clear Hge'.
  rewrite growth_max. set (new_cap := 1 `max` (2 * length xs)).
  assert (length xs < new_cap) as Hnew by (unfold new_cap; lia).
  rewrite Allocate_replicate.
  rewrite (construct_at_spec _ _ x (replicate (length xs) Raw)
             (replicate (new_cap - length xs - 1) Raw));
    [|rewrite (replicate_split (length xs) new_cap) by lia;
      f_equal; apply replicate_pos; lia
     |by rewrite length_replicate].
  rewrite after_nil. unfold with_buffer at 1 2. simpl.
  rewrite (relocate_layout _ _ _ _ _ xs [] (replicate (cap - length xs) Raw)
             [] (Live x :: replicate (new_cap - length xs - 1) Raw)); [|done..].
  pose proof (relocation_source_length xs) as Hsrc.
  pose proof (relocation_ok_length xs) as Hok.
  destruct (relocation xs) as [[ys xs'] ok]. simpl in *. destruct ok.
  - rewrite (destroy_n_spec _ _ _ [] xs' (replicate (cap - length xs) Raw)); [|done|done|done].
    unfold RawMemory_destroy, RawMemory_at. simpl.
    rewrite Deallocate_app, !Deallocate_raw, !app_nil_r.
    apply Nat.ltb_lt in Hnew as ->.
    rewrite (deref_spec _ _ x (Live <$> ys) (replicate (new_cap - length xs - 1) Raw));
      [|done|by rewrite length_fmap, Hok].
    rewrite length_app, fmap_app, <- app_assoc, Hok by done. simpl.
    by rewrite <- Nat.sub_add_distr.
  - unfold RawMemory_plus. simpl.
    assert ((length xs <=? new_cap) = true) as -> by (apply Nat.leb_le; lia).
    rewrite (destroy_at_spec _ _ x (replicate (length xs) Raw)
               (replicate (new_cap - length xs - 1) Raw));
      [|done|by rewrite length_replicate].
    unfold RawMemory_destroy, with_block, with_buffer. simpl.
    rewrite Deallocate_app, Deallocate_raw. simpl.
    change (Raw :: replicate (new_cap - length xs - 1) Raw)
      with (replicate (S (new_cap - length xs - 1)) (@Raw T)).
    rewrite Deallocate_raw. by rewrite fmap_app, Hsrc.
Qed.

Lemma EmplaceBack_room x xs cap :
  length xs < cap →
  EmplaceBack (Some x) (vector_of xs cap) = Ok (vector_of (xs ++ [x]) cap, x) [].
Proof.
  intros Hlt. unfold EmplaceBack, Capacity, vector_of. simpl.
  apply Nat.leb_gt in Hlt as Hlt'. rewrite Hlt'. clear Hlt'.
  rewrite (construct_at_spec _ _ x (Live <$> xs) (replicate (cap - length xs - 1) Raw));
    [|f_equal; apply replicate_pos; lia
     |by rewrite length_fmap].
  unfold RawMemory_at. simpl. apply Nat.ltb_lt in Hlt as ->.
  rewrite (deref_spec _ _ x (Live <$> xs) (replicate (cap - length xs - 1) Raw));
    [|done|by rewrite length_fmap].
  rewrite length_app, fmap_app, <- app_assoc. simpl.
  by rewrite <- Nat.sub_add_distr.
Qed.

Lemma EmplaceBack_ctor_throws v : ∃ tr, EmplaceBack None v = Throw v tr.
Proof.
  unfold EmplaceBack. destruct (Capacity v <=? size_ v); by eexists.
Qed.

(** The two relocation steps of [Emplace] around the new element. *)
Lemma relocate_around_layout x xs1 xs2 spost dpost :
  let src := (Live <$> xs1 ++ xs2) ++ spost in
  let dst := replicate (length xs1) Raw ++ Live x :: replicate (length xs2) Raw ++ dpost in
  (if nothrow_move_constructible || negb copy_constructible then
     and_then
       (uninitialized_move_n src 0 (length xs1) dst 0)
       (λ '(src, dst),
          uninitialized_move_n src (length xs1) (length (xs1 ++ xs2) - length xs1)
            dst (length xs1 + 1))
   else
     and_then
       (match uninitialized_copy_n src 0 (length xs1) dst 0 with
        | Ok dst tr => Ok (src, dst) tr
        | Throw dst tr => Throw (src, dst) tr
        | Undef => Undef
        end)
       (λ '(src, dst),
          match uninitialized_copy_n src (length xs1) (length (xs1 ++ xs2) - length xs1)
                  dst (length xs1 + 1) with
          | Ok dst' tr => Ok (src, dst') tr
          | Throw dst' tr => Throw (src, dst') tr
          | Undef => Undef
          end))
  = if (relocation xs1).2 then
      if (relocation xs2).2 then
        Ok ((Live <$> (relocation xs1).1.2 ++ (relocation xs2).1.2) ++ spost,
            (Live <$> (relocation xs1).1.1 ++ x :: (relocation xs2).1.1) ++ dpost) []
      else
        Throw ((Live <$> (relocation xs1).1.2 ++ (relocation xs2).1.2) ++ spost,
               (Live <$> (relocation xs1).1.1 ++ [x]) ++ replicate (length xs2) Raw ++ dpost)
              (Destroyed <$> (relocation xs2).1.1)
    else
      Throw ((Live <$> (relocation xs1).1.2 ++ xs2) ++ spost, dst)
            (Destroyed <$> (relocation xs1).1.1).
Proof.
  intros src dst. subst src. rewrite (fmap_app _ xs1 xs2), <- app_assoc.
  assert (length (xs1 ++ xs2) - length xs1 = length xs2) as -> by (rewrite length_app; lia).
  pose proof (relocation_ok_length xs1) as Hok1.
  pose proof (relocation_source_length xs1) as Hsrc1.
  unfold relocation in *. destruct (_ || _).
  - rewrite (uninitialized_move_n_layout _ _ _ dst _ xs1 []
               ((Live <$> xs2) ++ spost) []
               (Live x :: replicate (length xs2) Raw ++ dpost)); [|done..].
    destruct (moves xs1) as [ps1 ok1]. simpl in *. destruct ok1; simpl.
    + rewrite (uninitialized_move_n_layout _ _ _ _ _ xs2
                 (Live <$> moved_from ps1 xs1) spost ((Live <$> ps1.*1) ++ [Live x]) dpost);
        [|done|by rewrite length_fmap|done|by rewrite <- app_assoc
         |by rewrite length_app, length_fmap, Hok1].
      destruct (moves xs2) as [ps2 ok2]. simpl.
      rewrite !fmap_app, <- !app_assoc. destruct ok2; reflexivity.
    + by rewrite !fmap_app, <- !app_assoc.
  - rewrite (uninitialized_copy_n_layout _ _ _ dst _ xs1 []
               ((Live <$> xs2) ++ spost) []
               (Live x :: replicate (length xs2) Raw ++ dpost)); [|done..].
    destruct (copies xs1) as [ys1 ok1]. simpl in *. destruct ok1; simpl.
    + rewrite (uninitialized_copy_n_layout _ _ _ _ _ xs2
                 (Live <$> xs1) spost ((Live <$> ys1) ++ [Live x]) dpost);
        [|done|by rewrite length_fmap|done
         |by rewrite <- app_assoc|by rewrite length_app, length_fmap, Hok1].
      destruct (copies xs2) as [ys2 ok2]. simpl.
      rewrite !fmap_app, <- !app_assoc. destruct ok2; reflexivity.
    + by rewrite !fmap_app, <- !app_assoc.
Qed.

Lemma relocation_nil_ok xs : (relocation xs).2 = false → xs ≠ [].
Proof.
  intros Hf ->. unfold relocation in Hf. by destruct (_ || _).
Qed.

Lemma Emplace_grow x xs1 xs2 cap :
  length (xs1 ++ xs2) ≤ cap → cap ≤ length (xs1 ++ xs2) →
  Emplace (length xs1) (Some x) (vector_of (xs1 ++ xs2) cap)
  = if (relocation xs1).2 then
      if (relocation xs2).2 then
        Ok (vector_of ((relocation xs1).1.1 ++ x :: (relocation xs2).1.1)
              (1 `max` (2 * length (xs1 ++ xs2))),
            length xs1)
           (Destroyed <$> (relocation xs1).1.2 ++ (relocation xs2).1.2)
      else
        Throw (vector_of ((relocation xs1).1.2 ++ (relocation xs2).1.2) cap)
              (Destroyed <$> (relocation xs2).1.1 ++ (relocation xs1).1.1 ++ [x])
    else Undef.
Proof.
  intros Hle Hge. unfold Emplace, Capacity, vector_of, begin, end_. simpl.
  assert ((length xs1 <=? length (xs1 ++ xs2)) = true) as ->
    by (apply Nat.leb_le; rewrite length_app; lia).
  apply Nat.leb_le in Hge as Hge'. rewrite Hge'. clear Hge'. simpl.
  rewrite growth_max, Nat.sub_0_r. set (new_cap := 1 `max` (2 * length (xs1 ++ xs2))).
  assert (length xs1 + length xs2 < new_cap) as Hnew
    by (unfold new_cap; rewrite length_app; lia).
  set (dpost := replicate (new_cap - length xs1 - 1 - length xs2) (@Raw T)).
  rewrite Allocate_replicate.
  rewrite (construct_at_spec _ _ x (replicate (length xs1) Raw)
             (replicate (length xs2) Raw ++ dpost));
    [|rewrite (replicate_split (length xs1) new_cap) by lia; f_equal;
      rewrite (replicate_pos (new_cap - length xs1)) by lia; f_equal;
      apply replicate_split; lia
     |by rewrite length_replicate].
  rewrite after_nil. unfold with_buffer at 1 2. simpl.
  rewrite (relocate_around_layout x xs1 xs2 (replicate (cap - length (xs1 ++ xs2)) Raw) dpost).
  pose proof (relocation_source_length xs1) as Hsrc1.
  pose proof (relocation_source_length xs2) as Hsrc2.
  pose proof (relocation_ok_length xs1) as Hok1.
  pose proof (relocation_ok_length xs2) as Hok2.
  pose proof (relocation_nil_ok xs1) as Hnil.
  destruct (relocation xs1) as [[ys1 xs1'] ok1].
  destruct (relocation xs2) as [[ys2 xs2'] ok2]. simpl in *.
  assert (length (xs1' ++ xs2') = length (xs1 ++ xs2)) as Hsrc
    by (rewrite !length_app; lia).
  destruct ok1; [destruct ok2|].
  - rewrite (destroy_n_spec _ _ _ [] (xs1' ++ xs2')
               (replicate (cap - length (xs1 ++ xs2)) Raw)); [|done|done|done].
    unfold RawMemory_destroy. simpl.
    rewrite Deallocate_app, !Deallocate_raw, !app_nil_r.
    assert (length (ys1 ++ x :: ys2) = length (xs1 ++ xs2) + 1) as ->
      by (rewrite !length_app; simpl; rewrite Hok1, Hok2 by done; lia).
    subst dpost.
    replace (new_cap - length xs1 - 1 - length xs2)
      with (new_cap - (length (xs1 ++ xs2) + 1)) by (rewrite length_app; lia).
    done.
  - rewrite Nat.add_1_r.
    rewrite (destroy_n_spec _ _ _ [] (ys1 ++ [x]) (replicate (length xs2) Raw ++ dpost));
      [|done|done|by rewrite length_app, Hok1, Nat.add_1_r].
    unfold RawMemory_destroy, with_block, with_buffer. simpl.
    rewrite Deallocate_cons_raw, !Deallocate_app, !Deallocate_raw. subst dpost.
    rewrite Deallocate_raw, !app_nil_r, Hsrc. by rewrite !fmap_app.
  - destruct xs1 as [|x1 xs1]; [by destruct Hnil|]. done.
Qed.

Lemma std_move_regular `{!Regular T} (b : block T) first last d_first pre d xs post :
  b = pre ++ (Live <$> d :: xs) ++ post →
  first = S (length pre) → last = S (length pre) + length xs → d_first = length pre →
  ∃ z, std_move b first last d_first = Ok (pre ++ (Live <$> xs ++ [z]) ++ post) [].
Proof.
  intros -> -> -> ->. unfold std_move.
  assert ((S (length pre) <=? S (length pre) + length xs) = true) as ->
    by (apply Nat.leb_le; lia).
  replace (S (length pre) + length xs - S (length pre)) with (length xs) by lia.
  apply move_loop_regular.
Qed.

Lemma std_move_backward_regular `{!Regular T} (b : block T) first last d_last pre xs t post :
  b = pre ++ (Live <$> xs ++ [t]) ++ post →
  first = length pre → last = length pre + length xs → d_last = S last →
  ∃ z, std_move_backward b first last d_last = Ok (pre ++ (Live <$> z :: xs) ++ post) [].
Proof.
  intros -> -> -> ->. unfold std_move_backward.
  assert ((length pre <=? length pre + length xs) = true) as ->
    by (apply Nat.leb_le; lia).
  replace (length pre + length xs - length pre) with (length xs) by lia.
  apply move_backward_loop_regular.
Qed.

Lemma relocation_regular `{!Regular T} xs :
  (relocation xs).1.1 = xs ∧ (relocation xs).2 = true.
Proof.
  unfold relocation. destruct (_ || _).
  - induction xs as [|x xs IH]; [done|]. simpl.
    destruct (move_construct_regular x) as [x' ->].
    destruct (moves xs) as [ps ok]. simpl in *. destruct IH as [IH ->].
    split; [by f_equal|done].
  - induction xs as [|x xs IH]; [done|]. simpl.
    rewrite copy_construct_regular.
    destruct (copies xs) as [ys ok]. simpl in *. destruct IH as [IH ->].
    split; [by f_equal|done].
Qed.

Lemma Emplace_end x xs cap :
  length xs < cap →
  Emplace (length xs) (Some x) (vector_of xs cap)
  = Ok (vector_of (xs ++ [x]) cap, length xs) [].
Proof.
  intros Hlt. unfold Emplace, Capacity, vector_of, begin, end_. simpl.
  rewrite Nat.leb_refl. simpl.
  apply Nat.leb_gt in Hlt as Hlt'. rewrite Hlt'. clear Hlt'.
  rewrite Nat.sub_0_r, Nat.eqb_refl. simpl.
  rewrite (construct_at_spec _ _ x (Live <$> xs) (replicate (cap - length xs - 1) Raw));
    [|f_equal; apply replicate_pos; lia|by rewrite length_fmap].
  unfold with_block, with_buffer. simpl.
  rewrite length_app, fmap_app, <- app_assoc. simpl.
  by rewrite <- Nat.sub_add_distr.
Qed.

Lemma Emplace_middle_regular `{!Regular T} x xs1 xs2 l cap :
  length (xs1 ++ xs2 ++ [l]) < cap →
  ∃ tr, Emplace (length xs1) (Some x) (vector_of (xs1 ++ xs2 ++ [l]) cap)
        = Ok (vector_of (xs1 ++ x :: xs2 ++ [l]) cap, length xs1) tr.
Proof.
  intros Hlt. unfold Emplace, Capacity, vector_of, begin, end_. simpl.
  set (n := length (xs1 ++ xs2 ++ [l])) in *.
  assert (n = length xs1 + length xs2 + 1) as Hn
    by (unfold n; rewrite !length_app; simpl; lia).
  assert ((length xs1 <=? n) = true) as -> by (apply Nat.leb_le; lia).
  apply Nat.leb_gt in Hlt as Hlt'. rewrite Hlt'. clear Hlt'.
  assert ((length xs1 - 0 =? n) = false) as Hne by (apply Nat.eqb_neq; lia).
  simpl. rewrite Nat.sub_0_r in *. rewrite Hne. simpl.
  unfold RawMemory_at. simpl.
  assert ((n - 1 <? cap) = true) as -> by (apply Nat.ltb_lt; lia).
  set (raws := replicate (cap - n - 1) (@Raw T)).
  assert ((Live <$> xs1 ++ xs2 ++ [l]) ++ replicate (cap - n) Raw
          = ((Live <$> xs1) ++ (Live <$> xs2)) ++ Live l :: Raw :: raws) as ->.
  { rewrite !fmap_app, <- !app_assoc. simpl. do 3 f_equal. apply replicate_pos. lia. }
  assert (n - 1 = length ((Live <$> xs1) ++ (Live <$> xs2))) as Hn1
    by (rewrite length_app, !length_fmap; lia).
  rewrite Hn1, deref_live.
  destruct (move_construct_regular l) as [l' ->].
  rewrite store_live.
  rewrite (construct_at_spec _ _ l (((Live <$> xs1) ++ (Live <$> xs2)) ++ [Live l']) raws);
    [|by rewrite <- !app_assoc|rewrite length_app, <- Hn1; simpl; lia].
  rewrite after_nil.
  destruct (std_move_backward_regular
              ((((Live <$> xs1) ++ (Live <$> xs2)) ++ [Live l']) ++ Live l :: raws)
              (length xs1) (length ((Live <$> xs1) ++ (Live <$> xs2))) n
              (Live <$> xs1) xs2 l' (Live l :: raws)) as [z ->];
    [by rewrite !fmap_app, <- !app_assoc|by rewrite length_fmap
    |by rewrite length_app, !length_fmap|lia|].
  rewrite (deref_spec _ _ z (Live <$> xs1) ((Live <$> xs2) ++ Live l :: raws));
    [|reflexivity|by rewrite length_fmap].
  destruct (move_assign_regular z x) as [x' ->].
  eexists. f_equal. f_equal.
  unfold with_block, with_buffer. simpl.
  assert (length (xs1 ++ x :: xs2 ++ [l]) = n + 1) as ->
    by (rewrite !length_app; simpl; rewrite length_app; simpl; lia).
  f_equal. f_equal.
  replace (length xs1) with (length (Live <$> xs1)) at 1 by apply length_fmap.
  rewrite store_live, (fmap_app _ xs1), fmap_cons, (fmap_app _ xs2), <- !app_assoc.
  subst raws. rewrite <- Nat.sub_add_distr.
  cbn [app]. rewrite <- app_assoc. reflexivity.
Qed.

Lemma Erase_regular `{!Regular T} xs1 d xs2 cap :
  length (xs1 ++ d :: xs2) ≤ cap →
  ∃ tr, Erase (length xs1) (vector_of (xs1 ++ d :: xs2) cap)
        = Ok (vector_of (xs1 ++ xs2) cap, length xs1) tr.
Proof.
  intros Hle. unfold Erase, Size, Capacity, vector_of, begin, end_. simpl.
  set (n := length (xs1 ++ d :: xs2)) in *.
  assert (n = length xs1 + length xs2 + 1) as Hn
    by (unfold n; rewrite !length_app; simpl; lia).
  assert ((length xs1 <? n) = true) as -> by (apply Nat.ltb_lt; lia).
  simpl. rewrite Nat.sub_0_r.
  destruct (std_move_regular
              ((Live <$> xs1 ++ d :: xs2) ++ replicate (cap - n) Raw)
              (length xs1 + 1) n (length xs1)
              (Live <$> xs1) d xs2 (replicate (cap - n) Raw)) as [z ->];
    [by rewrite !fmap_app, <- !app_assoc|rewrite length_fmap; lia
    |rewrite length_fmap; lia|by rewrite length_fmap|].
  rewrite (destroy_at_spec _ _ z ((Live <$> xs1) ++ (Live <$> xs2)) (replicate (cap - n) Raw));
    [|by rewrite fmap_app, <- !app_assoc|rewrite length_app, !length_fmap; lia].
  eexists. f_equal. f_equal.
  unfold with_buffer. simpl.
  assert (length (xs1 ++ xs2) = n - 1) as -> by (rewrite length_app; lia).
  f_equal. f_equal. rewrite fmap_app. f_equal.
  rewrite (replicate_pos (cap - (n - 1))) by lia. do 2 f_equal. lia.
Qed.

Lemma shape_layout xs n :
  is_live <$> ((Live <$> xs) ++ replicate n Raw)
  = replicate (length xs) true ++ replicate n false.
Proof.
  rewrite fmap_app, fmap_replicate, <- list_fmap_compose. f_equal.
  induction xs as [|x xs IH]; [done|]. simpl. by f_equal.
Qed.

Lemma is_live_lookup (b : block T) i :
  (is_live <$> b) !! i = Some true → ∃ x, b !! i = Some (Live x).
Proof.
  rewrite list_lookup_fmap. destruct (b !! i) as [[|x]|]; [done| |done].
  by exists x.
Qed.

(** The in-place path of [Emplace] when the backward shift throws: the slot
    built past the end is destroyed again. *)
Lemma Emplace_shift_throws x xs0 last y last' cap pos b2 tr2 :
  length xs0 + 1 < cap → pos ≤ length xs0 →
  move_construct last = Some (y, last') →
  std_move_backward ((Live <$> xs0 ++ [last'; y]) ++ replicate (cap - length xs0 - 2) Raw)
    pos (length xs0) (S (length xs0)) = Throw b2 tr2 →
  ∃ v', Emplace pos (Some x) (vector_of (xs0 ++ [last]) cap)
        = Throw v' [Destroyed y; Destroyed x]
      ∧ Size v' = S (length xs0) ∧ Capacity v' = cap ∧ invariant v'.
Proof.
  intros Hcap Hpos Hmove Hshift.
  unfold Emplace, Capacity, vector_of, begin, end_. cbn [data_ size_ capacity_ buffer_].
  set (n := length (xs0 ++ [last])).
  assert (n = S (length xs0)) as Hn by (unfold n; rewrite length_app; simpl; lia).
  clearbody n.
  assert ((pos <=? n) = true) as -> by (apply Nat.leb_le; lia).
  assert ((cap <=? n) = false) as -> by (apply Nat.leb_gt; lia).
  rewrite Nat.sub_0_r.
  assert ((pos =? n) = false) as -> by (apply Nat.eqb_neq; lia).
  cbn [andb negb Nat.leb]. unfold RawMemory_at. cbn [data_ size_ capacity_ buffer_].
  assert ((n - 1 <? cap) = true) as -> by (apply Nat.ltb_lt; lia).
  set (raws := replicate (cap - length xs0 - 2) (@Raw T)) in *.
  assert ((Live <$> xs0 ++ [last]) ++ replicate (cap - n) Raw
          = (Live <$> xs0) ++ Live last :: Raw :: raws) as ->.
  { rewrite fmap_app, <- app_assoc. cbn [fmap list_fmap app]. do 2 f_equal.
    rewrite (replicate_pos (cap - n)) by lia. subst raws. do 2 f_equal. lia. }
  assert (n - 1 = length (Live <$> xs0)) as Hn1 by (rewrite length_fmap; lia).
  rewrite Hn1, deref_live, Hmove, store_live.
  rewrite (construct_at_spec _ _ y ((Live <$> xs0) ++ [Live last']) raws);
    [|by rewrite <- app_assoc|rewrite length_app, <- Hn1; simpl; lia].
  rewrite after_nil, Nat.add_0_l.
  assert (((Live <$> xs0) ++ [Live last']) ++ Live y :: raws
          = (Live <$> xs0 ++ [last'; y]) ++ raws) as Hb1
    by (rewrite fmap_app, <- !app_assoc; reflexivity).
  rewrite Hb1, length_fmap, Hn, Hshift.
  pose proof (std_move_backward_shape
                ((Live <$> xs0 ++ [last'; y]) ++ raws) pos (length xs0) (S (length xs0)))
    as Hshape.
  rewrite Hshift in Hshape. destruct Hshape as [Hshape ->].
  assert (is_live <$> b2
          = replicate (S (length xs0)) true ++ true :: replicate (cap - length xs0 - 2) false)
    as Hb2.
  { rewrite Hshape. subst raws. rewrite shape_layout, length_app. simpl.
    replace (length xs0 + 2) with (S (length xs0) + 1) by lia.
    rewrite replicate_add, <- app_assoc. done. }
  assert (b2 !! S (length xs0) = Some (Live y)) as Hy'.
  { pose proof (std_move_backward_frame
                  ((Live <$> xs0 ++ [last'; y]) ++ raws) pos (length xs0) (S (length xs0))
                  (S (length xs0))) as Hframe.
    rewrite Hshift in Hframe. rewrite Hframe by lia.
    rewrite lookup_app_l by (rewrite length_fmap, length_app; simpl; lia).
    rewrite list_lookup_fmap, lookup_app_r by lia.
    by replace (S (length xs0) - length xs0) with 1 by lia. }
  unfold destroy_at. rewrite Hy'. cbn [app].
  eexists. split; [reflexivity|].
  split; [done|]. split; [done|].
  unfold invariant, with_block, with_buffer. cbn [data_ size_ capacity_ buffer_].
  split; [lia|].
  rewrite list_fmap_insert, Hb2. cbn [is_live].
  replace (S (length xs0)) with (length (replicate (S (length xs0)) true)) at 1
    by apply length_replicate.
  rewrite insert_app_r_alt, Nat.sub_diag by lia. cbn [insert list_insert].
  f_equal.
  rewrite (replicate_pos (cap - S (length xs0))) by lia. do 2 f_equal. lia.
Qed.

Lemma Resize_shrink n xs cap :
  length xs ≤ cap → n < length xs →
  Resize n (vector_of xs cap) = Ok (vector_of (take n xs) cap) (Destroyed <$> drop n xs).
Proof.
  intros Hle Hlt. unfold Resize, vector_of. cbn [data_ size_ capacity_ buffer_].
  apply Nat.ltb_lt in Hlt as Hlt'. rewrite Hlt'. clear Hlt'.
  rewrite (destroy_n_spec _ _ _ (Live <$> take n xs) (drop n xs)
             (replicate (cap - length xs) Raw));
    [|by rewrite app_assoc, <- fmap_app, take_drop
     |rewrite length_fmap, length_take; lia|rewrite length_drop; lia].
  cbn. rewrite app_nil_r, length_take, Nat.min_l by lia.
  unfold with_buffer. cbn. rewrite <- replicate_add.
  do 5 f_equal. lia.
Qed.

Lemma Resize_room n xs cap :
  length xs ≤ n → n ≤ cap →
  Resize n (vector_of xs cap)
  = match value_construct with
    | Some d => Ok (vector_of (xs ++ replicate (n - length xs) d) cap) []
    | None => if n - length xs =? 0 then Ok (vector_of xs cap) []
              else Throw (vector_of xs cap) []
    end.
Proof.
  intros Hge Hle. unfold Resize, Capacity, vector_of. cbn [data_ size_ capacity_ buffer_].
  assert ((n <? length xs) = false) as -> by (apply Nat.ltb_ge; lia).
  assert ((cap <? n) = false) as -> by (apply Nat.ltb_ge; lia).
  cbn [and_then after app data_ size_ capacity_ buffer_].
  rewrite (uninitialized_value_construct_n_layout _ _ _ (Live <$> xs)
             (replicate (cap - n) Raw));
    [|f_equal; rewrite <- replicate_add; f_equal; lia|by rewrite length_fmap].
  destruct value_construct as [d|].
  - cbn. unfold with_buffer. cbn.
    rewrite fmap_app, fmap_replicate, <- app_assoc, length_app, length_replicate.
    replace (length xs + (n - length xs)) with n by lia. done.
  - destruct (n - length xs =? 0) eqn:Hz; cbn; [|done].
    apply Nat.eqb_eq in Hz. do 2 f_equal. lia.
Qed.

Lemma Resize_grow n xs cap :
  length xs ≤ cap → cap < n →
  Resize n (vector_of xs cap)
  = if (relocation xs).2 then
      match value_construct with
      | Some d => Ok (vector_of ((relocation xs).1.1 ++ replicate (n - length xs) d) n)
                     (Destroyed <$> (relocation xs).1.2)
      | None => Throw (vector_of (relocation xs).1.1 n) (Destroyed <$> (relocation xs).1.2)
      end
    else Throw (vector_of (relocation xs).1.2 cap) (Destroyed <$> (relocation xs).1.1).
Proof.
  intros Hle Hlt. unfold Resize.
  assert ((n <? size_ (vector_of xs cap)) = false) as -> by (apply Nat.ltb_ge; simpl; lia).
  assert ((Capacity (vector_of xs cap) <? n) = true) as -> by (by apply Nat.ltb_lt).
  rewrite Reserve_grow by done.
  pose proof (relocation_ok_length xs) as Hok.
  destruct (relocation xs) as [[ys xs'] ok]. simpl in Hok. destruct ok; [|done].
  specialize (Hok eq_refl).
  unfold vector_of. cbn [and_then after app data_ size_ capacity_ buffer_ fst snd].
  rewrite (uninitialized_value_construct_n_layout _ _ _ (Live <$> ys) []);
    [|by rewrite app_nil_r, Hok|by rewrite length_fmap].
  destruct value_construct as [d|].
  - cbn. unfold with_buffer. cbn.
    rewrite !app_nil_r, fmap_app, fmap_replicate, length_app, length_replicate, Hok.
    replace (length xs + (n - length xs)) with n by lia.
    by rewrite Nat.sub_diag, app_nil_r.
  - assert ((n - length ys =? 0) = false) as -> by (apply Nat.eqb_neq; lia).
    cbn. by rewrite !app_nil_r.
Qed.

End VectorFacts.

(** ** Construction and [PopBack] *)
Section ConstructionFacts.
Context {T : Type} `{ElemType T}.
Implicit Types (v : Vector T) (xs ys : list T).

Lemma Vector_default_holds : holds (@Vector_default T) [].
Proof. done. Qed.

Lemma Vector_sized_layout n :
  Vector_sized n
  = match value_construct with
    | Some d => Ok (vector_of (replicate n d) n) []
    | None => if n =? 0 then Ok (vector_of [] 0) [] else Throw () []
    end.
Proof.
  unfold Vector_sized, RawMemory_sized. cbn [buffer_].
  rewrite (uninitialized_value_construct_n_layout _ _ _ [] []);
    [|by rewrite Allocate_replicate, app_nil_r|done].
  destruct value_construct as [d|].
  - unfold vector_of, with_buffer. cbn.
    by rewrite app_nil_r, length_replicate, Nat.sub_diag, fmap_replicate, app_nil_r.
  - destruct n as [|n]; [done|]. cbn [Nat.eqb].
    unfold RawMemory_destroy, with_buffer. cbn [buffer_ app].
    by rewrite Deallocate_Allocate.
Qed.

Lemma Vector_copy_layout xs cap :
  length xs ≤ cap →
  Vector_copy (vector_of xs cap)
  = if (copies xs).2 then Ok (vector_of (copies xs).1 (length xs)) []
    else Throw () (Destroyed <$> (copies xs).1).
Proof.
  intros Hle. unfold Vector_copy, RawMemory_sized, vector_of. cbn [buffer_ data_ size_].
  rewrite Allocate_replicate.
  rewrite (uninitialized_copy_n_layout _ _ _ _ _ xs [] (replicate (cap - length xs) Raw) [] []);
    [|done|done|done|by rewrite app_nil_r|done].
  pose proof (copies_ok_length xs) as Hok.
  destruct (copies xs) as [ys ok]. simpl in *. destruct ok.
  - unfold with_buffer. cbn. by rewrite Hok, Nat.sub_diag, !app_nil_r.
  - unfold RawMemory_destroy, with_buffer. cbn [buffer_].
    by rewrite Deallocate_raw, app_nil_r.
Qed.

Lemma PopBack_layout xs l cap :
  length (xs ++ [l]) ≤ cap →
  PopBack (vector_of (xs ++ [l]) cap) = Ok (vector_of xs cap) [Destroyed l].
Proof.
  intros Hle. rewrite length_app in Hle. simpl in Hle.
  unfold PopBack, vector_of. cbn [buffer_ data_ size_].
  rewrite length_app. simpl.
  assert ((length xs + 1 =? 0) = false) as -> by (apply Nat.eqb_neq; lia).
  rewrite (destroy_at_spec _ _ l (Live <$> xs) (replicate (cap - (length xs + 1)) Raw));
    [|by rewrite fmap_app, <- app_assoc|rewrite length_fmap; lia].
  unfold with_buffer. cbn.
  replace (length xs + 1 - 1) with (length xs) by lia.
  rewrite (replicate_pos (cap - length xs)) by lia.
  by rewrite <- Nat.sub_add_distr.
Qed.

Lemma PopBack_empty cap : PopBack (vector_of (@nil T) cap) = Undef.
Proof. done. Qed.

End ConstructionFacts.

(** ** The in-place paths on arbitrary element types *)
Section InPlaceFacts.
Context {T : Type} `{ElemType T}.
Implicit Types (v : Vector T) (xs ys : list T).

Lemma Emplace_middle_unfold x xs0 last cap pos :
  length xs0 + 1 < cap → pos ≤ length xs0 →
  Emplace pos (Some x) (vector_of (xs0 ++ [last]) cap)
  = match move_construct last with
    | None => Throw (vector_of (xs0 ++ [last]) cap) [Destroyed x]
    | Some (y, last') =>
      match std_move_backward
              ((Live <$> xs0 ++ [last'; y]) ++ replicate (cap - length xs0 - 2) Raw)
              pos (length xs0) (S (length xs0)) with
      | Ok b2 tr2 =>
        match deref b2 pos with
        | None => Undef
        | Some d =>
          match move_assign d x with
          | None =>
            Throw {| data_ := {| buffer_ := b2; capacity_ := cap |};
                     size_ := S (length xs0) |}
                  (tr2 ++ [Destroyed x])
          | Some (d', x') =>
            Ok ({| data_ := {| buffer_ := store b2 pos d'; capacity_ := cap |};
                   size_ := S (length xs0) + 1 |}, pos)
               (tr2 ++ [Destroyed x'])
          end
        end
      | Throw b2 tr2 =>
        match destroy_at b2 (S (length xs0)) with
        | None => Undef
        | Some (b3, tr3) =>
          Throw {| data_ := {| buffer_ := b3; capacity_ := cap |};
                   size_ := S (length xs0) |}
                (tr2 ++ tr3 ++ [Destroyed x])
        end
      | Undef => Undef
      end
    end.
Proof.
  intros Hcap Hpos.
  unfold Emplace, Capacity, vector_of, begin, end_. cbn [data_ size_ capacity_ buffer_].
  set (n := length (xs0 ++ [last])).
  assert (n = S (length xs0)) as Hn by (unfold n; rewrite length_app; simpl; lia).
  clearbody n.
  assert ((pos <=? n) = true) as -> by (apply Nat.leb_le; lia).
  assert ((cap <=? n) = false) as -> by (apply Nat.leb_gt; lia).
  rewrite Nat.sub_0_r.
  assert ((pos =? n) = false) as -> by (apply Nat.eqb_neq; lia).
  cbn [andb negb Nat.leb]. unfold RawMemory_at. cbn [data_ size_ capacity_ buffer_].
  assert ((n - 1 <? cap) = true) as -> by (apply Nat.ltb_lt; lia).
  set (raws := replicate (cap - length xs0 - 2) (@Raw T)) in *.
  assert ((Live <$> xs0 ++ [last]) ++ replicate (cap - n) Raw
          = (Live <$> xs0) ++ Live last :: Raw :: raws) as ->.
  { rewrite fmap_app, <- app_assoc. cbn [fmap list_fmap app]. do 2 f_equal.
    rewrite (replicate_pos (cap - n)) by lia. subst raws. do 2 f_equal. lia. }
  assert (n - 1 = length (Live <$> xs0)) as Hn1 by (rewrite length_fmap; lia).
  rewrite Hn1, deref_live. destruct (move_construct last) as [[y last']|]; [|by rewrite Hn].
  rewrite store_live.
  rewrite (construct_at_spec _ _ y ((Live <$> xs0) ++ [Live last']) raws);
    [|by rewrite <- app_assoc|rewrite length_app, <- Hn1; simpl; lia].
  rewrite after_nil, Nat.add_0_l.
  assert (((Live <$> xs0) ++ [Live last']) ++ Live y :: raws
          = (Live <$> xs0 ++ [last'; y]) ++ raws) as ->
    by (rewrite fmap_app, <- !app_assoc; reflexivity).
  rewrite length_fmap, Hn.
  destruct (std_move_backward _ _ _ _) as [b2 tr2|b2 tr2|]; [| |done].
  - destruct (deref b2 pos) as [d|]; [|done].
    by destruct (move_assign d x) as [[d' x']|].
  - by destruct (destroy_at b2 (S (length xs0))) as [[b3 tr3]|].
Qed.

Lemma shape_all_live xs0 (a b : T) n :
  is_live <$> ((Live <$> xs0 ++ [a; b]) ++ replicate n Raw)
  = replicate (S (S (length xs0))) true ++ replicate n false.
Proof.
  rewrite shape_layout, length_app. simpl.
  by replace (length xs0 + 2) with (S (S (length xs0))) by lia.
Qed.

(** What the in-place path can leave behind: a vector that satisfies the
    invariant, or, when it throws, possibly one with a live object in the slot
    just past its size. *)
Lemma Emplace_middle_outcome x xs0 last cap pos :
  length xs0 + 1 < cap → pos ≤ length xs0 →
  match Emplace pos (Some x) (vector_of (xs0 ++ [last]) cap) with
  | Ok (v', _) _ => invariant v'
  | Throw v' _ =>
    invariant v'
    ∨ (size_ v' = S (length xs0) ∧ (is_live <$> buffer_ (data_ v')) !! size_ v' = Some true)
  | Undef => True
  end.
Proof.
  intros Hcap Hpos. rewrite Emplace_middle_unfold by done.
  destruct (move_construct last) as [[y last']|] eqn:Hmove.
  2: { left. apply (holds_invariant _ (xs0 ++ [last])), vector_of_holds.
       rewrite length_app. simpl. lia. }
  pose proof (std_move_backward_shape
                ((Live <$> xs0 ++ [last'; y]) ++ replicate (cap - length xs0 - 2) Raw)
                pos (length xs0) (S (length xs0))) as Hshape.
  destruct (std_move_backward _ _ _ _) as [b2 tr2|b2 tr2|] eqn:Hshift; [| |done].
  - destruct Hshape as [Hshape ->]. rewrite shape_all_live in Hshape.
    destruct (deref b2 pos) as [d|] eqn:Hd; [|done].
    destruct (move_assign d x) as [[d' x']|].
    + split; cbn [data_ size_ capacity_ buffer_]; [lia|].
      rewrite store_shape by (by eapply deref_is_live). rewrite Hshape.
      do 2 f_equal; lia.
    + right. split; [done|]. cbn [data_ size_ capacity_ buffer_]. rewrite Hshape.
      rewrite lookup_app_l by (rewrite length_replicate; lia).
      apply lookup_replicate_2. lia.
  - destruct (Emplace_shift_throws x xs0 last y last' cap pos b2 tr2)
      as (v' & He & _ & _ & Hinv); [done..|].
    rewrite Emplace_middle_unfold, Hmove, Hshift in He by done.
    destruct (destroy_at b2 (S (length xs0))) as [[b3 tr3]|]; [|done].
    left. by injection He as <- _.
Qed.

Lemma Erase_outcome xs cap pos :
  length xs ≤ cap →
  match Erase pos (vector_of xs cap) with
  | Ok (v', _) _ | Throw v' _ => invariant v'
  | Undef => True
  end.
Proof.
  intros Hle. unfold Erase, Size, vector_of, begin, end_. cbn [data_ size_ capacity_ buffer_].
  destruct (pos <? 0 + length xs) eqn:Hpos; [|done]. cbn [andb negb Nat.leb].
  apply Nat.ltb_lt in Hpos.
  pose proof (std_move_shape ((Live <$> xs) ++ replicate (cap - length xs) Raw)
                (0 + (pos - 0) + 1) (length xs) (0 + (pos - 0))) as Hshape.
  destruct (std_move _ _ _ _) as [b tr|b tr|]; [| |done].
  - destruct Hshape as [Hshape ->]. rewrite shape_layout in Hshape.
    unfold destroy_at.
    destruct (b !! (length xs - 1)) as [[|z]|] eqn:Hz; [done| |done].
    unfold invariant, with_buffer. split; cbn [data_ size_ capacity_ buffer_]; [lia|].
    rewrite list_fmap_insert, Hshape. cbn [is_live].
    rewrite (replicate_split (length xs - 1) (length xs) true) by lia.
    replace (length xs - (length xs - 1)) with 1 by lia. rewrite <- app_assoc.
    replace (length xs - 1) with (length (replicate (length xs - 1) true)) at 1
      by apply length_replicate.
    rewrite insert_app_r_alt, Nat.sub_diag by lia. cbn [insert list_insert replicate app].
    f_equal.
    rewrite (replicate_pos (cap - (length xs - 1))) by lia. do 2 f_equal. lia.
  - destruct Hshape as [Hshape ->]. rewrite shape_layout in Hshape.
    unfold invariant, with_block, with_buffer.
    split; cbn [data_ size_ capacity_ buffer_]; [lia|done].
Qed.

Lemma block_of_shape (b : block T) n cap :
  n ≤ cap → is_live <$> b = replicate n true ++ replicate (cap - n) false →
  ∃ xs, length xs = n ∧ b = (Live <$> xs) ++ replicate (cap - n) Raw.
Proof.
  intros Hle Hshape.
  destruct (invariant_holds {| data_ := {| buffer_ := b; capacity_ := cap |}; size_ := n |})
    as (xs & Hs & _ & Hb); [done|].
  exists xs. by split.
Qed.

Lemma Vector_copy_assign_outcome xs cap ys rcap :
  length xs ≤ cap → length ys ≤ rcap →
  match Vector_copy_assign (vector_of xs cap) (vector_of ys rcap) with
  | Ok v' _ | Throw v' _ => invariant v'
  | Undef => True
  end.
Proof.
  intros Hle Hrle.
  unfold Vector_copy_assign, Capacity, vector_of. cbn [data_ size_ capacity_ buffer_].
  destruct (length ys <=? cap) eqn:Hfit.
  - apply Nat.leb_le in Hfit.
    set (src := (Live <$> ys) ++ replicate (rcap - length ys) Raw).
    set (buf := (Live <$> xs) ++ replicate (cap - length xs) Raw).
    destruct (length xs <=? length ys) eqn:Hgrow.
    + apply Nat.leb_le in Hgrow.
      pose proof (std_copy_shape src 0 (length xs) buf 0) as Hshape.
      destruct (std_copy _ _ _ _ _) as [b tr|b tr|]; [| |done].
      * destruct Hshape as [Hshape ->]. unfold buf in Hshape. rewrite shape_layout in Hshape.
        destruct (block_of_shape b (length xs) cap Hle Hshape) as (xs1 & Hl1 & ->).
        cbn [on_block and_then after with_block with_buffer data_ size_ capacity_ buffer_ app].
        rewrite (uninitialized_copy_n_layout _ _ _ _ _ (drop (length xs) ys)
                   (Live <$> take (length xs) ys) (replicate (rcap - length ys) Raw)
                   (Live <$> xs1) (replicate (cap - length ys) Raw));
          [|by unfold src; rewrite app_assoc, <- fmap_app, take_drop
           |rewrite length_fmap, length_take; lia|rewrite length_drop; lia
           |f_equal; rewrite <- replicate_add; f_equal; lia|by rewrite length_fmap].
        pose proof (copies_ok_length (drop (length xs) ys)) as Hok.
        destruct (copies (drop (length xs) ys)) as [zs ok]. simpl in Hok. destruct ok.
        -- cbn. apply (holds_invariant _ (xs1 ++ zs)).
           split; [|split]; cbn.
           ++ rewrite length_app, Hok, length_drop by done. lia.
           ++ lia.
           ++ by rewrite fmap_app, <- app_assoc.
        -- cbn. apply (holds_invariant _ xs1). by split.
      * destruct Hshape as [Hshape ->]. cbn. unfold buf in Hshape.
        rewrite shape_layout in Hshape. by split.
    + apply Nat.leb_gt in Hgrow.
      pose proof (std_copy_shape src 0 (length ys) buf 0) as Hshape.
      destruct (std_copy _ _ _ _ _) as [b tr|b tr|]; [| |done].
      * destruct Hshape as [Hshape ->]. unfold buf in Hshape. rewrite shape_layout in Hshape.
        destruct (block_of_shape b (length xs) cap Hle Hshape) as (xs1 & Hl1 & ->).
        cbn [on_block and_then after with_block with_buffer data_ size_ capacity_ buffer_ app].
        rewrite (destroy_n_spec _ _ _ (Live <$> take (length ys) xs1) (drop (length ys) xs1)
                   (replicate (cap - length xs) Raw));
          [|by rewrite app_assoc, <- fmap_app, take_drop
           |rewrite length_fmap, length_take; lia|rewrite length_drop; lia].
        cbn. apply (holds_invariant _ (take (length ys) xs1)).
        split; [|split]; cbn.
        -- rewrite length_take. lia.
        -- lia.
        -- f_equal. rewrite <- replicate_add. f_equal. lia.
      * destruct Hshape as [Hshape ->]. cbn. unfold buf in Hshape.
        rewrite shape_layout in Hshape. by split.
  - change ({| data_ := {| buffer_ := (Live <$> ys) ++ replicate (rcap - length ys) Raw;
                           capacity_ := rcap |};
               size_ := length ys |}) with (vector_of ys rcap).
    rewrite Vector_copy_layout by done.
    pose proof (copies_ok_length ys) as Hok.
    destruct (copies ys) as [zs ok]. simpl in Hok.
    destruct ok; [|by apply (holds_invariant _ xs), vector_of_holds].
    cbn [Swap RawMemory_Swap vector_of data_ size_ capacity_ buffer_].
    destruct (Vector_destroy _); [|done].
    apply (holds_invariant _ zs). split; [|split]; cbn; [done|lia|].
    by rewrite Hok.
Qed.

End InPlaceFacts.

(** ** Relocation *)
Section RelocationFacts.
Context {T : Type} `{ElemType T}.
Implicit Types (v : Vector T) (xs ys : list T).

Lemma moves_nothrow xs : nothrow_move_constructible = true → (moves xs).2 = true.
Proof.
  intros Hn. induction xs as [|x xs IH]; [done|]. simpl.
  destruct (nothrow_move_total Hn x) as [p ->].
  by destruct (moves xs).
Qed.

Lemma moves_total xs : (∀ x, is_Some (move_construct x)) → (moves xs).2 = true.
Proof.
  intros Ht. induction xs as [|x xs IH]; [done|]. simpl.
  destruct (Ht x) as [p ->]. by destruct (moves xs).
Qed.

Lemma copies_total xs : (∀ x, is_Some (copy_construct x)) → (copies xs).2 = true.
Proof.
  intros Ht. induction xs as [|x xs IH]; [done|]. simpl.
  destruct (Ht x) as [p ->]. by destruct (copies xs).
Qed.

Lemma relocation_total_ok xs : relocation_total → (relocation xs).2 = true.
Proof.
  intros [Hc Hm]. unfold relocation. destruct (_ || _).
  - pose proof (moves_total xs Hm). by destruct (moves xs).
  - pose proof (copies_total xs Hc). by destruct (copies xs).
Qed.

Lemma relocation_unchanged_source xs :
  nothrow_move_constructible || copy_constructible = true →
  (relocation xs).2 = false → (relocation xs).1.2 = xs.
Proof.
  unfold relocation.
  destruct nothrow_move_constructible eqn:Hn; simpl.
  - pose proof (moves_nothrow xs Hn). destruct (moves xs); simpl in *. congruence.
  - intros ->. simpl. by destruct (copies xs).
Qed.

Lemma relocation_copy_source xs :
  nothrow_move_constructible = false → copy_constructible = true →
  (relocation xs).1.2 = xs.
Proof. unfold relocation. intros -> ->. simpl. by destruct (copies xs). Qed.

Lemma relocation_nothrow_ok xs :
  nothrow_move_constructible = true → (relocation xs).2 = true.
Proof.
  intros Hn. pose proof (moves_nothrow xs Hn) as Hok.
  unfold relocation. rewrite Hn. simpl. by destruct (moves xs).
Qed.

Lemma moves_Forall2 xs :
  (moves xs).2 = true → Forall2 (λ x p, move_construct x = Some p) xs (moves xs).1.
Proof.
  induction xs as [|x xs IH]; simpl; [constructor|].
  destruct (move_construct x) as [p|] eqn:Hp; [|done].
  destruct (moves xs) as [ps ok]. simpl in *. intros ->. constructor; auto.
Qed.

Lemma copies_Forall2 xs :
  (copies xs).2 = true → Forall2 (λ x y, copy_construct x = Some y) xs (copies xs).1.
Proof.
  induction xs as [|x xs IH]; simpl; [constructor|].
  destruct (copy_construct x) as [y|] eqn:Hy; [|done].
  destruct (copies xs) as [ys ok]. simpl in *. intros ->. constructor; auto.
Qed.

Lemma moved_from_all (ps : list (T * T)) xs : length ps = length xs → moved_from ps xs = ps.*2.
Proof. intros Hl. unfold moved_from. by rewrite Hl, drop_all, app_nil_r. Qed.

Lemma relocation_by_move xs :
  nothrow_move_constructible || negb copy_constructible = true →
  (relocation xs).2 = true →
  ∃ ps, Forall2 (λ x p, move_construct x = Some p) xs ps
      ∧ (relocation xs).1.1 = ps.*1 ∧ (relocation xs).1.2 = ps.*2.
Proof.
  unfold relocation. intros ->.
  pose proof (moves_Forall2 xs) as Hf. pose proof (moves_ok_length xs) as Hl.
  destruct (moves xs) as [ps ok]. simpl in *. intros ->.
  exists ps. split; [auto|]. split; [done|]. apply moved_from_all; auto.
Qed.

Lemma relocation_by_copy xs :
  nothrow_move_constructible || negb copy_constructible = false →
  (relocation xs).2 = true →
  Forall2 (λ x y, copy_construct x = Some y) xs (relocation xs).1.1
  ∧ (relocation xs).1.2 = xs.
Proof.
  unfold relocation. intros ->.
  pose proof (copies_Forall2 xs) as Hf.
  destruct (copies xs) as [ys ok]. simpl in *. auto.
Qed.

Lemma relocation_value_preserving `{!ValuePreserving T} xs :
  (relocation xs).2 = true → (relocation xs).1.1 = xs.
Proof.
  intros Hok. destruct (nothrow_move_constructible || negb copy_constructible) eqn:Hc.
  - destruct (relocation_by_move xs Hc Hok) as (ps & Hf & -> & _).
    clear Hok. induction Hf as [|x [y x'] xs ps Hx _ IH]; [done|].
    rewrite fmap_cons. f_equal; [|exact IH]. by eapply move_construct_value.
  - destruct (relocation_by_copy xs Hc Hok) as [Hf _].
    clear Hok. induction Hf as [|x y xs ys Hx _ IH]; [done|].
    f_equal; [|exact IH]. by eapply copy_construct_value.
Qed.

End RelocationFacts.

(** * Where the invariant does hold *)
Section InvariantPreserved.
Context {T : Type} `{ElemType T}.
Implicit Types (v : Vector T) (xs ys : list T).

Lemma vector_of_invariant xs cap : length xs ≤ cap → invariant (vector_of xs cap).
Proof. intros Hle. by apply (holds_invariant _ xs), vector_of_holds. Qed.

Lemma Reserve_outcome n xs cap :
  length xs ≤ cap →
  match Reserve n (vector_of xs cap) with
  | Ok v' _ | Throw v' _ => invariant v'
  | Undef => True
  end.
Proof.
  intros Hle. destruct (decide (n ≤ cap)) as [Hn|Hn].
  - rewrite Reserve_noop by done. by apply vector_of_invariant.
  - rewrite Reserve_grow by lia.
    pose proof (relocation_ok_length xs) as Hok.
    pose proof (relocation_source_length xs) as Hsrc.
    destruct (relocation xs) as [[ys xs'] ok]. simpl in *.
    destruct ok; apply vector_of_invariant; [rewrite Hok by done|]; lia.
Qed.

Lemma Resize_outcome n xs cap :
  length xs ≤ cap →
  match Resize n (vector_of xs cap) with
  | Ok v' _ | Throw v' _ => invariant v'
  | Undef => True
  end.
Proof.
  intros Hle. destruct (decide (n < length xs)) as [Hlt|Hge].
  { rewrite Resize_shrink by done. apply vector_of_invariant. rewrite length_take. lia. }
  destruct (decide (n ≤ cap)) as [Hn|Hn].
  { rewrite Resize_room by lia. destruct value_construct as [d|].
    - apply vector_of_invariant. rewrite length_app, length_replicate. lia.
    - destruct (n - length xs =? 0); by apply vector_of_invariant. }
  rewrite Resize_grow by lia.
  pose proof (relocation_ok_length xs) as Hok.
  pose proof (relocation_source_length xs) as Hsrc.
  destruct (relocation xs) as [[ys xs'] ok]. simpl in *. destruct ok.
  - specialize (Hok eq_refl). destruct value_construct as [d|]; apply vector_of_invariant.
    + rewrite length_app, length_replicate. lia.
    + lia.
  - apply vector_of_invariant. lia.
Qed.

Lemma EmplaceBack_outcome args xs cap :
  length xs ≤ cap →
  match EmplaceBack args (vector_of xs cap) with
  | Ok (v', _) _ | Throw v' _ => invariant v'
  | Undef => True
  end.
Proof.
  intros Hle. destruct args as [x|].
  2: { destruct (EmplaceBack_ctor_throws (vector_of xs cap)) as [tr ->].
       by apply vector_of_invariant. }
  destruct (decide (cap ≤ length xs)) as [Hfull|Hroom].
  - rewrite EmplaceBack_grow by done.
    pose proof (relocation_ok_length xs) as Hok.
    pose proof (relocation_source_length xs) as Hsrc.
    destruct (relocation xs) as [[ys xs'] ok]. simpl in *.
    destruct ok; apply vector_of_invariant; [|lia].
    rewrite length_app, Hok by done. simpl. lia.
  - rewrite EmplaceBack_room by lia. apply vector_of_invariant.
    rewrite length_app. simpl. lia.
Qed.

Lemma Emplace_ctor_throws pos v :
  Emplace pos None v = Undef ∨ ∃ tr, Emplace pos None v = Throw v tr.
Proof.
  unfold Emplace. destruct (negb _); [by left|]. right.
  destruct (Capacity v <=? size_ v); [by eexists|].
  destruct (negb _); by eexists.
Qed.

Lemma Emplace_outcome pos args xs cap :
  length xs ≤ cap →
  match Emplace pos args (vector_of xs cap) with
  | Ok (v', _) _ => invariant v'
  | Throw v' _ =>
    invariant v'
    ∨ (pos < length xs ∧ length xs < cap ∧ size_ v' = length xs
       ∧ (is_live <$> buffer_ (data_ v')) !! size_ v' = Some true)
  | Undef => True
  end.
Proof.
  intros Hle. destruct args as [x|].
  2: { destruct (Emplace_ctor_throws pos (vector_of xs cap)) as [->|[tr ->]]; [done|].
       left. by apply vector_of_invariant. }
  destruct (decide (pos ≤ length xs)) as [Hpos|Hpos].
  2: { unfold Emplace, begin, end_. cbn [vector_of size_].
       assert ((pos <=? length xs) = false) as -> by (apply Nat.leb_gt; lia). done. }
  assert (length (take pos xs) = pos) as Htake by (rewrite length_take; lia).
  destruct (decide (cap ≤ length xs)) as [Hfull|Hroom].
  - pose proof (Emplace_grow x (take pos xs) (drop pos xs) cap) as Hg.
    rewrite take_drop, Htake in Hg. rewrite Hg by lia.
    pose proof (relocation_ok_length (take pos xs)) as Hok1.
    pose proof (relocation_source_length (take pos xs)) as Hsrc1.
    pose proof (relocation_ok_length (drop pos xs)) as Hok2.
    pose proof (relocation_source_length (drop pos xs)) as Hsrc2.
    assert (length (take pos xs) + length (drop pos xs) = length xs) as Hsum
      by (rewrite <- length_app, take_drop; done).
    destruct (relocation (take pos xs)) as [[ys1 xs1'] ok1].
    destruct (relocation (drop pos xs)) as [[ys2 xs2'] ok2]. simpl in *.
    destruct ok1; [|done]. destruct ok2; [|left]; apply vector_of_invariant.
    + rewrite length_app. simpl. rewrite Hok1, Hok2 by done. lia.
    + rewrite length_app. lia.
  - destruct (decide (pos = length xs)) as [->|Hne].
    { rewrite Emplace_end by lia. apply vector_of_invariant.
      rewrite length_app. simpl. lia. }
    destruct xs as [|last xs0 _] using rev_ind; [simpl in *; lia|].
    rewrite length_app in *. simpl in *.
    pose proof (Emplace_middle_outcome x xs0 last cap pos) as Hm.
    destruct (Emplace _ _ _) as [[v' r] tr|v' tr|]; [apply Hm; lia| |done].
    destruct Hm as [Hm|[Hs Hl]]; [lia|lia|by left|]. right.
    repeat split; [lia|lia|lia|done].
Qed.

(** Every public member function that returns leaves a vector that satisfies
    the invariant.  So does every one that throws, with one exception: the
    in-place path of [Emplace] and [Insert] may throw leaving a live object in
    the slot just past the size. *)
Theorem call_outcome m v :
  invariant v →
  match call m v with
  | Ok v' _ => invariant v'
  | Throw v' _ =>
    invariant v'
    ∨ (Size v < Capacity v ∧ Size v' = Size v
       ∧ (is_live <$> buffer_ (data_ v')) !! Size v' = Some true
       ∧ ∃ pos args, pos < Size v ∧ call m v = state_of (Emplace pos args v))
  | Undef => True
  end.
Proof.
  intros (xs & Hv)%invariant_holds.
  pose proof (holds_capacity _ _ Hv) as Hcap.
  apply holds_vector_of in Hv. set (cap := Capacity v) in *. clearbody cap. subst v.
  assert (∀ pos args,
            match state_of (Emplace pos args (vector_of xs cap)) with
            | Ok v' _ => invariant v'
            | Throw v' _ =>
              invariant v'
              ∨ (Size (vector_of xs cap) < Capacity (vector_of xs cap)
                 ∧ Size v' = Size (vector_of xs cap)
                 ∧ (is_live <$> buffer_ (data_ v')) !! Size v' = Some true
                 ∧ ∃ pos' args', pos' < Size (vector_of xs cap)
                     ∧ state_of (Emplace pos args (vector_of xs cap))
                       = state_of (Emplace pos' args' (vector_of xs cap)))
            | Undef => True
            end) as Hemplace.
  { intros pos args. pose proof (Emplace_outcome pos args xs cap Hcap) as Ho.
    destruct (Emplace pos args (vector_of xs cap)) as [[v' r] tr|v' tr|] eqn:He;
      cbn [state_of]; [done| |done].
    destruct Ho as [Ho|(Hp & Hc & Hs & Hl)]; [by left|right].
    split; [done|]. split; [done|]. split; [done|].
    exists pos, args. by rewrite He. }
  destruct m as [n|n|x|x| |args|pos args|pos x|pos x|pos]; cbn [call].
  - pose proof (Reserve_outcome n xs cap Hcap) as Ho.
    destruct (Reserve _ _); [done|by left|done].
  - pose proof (Resize_outcome n xs cap Hcap) as Ho.
    destruct (Resize _ _); [done|by left|done].
  - pose proof (EmplaceBack_outcome (copy_construct x) xs cap Hcap) as Ho.
    unfold PushBack. destruct (EmplaceBack _ _) as [[v' r] tr|v' tr|]; [done|by left|done].
  - pose proof (EmplaceBack_outcome (fst <$> move_construct x) xs cap Hcap) as Ho.
    unfold PushBack_rvalue.
    destruct (EmplaceBack _ _) as [[v' r] tr|v' tr|]; [done|by left|done].
  - destruct xs as [|l xs _] using rev_ind; [done|].
    rewrite PopBack_layout by done. apply vector_of_invariant.
    rewrite length_app in Hcap. lia.
  - pose proof (EmplaceBack_outcome args xs cap Hcap) as Ho.
    destruct (EmplaceBack _ _) as [[v' r] tr|v' tr|]; cbn [state_of]; [done|by left|done].
  - apply Hemplace.
  - apply Hemplace.
  - apply Hemplace.
  - pose proof (Erase_outcome xs cap pos Hcap) as Ho.
    destruct (Erase _ _) as [[v' r] tr|v' tr|]; cbn [state_of]; [done|by left|done].
Qed.

(** If no operation has thrown, the invariant holds. *)
Theorem returned_invariant v : reachable_with false v → invariant v.
Proof.
  induction 1 as [|n v tr Hs|u v tr _ IHu Hc|u _ IHu|u _ IHu
                  |u w v tr _ IHu _ IHw Ha| |u w _ IHu _ IHw
                  |m u v tr _ IHu Hm|]; [| | | | | |done| | |done].
  - exact (holds_invariant _ _ Vector_default_holds).
  - rewrite Vector_sized_layout in Hs. destruct value_construct as [d|].
    + injection Hs as <- _. apply vector_of_invariant. by rewrite length_replicate.
    + destruct (n =? 0); [|done]. injection Hs as <- _. by apply vector_of_invariant.
  - apply invariant_holds in IHu as (xs & Hu).
    pose proof (holds_capacity _ _ Hu) as Hcap.
    rewrite (holds_vector_of _ _ Hu), Vector_copy_layout in Hc by done.
    pose proof (copies_ok_length xs) as Hok.
    destruct (copies xs) as [ys ok]. simpl in *. destruct ok; [|done].
    injection Hc as <- _. apply vector_of_invariant. by rewrite Hok.
  - by destruct u as [[b c] s].
  - by destruct u as [[b c] s].
  - apply invariant_holds in IHu as (xs & Hu). apply invariant_holds in IHw as (ys & Hw).
    pose proof (holds_capacity _ _ Hu) as Hcap. pose proof (holds_capacity _ _ Hw) as Hrcap.
    pose proof (Vector_copy_assign_outcome xs (Capacity u) ys (Capacity w) Hcap Hrcap) as Ho.
    rewrite <- (holds_vector_of _ _ Hu), <- (holds_vector_of _ _ Hw), Ha in Ho. done.
  - by destruct u as [[b c] s], w as [[b' c'] s'].
  - pose proof (call_outcome m u IHu) as Ho. by rewrite Hm in Ho.
Qed.

End InvariantPreserved.

(** * The growing operations when relocation throws *)
Section GrowthFailure.
Context {T : Type} `{ElemType T}.
Implicit Types (v : Vector T) (xs : list T).


(** The same for [Emplace], as far as it goes: when the elements in front of
    the position were relocated and relocating the ones behind it throws, the
    handler destroys exactly what the new block holds, and the vector is left
    as after a failed [EmplaceBack].  A throw while the elements in front are
    being relocated is another matter, see [Emplace_grow]. *)
Lemma Emplace_suffix_relocation_throw v xs1 xs2 x v' tr :
  holds v (xs1 ++ xs2) → Capacity v ≤ Size v →
  (relocation xs1).2 = true →
  Emplace (length xs1) (Some x) v = Throw v' tr →
  Size v' = Size v ∧ Capacity v' = Capacity v ∧ invariant v' ∧
  tr = Destroyed <$> (relocation xs2).1.1 ++ (relocation xs1).1.1 ++ [x] ∧
  (nothrow_move_constructible || copy_constructible = true → v' = v).
Proof.
  intros Hv Hfull Hok1 Hthrow.
  pose proof (holds_capacity _ _ Hv) as Hcap.
  pose proof (holds_size _ _ Hv) as Hsize.
  rewrite (holds_vector_of _ _ Hv) in Hthrow |- *.
  rewrite Emplace_grow, Hok1 in Hthrow by lia.
  pose proof (relocation_source_length xs1) as Hsrc1.
  pose proof (relocation_source_length xs2) as Hsrc2.
  pose proof (relocation_copy_source xs1) as Hsame1.
  pose proof (relocation_copy_source xs2) as Hsame2.
  pose proof (relocation_nothrow_ok xs2) as Hnt.
  destruct (relocation xs1) as [[ys1 xs1'] ok1].
  destruct (relocation xs2) as [[ys2 xs2'] ok2]. simpl in *.
  destruct ok2; [done|]. injection Hthrow as <- <-.
  assert (length (xs1' ++ xs2') = length (xs1 ++ xs2)) as Hlen
    by (rewrite !length_app; lia).
  split; [by unfold Size; simpl|]. split; [done|].
  split; [apply (holds_invariant _ (xs1' ++ xs2')), vector_of_holds; lia|].
  split; [done|].
  destruct nothrow_move_constructible; simpl; [by specialize (Hnt eq_refl)|].
  intros Hc. by rewrite Hsame1, Hsame2.
Qed.

End GrowthFailure.



(** C2 at its failing input.  A full vector of copyable [Fragile] objects
    whose first element cannot be copied is reachable, and inserting in front
    of its second element runs into undefined behaviour: relocating the
    prefix throws before anything of it was built, and the handler destroys
    the raw slot 0 of the new block. *)
Theorem Emplace_prefix_throw_undefined :
  reachable (H := Fragile true) fragile_full'
  ∧ Capacity fragile_full' ≤ Size fragile_full'
  ∧ Emplace (H := Fragile true) 1 (Some 7) fragile_full' = Undef
  ∧ uninitialized_copy_n (H := Fragile true) (buffer_ (data_ fragile_full')) 0 1
      [Raw; Live 7; Raw; Raw] 0 = Throw [Raw; Live 7; Raw; Raw] []
  ∧ destroy_n [Raw; Live 7; Raw; Raw] 0 (1 + 1) = None.
Proof.
  split; [|split; [unfold fragile_full', Capacity, Size; simpl; lia|done]].
  assert (reachable (H := Fragile true) (vector_of [] 2)) as H0.
  { apply (reachable_return true (call_Reserve 2) Vector_default _ []); [constructor|done]. }
  assert (reachable (H := Fragile true) (vector_of [13] 2)) as H1.
  { by apply (reachable_return true (call_EmplaceBack (Some 13)) _ _ [] H0). }
  by apply (reachable_return true (call_EmplaceBack (Some 5)) _ _ [] H1).
Qed.

(** * Moving a vector *)

(** C3, as the code has it.  The move constructor leaves its source empty,
    with capacity 0, and the new vector is what the source was.  Move
    assignment exchanges the two vectors: the source ends up with the size,
    the capacity and the elements the target had. *)
Theorem move_source_state {T : Type} (a b : Vector T) :
  (Size (Vector_move a).1.2 = 0 ∧ Capacity (Vector_move a).1.2 = 0
   ∧ (Vector_move a).1.1 = a ∧ (Vector_move a).2 = [])
  ∧ Vector_move_assign b a = (a, b).
Proof. by destruct a as [[]], b as [[]]. Qed.

(** C3 as stated fails for move assignment into a vector that is not empty. *)
Lemma move_assign_source_not_empty :
  Size (Vector_move_assign (vector_of [1%Z] 1) (vector_of [2%Z; 3%Z] 2)).2 = 1
  ∧ Capacity (Vector_move_assign (vector_of [1%Z] 1) (vector_of [2%Z; 3%Z] 2)).2 = 1.
Proof. done. Qed.

(** * The class invariant *)

(** C4 at its failing input.  With [Fragile] elements, reserve three slots,
    push 1 and 5, and emplace at the front an object whose move assignment
    throws.  The in-place path has by then built a third object past the end;
    the final assignment is outside the [try] block, so the exception leaves
    [size_] at 2 with slot 2 alive. *)
Theorem invariant_broken_after_throw :
  ∃ v tr, reachable (H := Fragile true) fragile_room'
        ∧ invariant fragile_room'
        ∧ Emplace (H := Fragile true) 0 (Some 13) fragile_room' = Throw v tr
        ∧ reachable (H := Fragile true) v
        ∧ Size v = 2 ∧ buffer_ (data_ v) !! 2 = Some (Live 5)
        ∧ ¬ invariant v.
Proof.
  assert (reachable (H := Fragile true) (vector_of [] 3)) as H0.
  { apply (reachable_return true (call_Reserve 3) Vector_default _ []); [constructor|done]. }
  assert (reachable (H := Fragile true) (vector_of [1] 3)) as H1.
  { by apply (reachable_return true (call_PushBack 1) _ _ [] H0). }
  assert (reachable (H := Fragile true) fragile_room') as H2.
  { by apply (reachable_return true (call_PushBack 5) _ _ [] H1). }
  eexists _, _. split; [exact H2|].
  split; [by split; [unfold fragile_room'; simpl; lia|]|].
  split; [reflexivity|].
  split; [by eapply (reachable_throw true (call_Emplace 0 (Some 13)) _ _ _ eq_refl H2)|].
  split; [done|]. split; [done|].
  intros [_ Hshape]. discriminate Hshape.
Qed.

(** * Growth *)
Section Growth.
Context {T : Type} `{ElemType T}.
Implicit Types (v : Vector T) (xs : list T).

Lemma EmplaceBack_capacity args v v' r tr :
  Capacity v ≤ Size v → EmplaceBack args v = Ok (v', r) tr →
  Capacity v' = 1 `max` (2 * Size v).
Proof.
  intros Hfull%Nat.leb_le. unfold EmplaceBack, Size in *. rewrite Hfull, growth_max.
  unfold after, RawMemory_Swap, with_buffer, RawMemory_sized, Capacity.
  intros Hok. repeat case_match; simplify_eq; done.
Qed.

Lemma Emplace_capacity pos args v v' r tr :
  Capacity v ≤ Size v → Emplace pos args v = Ok (v', r) tr →
  Capacity v' = 1 `max` (2 * Size v).
Proof.
  intros Hfull%Nat.leb_le. unfold Emplace, Size in *. rewrite Hfull, growth_max.
  unfold after, RawMemory_Swap, with_buffer, RawMemory_sized, Capacity.
  intros Hok. repeat case_match; simplify_eq; done.
Qed.


End Growth.

Lemma IntElem_regular : Regular Z (H := IntElem).
Proof. split; intros; simpl; eauto. Qed.


(** * Capacity management *)
Section Capacity.
Context {T : Type} `{ElemType T}.
Implicit Types (v : Vector T) (xs ys : list T).




End Capacity.

(** * Positional insertion and removal *)
Section Positional.
Context {T : Type} `{ElemType T}.
Implicit Types (v : Vector T) (xs ys : list T).

(** On regular elements [Emplace] returns on all three of its paths. *)
Lemma Emplace_regular `{!Regular T} v xs i x :
  holds v xs → i ≤ Size v →
  ∃ cap tr, Emplace i (Some x) v = Ok (vector_of (take i xs ++ x :: drop i xs) cap, i) tr
          ∧ length xs < cap.
Proof.
  intros Hv Hi.
  pose proof (holds_capacity _ _ Hv) as Hcap.
  pose proof (holds_size _ _ Hv) as Hsize. rewrite Hsize in Hi.
  apply holds_vector_of in Hv. set (cap := Capacity v) in *. clearbody cap. subst v.
  assert (length (take i xs) = i) as Hti by (rewrite length_take; lia).
  destruct (decide (cap ≤ length xs)) as [Hfull|Hroom].
  - pose proof (Emplace_grow x (take i xs) (drop i xs) cap) as Hg.
    rewrite take_drop, Hti in Hg. rewrite Hg by lia.
    destruct (relocation_regular (take i xs)) as [-> ->].
    destruct (relocation_regular (drop i xs)) as [-> ->].
    eexists _, _. split; [reflexivity|]. lia.
  - destruct (decide (i = length xs)) as [->|Hne].
    + rewrite Emplace_end by lia. rewrite take_ge, drop_ge by lia.
      eexists _, _. split; [reflexivity|]. lia.
    + destruct (drop i xs) as [|d ds _] eqn:Hd using rev_ind.
      { apply (f_equal length) in Hd. rewrite length_drop in Hd. simpl in Hd. lia. }
      pose proof (Emplace_middle_regular x (take i xs) ds d cap) as Hm.
      rewrite <- Hd, take_drop, Hti in Hm.
      destruct Hm as [tr Hm]; [lia|].
      exists cap, tr. split; [|lia]. by rewrite Hm, Hd.
Qed.


(** C9, as the code has it.  On the in-place path of [Emplace] (room left,
    position before the end), once the last element has been moved into the
    slot past the end: if the backward shift throws, the handler destroys that
    slot again.  The exception leaves a vector of the same size and capacity
    that satisfies its invariant, so no slot beyond the size holds an object;
    the object in the tail slot and the temporary were destroyed once each
    and nothing leaked.  The values of the elements are not restored. *)
Theorem Emplace_shift_throw v xs0 last pos x y last' b2 tr2 :
  holds v (xs0 ++ [last]) → Size v < Capacity v → pos < Size v →
  move_construct last = Some (y, last') →
  std_move_backward
    ((Live <$> xs0 ++ [last'; y]) ++ replicate (Capacity v - Size v - 1) Raw)
    pos (Size v - 1) (Size v) = Throw b2 tr2 →
  ∃ v', Emplace pos (Some x) v = Throw v' [Destroyed y; Destroyed x]
      ∧ Size v' = Size v ∧ Capacity v' = Capacity v ∧ invariant v'
      ∧ buffer_ (data_ v') !! Size v' = Some Raw.
Proof.
  intros Hv Hroom Hpos Hmove Hshift.
  pose proof (holds_size _ _ Hv) as Hsize.
  rewrite length_app in Hsize. simpl in Hsize. rewrite Hsize in *.
  apply holds_vector_of in Hv. set (cap := Capacity v) in *. clearbody cap. subst v.
  replace (length xs0 + 1 - 1) with (length xs0) in Hshift by lia.
  replace (length xs0 + 1) with (S (length xs0)) in Hshift by lia.
  replace (cap - S (length xs0) - 1) with (cap - length xs0 - 2) in Hshift by lia.
  destruct (Emplace_shift_throws x xs0 last y last' cap pos b2 tr2)
    as (v' & He & Hs & Hc & Hinv); [lia|lia|done|done|].
  exists v'. split; [done|]. split; [unfold Size in *; lia|]. split; [done|].
  split; [done|].
  destruct Hinv as [Hle Hshape]. unfold Size, Capacity in *.
  rewrite Hs, Hc in Hshape.
  assert ((is_live <$> buffer_ (data_ v')) !! size_ v' = Some false) as Hraw.
  { rewrite Hshape, Hs.
    replace (S (length xs0)) with (length (replicate (S (length xs0)) true)) at 1
      by apply length_replicate.
    rewrite lookup_app_r, Nat.sub_diag by lia.
    rewrite (replicate_pos (cap - S (length xs0))) by lia. done. }
  rewrite list_lookup_fmap in Hraw.
  by destruct (buffer_ (data_ v') !! size_ v') as [[|?]|].
Qed.

End Positional.

(** * Instances *)

Lemma holds_vector_of_example {T : Type} (xs : list T) cap :
  (length xs <=? cap) = true → holds (vector_of xs cap) xs.
Proof. intros Hle%Nat.leb_le. by apply vector_of_holds. Qed.

(** [holds] on a concrete vector, by evaluation. *)
Ltac holds_by_evaluation :=
  unfold holds; split; [reflexivity|split; [simpl; lia|reflexivity]].





(** Witness for C9: shifting [13, 5] to make room at the front throws on the
    move assignment from 13. *)
Lemma Emplace_shift_throw_witness :
  ∃ v', Emplace (H := Fragile true) 0 (Some 7) fragile_room
        = Throw v' [Destroyed 5; Destroyed 7]
      ∧ Size v' = Size fragile_room ∧ Capacity v' = Capacity fragile_room
      ∧ invariant v' ∧ buffer_ (data_ v') !! Size v' = Some Raw.
Proof.
  apply (Emplace_shift_throw (H := Fragile true) fragile_room [13] 5 0 7 5 0
           [Live 13; Live 0; Live 5] []).
  - holds_by_evaluation.
  - unfold fragile_room, Size, Capacity. simpl. lia.
  - unfold fragile_room, Size. simpl. lia.
  - reflexivity.
  - reflexivity.
Defined.

(** C9 as stated fails: after the shift has thrown, the slot past the end,
    built just before, is raw again, and so no slot beyond the size holds an
    object. *)
Lemma Emplace_shift_throw_no_extra_slot :
  reachable (H := Fragile true) fragile_room
  ∧ Size fragile_room < Capacity fragile_room
  ∧ std_move_backward (H := Fragile true) [Live 13; Live 0; Live 5] 0 1 2
    = Throw [Live 13; Live 0; Live 5] []
  ∧ ∃ v' tr, Emplace (H := Fragile true) 0 (Some 7) fragile_room = Throw v' tr
           ∧ drop (Size v') (buffer_ (data_ v')) = [Raw].
Proof.
  split; [|split; [unfold fragile_room, Size, Capacity; simpl; lia|]].
  - assert (reachable (H := Fragile true) (vector_of [] 3)) as H0.
    { apply (reachable_return true (call_Reserve 3) Vector_default _ []); [constructor|done]. }
    assert (reachable (H := Fragile true) (vector_of [13] 3)) as H1.
    { by apply (reachable_return true (call_EmplaceBack (Some 13)) _ _ [] H0). }
    by apply (reachable_return true (call_EmplaceBack (Some 5)) _ _ [] H1).
  - split; [reflexivity|]. eexists _, _. split; reflexivity.
Qed.

(** The walk-through of the specification on integers: push 1, 2, 3; insert
    10 at position 1; erase position 0; resize to 5; resize to 2. *)
Example int_scenario :
  ∃ v1 v2 v3 v4 v5 v6 v7 tr1 tr2 tr3 tr4 tr5 tr6 tr7,
    PushBack (H := IntElem) 1%Z Vector_default = Ok v1 tr1
    ∧ PushBack (H := IntElem) 2%Z v1 = Ok v2 tr2
    ∧ PushBack (H := IntElem) 3%Z v2 = Ok v3 tr3
    ∧ holds v3 [1; 2; 3]%Z ∧ Size v3 = 3
    ∧ Insert (H := IntElem) 1 10%Z v3 = Ok (v4, 1) tr4 ∧ holds v4 [1; 10; 2; 3]%Z
    ∧ Erase (H := IntElem) 0 v4 = Ok (v5, 0) tr5 ∧ holds v5 [10; 2; 3]%Z
    ∧ Resize (H := IntElem) 5 v5 = Ok v6 tr6 ∧ holds v6 [10; 2; 3; 0; 0]%Z
    ∧ Resize (H := IntElem) 2 v6 = Ok v7 tr7 ∧ holds v7 [10; 2]%Z.
Proof.
  exists (vector_of [1]%Z 1), (vector_of [1; 2]%Z 2), (vector_of [1; 2; 3]%Z 4),
    (vector_of [1; 10; 2; 3]%Z 4), (vector_of [10; 2; 3]%Z 4),
    (vector_of [10; 2; 3; 0; 0]%Z 5), (vector_of [10; 2]%Z 5).
  eexists _, _, _, _, _, _, _.
  repeat (split; [first [reflexivity | by apply holds_vector_of_example]|]).
  by apply holds_vector_of_example.
Qed.

(** * Further properties of the two classes *)

(** ** The assigning algorithms: where they are defined, and on regular
    element types *)
Section AssignFacts.
Context {T : Type} `{ElemType T}.

Lemma live_deref (b : block T) i :
  (is_live <$> b) !! i = Some true → ∃ x, deref b i = Some x.
Proof.
  intros [x Hx]%is_live_lookup. exists x. unfold deref. by rewrite Hx.
Qed.

Lemma copy_loop_defined (src dst : block T) first n d_first :
  (∀ i, i < first + n → (is_live <$> src) !! i = Some true) →
  (∀ i, i < d_first + n → (is_live <$> dst) !! i = Some true) →
  copy_loop src first n dst d_first ≠ Undef.
Proof.
  revert first dst d_first.
  induction n as [|n IH]; intros first dst d_first Hsrc Hdst; simpl; [done|].
  destruct (live_deref src first) as [x ->]; [apply Hsrc; lia|].
  destruct (live_deref dst d_first) as [d Hd]; [apply Hdst; lia|]. rewrite Hd.
  destruct (copy_assign d x) as [d'|]; [|done].
  apply IH.
  - intros i Hi. apply Hsrc. lia.
  - intros i Hi. rewrite store_shape by (by eapply deref_is_live). apply Hdst. lia.
Qed.

Lemma move_loop_defined (b : block T) first n d_first :
  d_first ≤ first →
  (∀ i, i < first + n → (is_live <$> b) !! i = Some true) →
  move_loop b first n d_first ≠ Undef.
Proof.
  revert b first d_first.
  induction n as [|n IH]; intros b first d_first Hd Hlive; simpl; [done|].
  destruct (live_deref b first) as [x Hx]; [apply Hlive; lia|].
  destruct (live_deref b d_first) as [d Hdd]; [apply Hlive; lia|].
  rewrite Hx, Hdd.
  destruct (move_assign d x) as [[d' x']|]; [|done].
  apply IH; [lia|]. intros i Hi.
  rewrite (store_store_shape b first d_first x d) by done. apply Hlive. lia.
Qed.

Lemma move_backward_loop_defined (b : block T) n last d_last :
  n ≤ last → last ≤ d_last →
  (∀ i, i < d_last → (is_live <$> b) !! i = Some true) →
  move_backward_loop b n last d_last ≠ Undef.
Proof.
  revert b last d_last.
  induction n as [|n IH]; intros b last d_last Hn Hl Hlive; simpl; [done|].
  destruct last as [|last]; [lia|]. destruct d_last as [|d_last]; [lia|].
  destruct (live_deref b last) as [x Hx]; [apply Hlive; lia|].
  destruct (live_deref b d_last) as [d Hdd]; [apply Hlive; lia|].
  rewrite Hx, Hdd.
  destruct (move_assign d x) as [[d' x']|]; [|done].
  apply IH; [lia|lia|]. intros i Hi.
  rewrite (store_store_shape b last d_last x d) by done. apply Hlive. lia.
Qed.

Lemma copies_regular `{!Regular T} xs : copies xs = (xs, true).
Proof.
  induction xs as [|x xs IH]; [done|].
  simpl. by rewrite copy_construct_regular, IH.
Qed.

Lemma copy_loop_regular `{!Regular T} spre xs spost dpre ds dpost :
  length ds = length xs →
  copy_loop (spre ++ (Live <$> xs) ++ spost) (length spre) (length xs)
    (dpre ++ (Live <$> ds) ++ dpost) (length dpre)
  = Ok (dpre ++ (Live <$> xs) ++ dpost) [].
Proof.
  revert spre dpre ds. induction xs as [|x xs IH]; intros spre dpre ds Hl.
  { by destruct ds. }
  destruct ds as [|d ds]; [done|]. injection Hl as Hl.
  cbn [fmap list_fmap length copy_loop app].
  rewrite !deref_live, copy_assign_regular, store_live.
  specialize (IH (spre ++ [Live x]) (dpre ++ [Live x]) ds Hl).
  rewrite !length_app, !Nat.add_1_r, <- !app_assoc in IH. exact IH.
Qed.

End AssignFacts.

(** ** Calls on arbitrary element types *)
Section GeneralFacts.
Context {T : Type} `{ElemType T}.
Implicit Types (v : Vector T) (xs : list T).

Lemma leak_free_nil : leak_free (@nil (event T)).
Proof. intros y Hy. by apply elem_of_nil in Hy. Qed.

Lemma leak_free_destroyed xs : leak_free (Destroyed <$> xs).
Proof. intros y Hy. apply list_elem_of_fmap in Hy as (x & Hx & _). done. Qed.

Lemma EmplaceBack_None v : EmplaceBack None v = Throw v [].
Proof.
  unfold EmplaceBack. destruct (Capacity v <=? size_ v); [|done].
  unfold RawMemory_destroy, RawMemory_sized. cbn [buffer_].
  by rewrite Deallocate_Allocate.
Qed.

Lemma Emplace_None pos v : pos ≤ Size v → Emplace pos None v = Throw v [].
Proof.
  intros Hpos. unfold Emplace, begin, end_.
  assert ((pos <=? size_ v) = true) as -> by (by apply Nat.leb_le).
  cbn [andb negb Nat.leb].
  destruct (Capacity v <=? size_ v).
  - unfold RawMemory_destroy, RawMemory_sized. cbn [buffer_].
    by rewrite Deallocate_Allocate.
  - by destruct (negb (pos =? size_ v)).
Qed.

Lemma Emplace_out_of_range pos args v : Size v < pos → Emplace pos args v = Undef.
Proof.
  intros Hpos. unfold Emplace, begin, end_.
  assert ((pos <=? size_ v) = false) as -> by (apply Nat.leb_gt; exact Hpos).
  by rewrite andb_false_r.
Qed.

Lemma Erase_out_of_range pos v : Size v ≤ pos → Erase pos v = Undef.
Proof.
  intros Hpos. unfold Erase, begin.
  assert ((pos <? 0 + Size v) = false) as -> by (apply Nat.ltb_ge; lia).
  by rewrite andb_false_r.
Qed.

Lemma move_loop_frame (b : block T) first n d_first i :
  i < d_first → d_first ≤ first →
  match move_loop b first n d_first with
  | Ok b' _ | Throw b' _ => b' !! i = b !! i
  | Undef => True
  end.
Proof.
  revert b first d_first. induction n as [|n IH]; intros b first d_first Hi Hd; simpl; [done|].
  destruct (deref b first) as [x|]; [|done].
  destruct (deref b d_first) as [d|]; [|done].
  destruct (move_assign d x) as [[d' x']|]; [|done].
  specialize (IH (store (store b first x') d_first d') (S first) (S d_first)).
  destruct (move_loop _ _ _ _); [| |done];
    (rewrite IH by lia; unfold store; rewrite !list_lookup_insert_ne by lia; done).
Qed.

(** [std::move_backward] leaves everything in front of the range alone. *)
Lemma move_backward_loop_frame_front (b : block T) n last d_last i :
  n ≤ last → last ≤ d_last → i + n < last →
  match move_backward_loop b n last d_last with
  | Ok b' _ | Throw b' _ => b' !! i = b !! i
  | Undef => True
  end.
Proof.
  revert b last d_last.
  induction n as [|n IH]; intros b last d_last Hn Hl Hi; simpl; [done|].
  destruct last as [|last]; [done|]. destruct d_last as [|d_last]; [done|].
  destruct (deref b last) as [x|]; [|done].
  destruct (deref b d_last) as [d|]; [|done].
  destruct (move_assign d x) as [[d' x']|]; [|done].
  specialize (IH (store (store b last x') d_last d') last d_last).
  destruct (move_backward_loop _ _ _ _); [| |done];
    (rewrite IH by lia; unfold store; rewrite !list_lookup_insert_ne by lia; done).
Qed.

(** Two laid-out blocks that agree below [n] hold the same first [n]
    elements. *)
Lemma take_of_blocks xs ys (r1 r2 : block T) n :
  n ≤ length xs → n ≤ length ys →
  (∀ i, i < n → ((Live <$> ys) ++ r1) !! i = ((Live <$> xs) ++ r2) !! i) →
  take n ys = take n xs.
Proof.
  intros Hx Hy Hlook. apply list_eq. intros i.
  destruct (decide (i < n)) as [Hi|Hi].
  - rewrite !lookup_take_lt by done.
    specialize (Hlook i Hi).
    rewrite !lookup_app_l, !list_lookup_fmap in Hlook by (rewrite length_fmap; lia).
    destruct (ys !! i), (xs !! i); simpl in Hlook; congruence.
  - rewrite !lookup_take_ge by lia. done.
Qed.

(** [Erase] on any element type: it is defined for every position below the
    size, destroys exactly one object when it returns and none when an
    assignment throws, and leaves the elements in front of the position
    alone. *)
Lemma Erase_general xs cap pos :
  length xs ≤ cap → pos < length xs →
  (∃ ys z, Erase pos (vector_of xs cap) = Ok (vector_of ys cap, pos) [Destroyed z]
           ∧ S (length ys) = length xs ∧ take pos ys = take pos xs)
  ∨ (∃ ys, Erase pos (vector_of xs cap) = Throw (vector_of ys cap) []
           ∧ length ys = length xs ∧ take pos ys = take pos xs).
Proof.
  intros Hle Hpos. unfold Erase, Size, vector_of, begin, end_.
  cbn [data_ size_ capacity_ buffer_].
  assert ((pos <? 0 + length xs) = true) as -> by (apply Nat.ltb_lt; lia).
  cbn [andb negb Nat.leb]. rewrite Nat.add_0_l, Nat.sub_0_r.
  set (raws := replicate (cap - length xs) (@Raw T)).
  pose proof (std_move_shape ((Live <$> xs) ++ raws) (pos + 1) (length xs) pos) as Hshape.
  assert (std_move ((Live <$> xs) ++ raws) (pos + 1) (length xs) pos ≠ Undef) as Hdef.
  { unfold std_move.
    assert ((pos + 1 <=? length xs) = true) as -> by (apply Nat.leb_le; lia).
    apply move_loop_defined; [lia|]. intros i Hi. unfold raws. rewrite shape_layout.
    rewrite lookup_app_l by (rewrite length_replicate; lia).
    apply lookup_replicate_2. lia. }
  assert (∀ i, i < pos →
            match std_move ((Live <$> xs) ++ raws) (pos + 1) (length xs) pos with
            | Ok b' _ | Throw b' _ => b' !! i = ((Live <$> xs) ++ raws) !! i
            | Undef => True
            end) as Hframe.
  { intros i Hi. unfold std_move.
    destruct (pos + 1 <=? length xs); [|done]. apply move_loop_frame; lia. }
  destruct (std_move _ _ _ _) as [b tr|b tr|]; [| |done].
  - left. destruct Hshape as [Hshape ->]. unfold raws in Hshape.
    rewrite shape_layout in Hshape.
    destruct (block_of_shape b (length xs) cap Hle Hshape) as (xs1 & Hl1 & ->).
    destruct xs1 as [|z ys _] using rev_ind; [simpl in Hl1; lia|].
    rewrite length_app in Hl1. simpl in Hl1.
    exists ys, z.
    rewrite (destroy_at_spec _ _ z (Live <$> ys) raws);
      [|by rewrite fmap_app, <- app_assoc|rewrite length_fmap; lia].
    split; [|split; [lia|]].
    + assert (Raw :: raws = replicate (cap - length ys) Raw) as Hraws.
      { unfold raws. rewrite (replicate_pos (cap - length ys)) by lia.
        do 2 f_equal. lia. }
      unfold with_buffer. cbn [capacity_ app]. rewrite Hraws.
      by replace (length xs - 1) with (length ys) by lia.
    + assert (take pos (ys ++ [z]) = take pos xs) as Ht.
      { apply (take_of_blocks _ _ raws raws); [lia|rewrite length_app; simpl; lia|done]. }
      rewrite take_app_le in Ht by lia. done.
  - right. destruct Hshape as [Hshape ->]. unfold raws in Hshape.
    rewrite shape_layout in Hshape.
    destruct (block_of_shape b (length xs) cap Hle Hshape) as (ys & Hl1 & ->).
    exists ys. split; [|split; [done|]].
    + unfold with_block, with_buffer. cbn [data_ size_ capacity_]. by rewrite Hl1.
    + apply (take_of_blocks _ _ raws raws); [lia|lia|done].
Qed.

End GeneralFacts.

(** ** The in-place path of [Emplace] on arbitrary element types *)
Section InPlaceGeneral.
Context {T : Type} `{ElemType T}.
Implicit Types (v : Vector T) (xs : list T).

Lemma Vector_at_block (b : block T) cap n i x :
  i < n → n ≤ cap → b !! i = Some (Live x) →
  Vector_at {| data_ := {| buffer_ := b; capacity_ := cap |}; size_ := n |} i = Some x.
Proof.
  intros Hi Hn Hb. unfold Vector_at, RawMemory_at, deref. cbn [data_ size_ capacity_ buffer_].
  assert ((i <? n) = true) as -> by (apply Nat.ltb_lt; lia).
  assert ((i <? cap) = true) as -> by (apply Nat.ltb_lt; lia).
  by rewrite Hb.
Qed.

Lemma leak_free_singleton (z : T) : leak_free [Destroyed z].
Proof. apply (leak_free_destroyed [z]). Qed.

(** The in-place path never runs into undefined behaviour, loses no object
    and leaves the elements in front of the position alone, whatever the
    element type does. *)
Lemma Emplace_middle_general x xs0 last cap pos :
  length xs0 + 1 < cap → pos ≤ length xs0 →
  match Emplace pos (Some x) (vector_of (xs0 ++ [last]) cap) with
  | Ok (v', r) tr =>
    r = pos ∧ (∃ z, tr = [Destroyed z])
    ∧ ∃ ys, v' = vector_of ys cap ∧ length ys = length xs0 + 2
          ∧ take pos ys = take pos xs0
  | Throw v' tr =>
    Size v' = S (length xs0) ∧ Capacity v' = cap ∧ leak_free tr
    ∧ ∀ i, i < pos → Vector_at v' i = xs0 !! i
  | Undef => False
  end.
Proof.
  intros Hcap Hpos. rewrite Emplace_middle_unfold by done.
  destruct (move_construct last) as [[y last']|] eqn:Hmove.
  2: { split; [|split; [done|split; [apply leak_free_singleton|]]].
       { unfold Size, vector_of. cbn [size_]. rewrite length_app. simpl. lia. }
       intros i Hi. rewrite (Vector_at_holds _ (xs0 ++ [last])).
       - apply lookup_app_l. lia.
       - apply vector_of_holds. rewrite length_app. simpl. lia. }
  set (raws := replicate (cap - length xs0 - 2) (@Raw T)).
  set (b1 := (Live <$> xs0 ++ [last'; y]) ++ raws).
  assert (is_live <$> b1
          = replicate (S (S (length xs0))) true ++ replicate (cap - length xs0 - 2) false)
    as Hb1 by apply shape_all_live.
  assert (∀ i, i < pos → b1 !! i = Live <$> xs0 !! i) as Hfront.
  { intros i Hi. unfold b1.
    rewrite lookup_app_l by (rewrite length_fmap, length_app; simpl; lia).
    rewrite list_lookup_fmap, lookup_app_l by lia. done. }
  pose proof (std_move_backward_shape b1 pos (length xs0) (S (length xs0))) as Hshape.
  assert (std_move_backward b1 pos (length xs0) (S (length xs0)) ≠ Undef) as Hdef.
  { unfold std_move_backward.
    assert ((pos <=? length xs0) = true) as -> by (by apply Nat.leb_le).
    apply move_backward_loop_defined; [lia|lia|]. intros i Hi. rewrite Hb1.
    rewrite lookup_app_l by (rewrite length_replicate; lia).
    apply lookup_replicate_2. lia. }
  assert (∀ i, i < pos →
            match std_move_backward b1 pos (length xs0) (S (length xs0)) with
            | Ok b' _ | Throw b' _ => b' !! i = b1 !! i
            | Undef => True
            end) as Hframe.
  { intros i Hi. unfold std_move_backward.
    destruct (pos <=? length xs0); [|done]. apply move_backward_loop_frame_front; lia. }
  destruct (std_move_backward _ _ _ _) as [b2 tr2|b2 tr2|]; [| |done].
  - destruct Hshape as [Hshape ->]. rewrite Hb1 in Hshape.
    destruct (live_deref b2 pos) as [d Hd].
    { rewrite Hshape, lookup_app_l by (rewrite length_replicate; lia).
      apply lookup_replicate_2. lia. }
    rewrite Hd. destruct (move_assign d x) as [[d' x']|].
    + split; [done|]. split; [by exists x'|].
      assert (is_live <$> store b2 pos d'
              = replicate (S (S (length xs0))) true
                  ++ replicate (cap - S (S (length xs0))) false) as Hstore.
      { rewrite store_shape by (by eapply deref_is_live). rewrite Hshape.
        do 2 f_equal. lia. }
      destruct (block_of_shape (store b2 pos d') (S (S (length xs0))) cap) as (ys & Hl & Hys);
        [lia|exact Hstore|].
      exists ys. split; [|split; [lia|]].
      * unfold vector_of. rewrite Hys, Hl. do 2 f_equal. lia.
      * assert (take pos ys = take pos (xs0 ++ [last'; y])) as Ht.
        { apply (take_of_blocks _ _ (replicate (cap - S (S (length xs0))) Raw) raws);
            [rewrite length_app; simpl; lia|lia|].
          intros i Hi. rewrite <- Hys. unfold store.
          rewrite list_lookup_insert_ne by lia. by apply Hframe. }
        rewrite take_app_le in Ht by lia. done.
    + split; [done|]. split; [done|]. split; [apply leak_free_singleton|].
      intros i Hi. specialize (Hframe i Hi). rewrite Hfront in Hframe by done.
      destruct (xs0 !! i) as [xi|] eqn:Hxi.
      * apply Vector_at_block; [lia|lia|done].
      * apply lookup_ge_None in Hxi. lia.
  - destruct Hshape as [Hshape ->]. rewrite Hb1 in Hshape.
    destruct (is_live_lookup b2 (S (length xs0))) as [z Hz].
    { rewrite Hshape, lookup_app_l by (rewrite length_replicate; lia).
      apply lookup_replicate_2. lia. }
    unfold destroy_at. rewrite Hz.
    split; [done|]. split; [done|]. split.
    { apply (leak_free_destroyed [z; x]). }
    intros i Hi. specialize (Hframe i Hi). rewrite Hfront in Hframe by done.
    destruct (xs0 !! i) as [xi|] eqn:Hxi.
    + apply Vector_at_block; [lia|lia|]. rewrite list_lookup_insert_ne by lia. done.
    + apply lookup_ge_None in Hxi. lia.
Qed.

End InPlaceGeneral.

(** ** Size and capacity after a call *)
Section Bookkeeping.
Context {T : Type} `{ElemType T}.
Implicit Types (v : Vector T) (xs : list T).

Ltac by_cases_of_the_code :=
  repeat first
    [ progress unfold after, and_then, on_block, nothrow, with_block, with_buffer,
        RawMemory_Swap, RawMemory_sized, RawMemory_plus, Capacity, Size in *
    | progress cbn [data_ size_ capacity_ buffer_ fst snd] in *
    | progress simplify_eq
    | case_match ];
  repeat split; try done; try lia.

Lemma Reserve_bookkeeping n v :
  match Reserve n v with
  | Ok v' _ => Size v' = Size v ∧ Capacity v' = n `max` Capacity v
  | Throw v' _ => Size v' = Size v ∧ Capacity v' = Capacity v
  | Undef => True
  end.
Proof.
  unfold Reserve. destruct (n <=? Capacity v) eqn:Hn.
  { apply Nat.leb_le in Hn. split; [done|lia]. }
  apply Nat.leb_gt in Hn. by_cases_of_the_code.
Qed.

Lemma Resize_bookkeeping n v :
  match Resize n v with
  | Ok v' _ =>
    Size v' = n ∧ Capacity v ≤ Capacity v' ∧ (n ≤ Capacity v → Capacity v' = Capacity v)
  | Throw v' _ => Size v' = Size v ∧ Capacity v ≤ Capacity v'
  | Undef => True
  end.
Proof.
  unfold Resize. destruct (n <? size_ v) eqn:Hshrink.
  { by_cases_of_the_code. }
  destruct (Capacity v <? n) eqn:Hgrow.
  - apply Nat.ltb_lt in Hgrow. pose proof (Reserve_bookkeeping n v) as Hr.
    destruct (Reserve n v) as [v1 tr1|v1 tr1|]; [| |done].
    + destruct Hr as [Hs Hc]. by_cases_of_the_code.
    + destruct Hr as [Hs Hc]. by_cases_of_the_code.
  - apply Nat.ltb_ge in Hgrow. by_cases_of_the_code.
Qed.

Lemma PopBack_bookkeeping v :
  match PopBack v with
  | Ok v' _ => S (Size v') = Size v ∧ Capacity v' = Capacity v
  | Throw _ _ => False
  | Undef => True
  end.
Proof.
  unfold PopBack. destruct (size_ v =? 0) eqn:Hs; [done|]. apply Nat.eqb_neq in Hs.
  by_cases_of_the_code.
Qed.

Lemma EmplaceBack_bookkeeping args v :
  match EmplaceBack args v with
  | Ok (v', _) _ =>
    Size v' = S (Size v)
    ∧ Capacity v' = (if Capacity v <=? Size v then 1 `max` (2 * Size v) else Capacity v)
  | Throw v' _ => Size v' = Size v ∧ Capacity v' = Capacity v
  | Undef => True
  end.
Proof.
  unfold EmplaceBack. rewrite growth_max. unfold Size.
  destruct (Capacity v <=? size_ v); by_cases_of_the_code.
Qed.

Lemma Emplace_bookkeeping pos args v :
  match Emplace pos args v with
  | Ok (v', r) _ =>
    r = pos ∧ Size v' = S (Size v)
    ∧ Capacity v' = (if Capacity v <=? Size v then 1 `max` (2 * Size v) else Capacity v)
  | Throw v' _ => Size v' = Size v ∧ Capacity v' = Capacity v
  | Undef => True
  end.
Proof.
  unfold Emplace, begin, end_. rewrite growth_max. unfold Size.
  destruct (negb _); [done|].
  destruct (Capacity v <=? size_ v); by_cases_of_the_code.
Qed.

Lemma Erase_bookkeeping pos v :
  match Erase pos v with
  | Ok (v', r) _ => r = pos ∧ S (Size v') = Size v ∧ Capacity v' = Capacity v
  | Throw v' _ => Size v' = Size v ∧ Capacity v' = Capacity v
  | Undef => True
  end.
Proof.
  unfold Erase, begin, end_.
  destruct (pos <? 0 + Size v) eqn:Hpos; [|by rewrite andb_false_r].
  apply Nat.ltb_lt in Hpos. cbn [andb negb Nat.leb]. by_cases_of_the_code.
Qed.

End Bookkeeping.

(** ** What a call does to objects, and where it is undefined *)
Section Events.
Context {T : Type} `{ElemType T}.
Implicit Types (v : Vector T) (xs : list T).

Lemma Reserve_events n xs cap :
  length xs ≤ cap →
  match Reserve n (vector_of xs cap) with
  | Ok _ tr | Throw _ tr => leak_free tr
  | Undef => False
  end.
Proof.
  intros Hle. destruct (decide (n ≤ cap)) as [Hn|Hn].
  - rewrite Reserve_noop by done. apply leak_free_nil.
  - rewrite Reserve_grow by lia. destruct ((relocation xs).2); apply leak_free_destroyed.
Qed.

Lemma Resize_events n xs cap :
  length xs ≤ cap →
  match Resize n (vector_of xs cap) with
  | Ok _ tr | Throw _ tr => leak_free tr
  | Undef => False
  end.
Proof.
  intros Hle. destruct (decide (n < length xs)) as [Hshrink|Hshrink].
  { rewrite Resize_shrink by done. apply leak_free_destroyed. }
  destruct (decide (n ≤ cap)) as [Hn|Hn].
  - rewrite Resize_room by lia.
    destruct value_construct; [apply leak_free_nil|].
    destruct (n - length xs =? 0); apply leak_free_nil.
  - rewrite Resize_grow by lia.
    destruct ((relocation xs).2); [|apply leak_free_destroyed].
    destruct value_construct; apply leak_free_destroyed.
Qed.

Lemma EmplaceBack_events args xs cap :
  length xs ≤ cap →
  match EmplaceBack args (vector_of xs cap) with
  | Ok _ tr | Throw _ tr => leak_free tr
  | Undef => False
  end.
Proof.
  intros Hle. destruct args as [x|]; [|rewrite EmplaceBack_None; apply leak_free_nil].
  destruct (decide (cap ≤ length xs)) as [Hfull|Hroom].
  - rewrite EmplaceBack_grow by done.
    destruct ((relocation xs).2); apply leak_free_destroyed.
  - rewrite EmplaceBack_room by lia. apply leak_free_nil.
Qed.

Lemma PopBack_events xs cap :
  length xs ≤ cap →
  match PopBack (vector_of xs cap) with
  | Ok _ tr => leak_free tr
  | Throw _ _ => False
  | Undef => xs = []
  end.
Proof.
  intros Hle. destruct xs as [|l xs _] using rev_ind; [by rewrite PopBack_empty|].
  rewrite PopBack_layout by done. apply leak_free_singleton.
Qed.

Lemma Emplace_grow_at pos x xs cap :
  length xs ≤ cap → cap ≤ length xs → pos ≤ length xs →
  Emplace pos (Some x) (vector_of xs cap)
  = if (relocation (take pos xs)).2 then
      if (relocation (drop pos xs)).2 then
        Ok (vector_of ((relocation (take pos xs)).1.1 ++ x :: (relocation (drop pos xs)).1.1)
              (1 `max` (2 * length xs)),
            pos)
           (Destroyed <$> (relocation (take pos xs)).1.2 ++ (relocation (drop pos xs)).1.2)
      else
        Throw (vector_of ((relocation (take pos xs)).1.2 ++ (relocation (drop pos xs)).1.2) cap)
              (Destroyed <$> (relocation (drop pos xs)).1.1
                             ++ (relocation (take pos xs)).1.1 ++ [x])
    else Undef.
Proof.
  intros Hle Hfull Hpos.
  pose proof (Emplace_grow x (take pos xs) (drop pos xs) cap) as He.
  rewrite take_drop, length_take_le in He by done. by apply He.
Qed.

Lemma Emplace_events pos args xs cap :
  length xs ≤ cap →
  match Emplace pos args (vector_of xs cap) with
  | Ok _ tr | Throw _ tr => leak_free tr
  | Undef =>
    length xs < pos
    ∨ (pos ≤ length xs ∧ cap ≤ length xs ∧ is_Some args
       ∧ (relocation (take pos xs)).2 = false)
  end.
Proof.
  intros Hle. destruct (decide (pos ≤ length xs)) as [Hpos|Hpos].
  2: { rewrite Emplace_out_of_range; [left; lia|]. unfold Size, vector_of. simpl. lia. }
  destruct args as [x|]; [|rewrite Emplace_None by done; apply leak_free_nil].
  destruct (decide (cap ≤ length xs)) as [Hfull|Hroom].
  - rewrite Emplace_grow_at by done.
    destruct ((relocation (take pos xs)).2) eqn:Hprefix.
    + destruct ((relocation (drop pos xs)).2); apply leak_free_destroyed.
    + right. by repeat split.
  - destruct (decide (pos = length xs)) as [->|Hmid].
    { rewrite Emplace_end by lia. apply leak_free_nil. }
    destruct xs as [|last xs0 _] using rev_ind; [simpl in *; lia|].
    rewrite length_app in *. simpl in *.
    pose proof (Emplace_middle_general x xs0 last cap pos) as Hm.
    destruct (Emplace _ _ _) as [[v' r] tr|v' tr|].
    + destruct Hm as (_ & [z ->] & _); [lia..|]. apply leak_free_singleton.
    + by destruct Hm as (_ & _ & Hm & _); [lia..|].
    + destruct Hm; lia.
Qed.

Lemma Erase_events pos xs cap :
  length xs ≤ cap →
  match Erase pos (vector_of xs cap) with
  | Ok _ tr | Throw _ tr => leak_free tr
  | Undef => length xs ≤ pos
  end.
Proof.
  intros Hle. destruct (decide (pos < length xs)) as [Hpos|Hpos].
  - destruct (Erase_general xs cap pos Hle Hpos) as [(ys & z & -> & _)|(ys & -> & _)].
    + apply leak_free_singleton.
    + apply leak_free_nil.
  - rewrite Erase_out_of_range; [lia|]. unfold Size, vector_of. simpl. lia.
Qed.

Lemma call_events m xs cap :
  length xs ≤ cap →
  match call m (vector_of xs cap) with
  | Ok _ tr | Throw _ tr => leak_free tr
  | Undef => True
  end.
Proof.
  intros Hle.
  destruct m as [n|n|x|x| |args|pos args|pos x|pos x|pos]; cbn [call].
  - pose proof (Reserve_events n xs cap Hle) as He. by destruct (Reserve _ _).
  - pose proof (Resize_events n xs cap Hle) as He. by destruct (Resize _ _).
  - pose proof (EmplaceBack_events (copy_construct x) xs cap Hle) as He.
    unfold PushBack. by destruct (EmplaceBack _ _) as [[v' r] tr|v' tr|].
  - pose proof (EmplaceBack_events (fst <$> move_construct x) xs cap Hle) as He.
    unfold PushBack_rvalue. by destruct (EmplaceBack _ _) as [[v' r] tr|v' tr|].
  - pose proof (PopBack_events xs cap Hle) as He. by destruct (PopBack _).
  - pose proof (EmplaceBack_events args xs cap Hle) as He.
    by destruct (EmplaceBack _ _) as [[v' r] tr|v' tr|].
  - pose proof (Emplace_events pos args xs cap Hle) as He.
    by destruct (Emplace _ _ _) as [[v' r] tr|v' tr|].
  - pose proof (Emplace_events pos (copy_construct x) xs cap Hle) as He. unfold Insert.
    by destruct (Emplace _ _ _) as [[v' r] tr|v' tr|].
  - pose proof (Emplace_events pos (fst <$> move_construct x) xs cap Hle) as He.
    unfold Insert_rvalue. by destruct (Emplace _ _ _) as [[v' r] tr|v' tr|].
  - pose proof (Erase_events pos xs cap Hle) as He.
    by destruct (Erase _ _) as [[v' r] tr|v' tr|].
Qed.

End Events.

(** ** Destruction and copy assignment *)
Section Lifecycle.
Context {T : Type} `{ElemType T}.
Implicit Types (v : Vector T) (xs : list T).

Lemma Vector_destroy_layout xs cap :
  length xs ≤ cap → Vector_destroy (vector_of xs cap) = Some (Destroyed <$> xs).
Proof.
  intros Hle. unfold Vector_destroy, vector_of. cbn [data_ size_ capacity_ buffer_].
  rewrite (destroy_n_spec _ _ _ [] xs (replicate (cap - length xs) Raw)) by done.
  unfold RawMemory_destroy, with_buffer. cbn [buffer_ app].
  by rewrite Deallocate_app, !Deallocate_raw, !app_nil_r.
Qed.

Lemma std_copy_defined (src dst : block T) n :
  (∀ i, i < n → (is_live <$> src) !! i = Some true) →
  (∀ i, i < n → (is_live <$> dst) !! i = Some true) →
  std_copy src 0 n dst 0 ≠ Undef.
Proof.
  intros Hsrc Hdst. unfold std_copy. cbn [Nat.leb]. rewrite Nat.sub_0_r.
  by apply copy_loop_defined.
Qed.

Lemma layout_live xs n i :
  i < length xs → (is_live <$> ((Live <$> xs) ++ replicate n (@Raw T))) !! i = Some true.
Proof.
  intros Hi. rewrite shape_layout, lookup_app_l by (rewrite length_replicate; lia).
  by apply lookup_replicate_2.
Qed.

Lemma std_copy_regular `{!Regular T} (src dst : block T) first last d_first
    spre xs spost dpre ds dpost :
  src = spre ++ (Live <$> xs) ++ spost → first = length spre →
  last = length spre + length xs →
  dst = dpre ++ (Live <$> ds) ++ dpost → d_first = length dpre →
  length ds = length xs →
  std_copy src first last dst d_first = Ok (dpre ++ (Live <$> xs) ++ dpost) [].
Proof.
  intros -> -> -> -> -> Hl. unfold std_copy.
  assert ((length spre <=? length spre + length xs) = true) as ->
    by (apply Nat.leb_le; lia).
  replace (length spre + length xs - length spre) with (length xs) by lia.
  by apply copy_loop_regular.
Qed.

(** Copy assignment on any element type: it never runs into undefined
    behaviour, loses no object, and keeps the invariant on either way out. *)
Lemma Vector_copy_assign_general xs cap ys rcap :
  length xs ≤ cap → length ys ≤ rcap →
  match Vector_copy_assign (vector_of xs cap) (vector_of ys rcap) with
  | Ok v' tr =>
    invariant v' ∧ Size v' = length ys
    ∧ Capacity v' = (if length ys <=? cap then cap else length ys) ∧ leak_free tr
  | Throw v' tr =>
    invariant v' ∧ Size v' = length xs ∧ Capacity v' = cap ∧ leak_free tr
    ∧ (cap < length ys → v' = vector_of xs cap ∧ tr = Destroyed <$> (copies ys).1)
  | Undef => False
  end.
Proof.
  intros Hle Hrle.
  unfold Vector_copy_assign, Capacity, vector_of. cbn [data_ size_ capacity_ buffer_].
  destruct (length ys <=? cap) eqn:Hfit.
  - apply Nat.leb_le in Hfit.
    set (src := (Live <$> ys) ++ replicate (rcap - length ys) Raw).
    set (buf := (Live <$> xs) ++ replicate (cap - length xs) Raw).
    destruct (length xs <=? length ys) eqn:Hgrow.
    + apply Nat.leb_le in Hgrow.
      pose proof (std_copy_shape src 0 (length xs) buf 0) as Hshape.
      assert (std_copy src 0 (length xs) buf 0 ≠ Undef) as Hdef.
      { apply std_copy_defined; intros i Hi; apply layout_live; lia. }
      destruct (std_copy _ _ _ _ _) as [b tr|b tr|]; [| |done].
      * destruct Hshape as [Hshape ->]. unfold buf in Hshape. rewrite shape_layout in Hshape.
        destruct (block_of_shape b (length xs) cap Hle Hshape) as (xs1 & Hl1 & ->).
        cbn [on_block and_then after with_block with_buffer data_ size_ capacity_ buffer_ app].
        rewrite (uninitialized_copy_n_layout _ _ _ _ _ (drop (length xs) ys)
                   (Live <$> take (length xs) ys) (replicate (rcap - length ys) Raw)
                   (Live <$> xs1) (replicate (cap - length ys) Raw));
          [|by unfold src; rewrite app_assoc, <- fmap_app, take_drop
           |rewrite length_fmap, length_take; lia|rewrite length_drop; lia
           |f_equal; rewrite <- replicate_add; f_equal; lia|by rewrite length_fmap].
        pose proof (copies_ok_length (drop (length xs) ys)) as Hok.
        destruct (copies (drop (length xs) ys)) as [zs ok]. simpl in Hok. destruct ok.
        -- cbn. split; [|split; [done|split; [done|apply leak_free_nil]]].
           apply (holds_invariant _ (xs1 ++ zs)).
           split; [|split]; cbn.
           ++ rewrite length_app, Hok, length_drop by done. lia.
           ++ lia.
           ++ by rewrite fmap_app, <- app_assoc.
        -- cbn. split; [|split; [done|split; [done|split; [apply leak_free_destroyed|lia]]]].
           apply (holds_invariant _ xs1). by split.
      * destruct Hshape as [Hshape ->]. cbn. unfold buf in Hshape.
        rewrite shape_layout in Hshape.
        split; [by split|]. split; [done|]. split; [done|]. split; [apply leak_free_nil|lia].
    + apply Nat.leb_gt in Hgrow.
      pose proof (std_copy_shape src 0 (length ys) buf 0) as Hshape.
      assert (std_copy src 0 (length ys) buf 0 ≠ Undef) as Hdef.
      { apply std_copy_defined; intros i Hi; apply layout_live; lia. }
      destruct (std_copy _ _ _ _ _) as [b tr|b tr|]; [| |done].
      * destruct Hshape as [Hshape ->]. unfold buf in Hshape. rewrite shape_layout in Hshape.
        destruct (block_of_shape b (length xs) cap Hle Hshape) as (xs1 & Hl1 & ->).
        cbn [on_block and_then after with_block with_buffer data_ size_ capacity_ buffer_ app].
        rewrite (destroy_n_spec _ _ _ (Live <$> take (length ys) xs1) (drop (length ys) xs1)
                   (replicate (cap - length xs) Raw));
          [|by rewrite app_assoc, <- fmap_app, take_drop
           |rewrite length_fmap, length_take; lia|rewrite length_drop; lia].
        cbn. rewrite app_nil_r.
        split; [|split; [done|split; [done|apply leak_free_destroyed]]].
        apply (holds_invariant _ (take (length ys) xs1)).
        split; [|split]; cbn.
        -- rewrite length_take. lia.
        -- lia.
        -- f_equal. rewrite <- replicate_add. f_equal. lia.
      * destruct Hshape as [Hshape ->]. cbn. unfold buf in Hshape.
        rewrite shape_layout in Hshape.
        split; [by split|]. split; [done|]. split; [done|]. split; [apply leak_free_nil|lia].
  - apply Nat.leb_gt in Hfit.
    change ({| data_ := {| buffer_ := (Live <$> ys) ++ replicate (rcap - length ys) Raw;
                           capacity_ := rcap |};
               size_ := length ys |}) with (vector_of ys rcap).
    rewrite Vector_copy_layout by done.
    pose proof (copies_ok_length ys) as Hok.
    destruct (copies ys) as [zs ok]. simpl in Hok. destruct ok.
    + cbn [fst snd]. cbn [Swap RawMemory_Swap vector_of data_ size_ capacity_ buffer_ app].
      change ({| data_ := {| buffer_ := (Live <$> xs) ++ replicate (cap - length xs) Raw;
                             capacity_ := cap |};
                 size_ := length xs |}) with (vector_of xs cap).
      rewrite Vector_destroy_layout by done. specialize (Hok eq_refl).
      split; [|split; [done|split; [done|apply leak_free_destroyed]]].
      apply (holds_invariant _ zs). split; [|split]; cbn; [done|lia|].
      by rewrite Hok.
    + cbn [fst snd].
      split; [by apply (holds_invariant _ xs), vector_of_holds|].
      split; [done|]. split; [done|]. split; [apply leak_free_destroyed|done].
Qed.

(** Copy assignment of regular elements. *)
Lemma Vector_copy_assign_regular `{!Regular T} xs cap ys rcap :
  length xs ≤ cap → length ys ≤ rcap →
  Vector_copy_assign (vector_of xs cap) (vector_of ys rcap)
  = if length ys <=? cap
    then Ok (vector_of ys cap) (Destroyed <$> drop (length ys) xs)
    else Ok (vector_of ys (length ys)) (Destroyed <$> xs).
Proof.
  intros Hle Hrle.
  unfold Vector_copy_assign, Capacity, vector_of. cbn [data_ size_ capacity_ buffer_].
  destruct (length ys <=? cap) eqn:Hfit.
  - apply Nat.leb_le in Hfit.
    destruct (length xs <=? length ys) eqn:Hgrow.
    + apply Nat.leb_le in Hgrow.
      rewrite (std_copy_regular _ _ _ _ _ [] (take (length xs) ys)
                 ((Live <$> drop (length xs) ys) ++ replicate (rcap - length ys) Raw)
                 [] xs (replicate (cap - length xs) Raw));
        [|by cbn [app]; rewrite app_assoc, <- fmap_app, take_drop|done
         |rewrite length_take; simpl; lia|done|done|rewrite length_take; lia].
      cbn [on_block and_then after with_block with_buffer data_ size_ capacity_ buffer_ app].
      rewrite (uninitialized_copy_n_layout _ _ _ _ _ (drop (length xs) ys)
                 (Live <$> take (length xs) ys) (replicate (rcap - length ys) Raw)
                 (Live <$> take (length xs) ys) (replicate (cap - length ys) Raw));
        [|by rewrite app_assoc, <- fmap_app, take_drop
         |rewrite length_fmap, length_take; lia|rewrite length_drop; lia
         |f_equal; rewrite <- replicate_add; f_equal; lia
         |rewrite length_fmap, length_take; lia].
      rewrite copies_regular.
      cbn [fst snd and_then after on_block with_block with_buffer
             data_ size_ capacity_ buffer_ app].
      rewrite (drop_ge xs) by done.
      by rewrite app_assoc, <- fmap_app, take_drop.
    + apply Nat.leb_gt in Hgrow.
      rewrite (std_copy_regular _ _ _ _ _ [] ys (replicate (rcap - length ys) Raw)
                 [] (take (length ys) xs)
                 ((Live <$> drop (length ys) xs) ++ replicate (cap - length xs) Raw));
        [|done|done|done|by cbn [app]; rewrite app_assoc, <- fmap_app, take_drop|done
         |rewrite length_take; lia].
      cbn [on_block and_then after with_block with_buffer data_ size_ capacity_ buffer_ app].
      rewrite (destroy_n_spec _ _ _ (Live <$> ys) (drop (length ys) xs)
                 (replicate (cap - length xs) Raw));
        [|done|by rewrite length_fmap|rewrite length_drop; lia].
      cbn [nothrow and_then on_block after with_block with_buffer
             data_ size_ capacity_ buffer_ app].
      rewrite app_nil_r, <- replicate_add.
      by replace (length xs - length ys + (cap - length xs)) with (cap - length ys) by lia.
  - apply Nat.leb_gt in Hfit.
    change ({| data_ := {| buffer_ := (Live <$> ys) ++ replicate (rcap - length ys) Raw;
                           capacity_ := rcap |};
               size_ := length ys |}) with (vector_of ys rcap).
    rewrite Vector_copy_layout, copies_regular by done. cbn [fst snd].
    cbn [Swap RawMemory_Swap vector_of data_ size_ capacity_ buffer_ app].
    change ({| data_ := {| buffer_ := (Live <$> xs) ++ replicate (cap - length xs) Raw;
                           capacity_ := cap |};
               size_ := length xs |}) with (vector_of xs cap).
    rewrite Vector_destroy_layout by done. unfold vector_of.
    by rewrite Nat.sub_diag.
Qed.

End Lifecycle.

(** ** Vectors given by their elements *)
Section Shapes.
Context {T : Type} `{ElemType T}.
Implicit Types (v : Vector T) (xs : list T).

Lemma holds_inv v xs : holds v xs → ∃ cap, v = vector_of xs cap ∧ length xs ≤ cap.
Proof.
  intros Hv. exists (Capacity v). split; [by apply holds_vector_of|by eapply holds_capacity].
Qed.

Lemma Size_vector_of xs cap : Size (vector_of xs cap) = length xs.
Proof. done. Qed.

Lemma Capacity_vector_of xs cap : Capacity (vector_of xs cap) = cap.
Proof. done. Qed.

Lemma invariant_inv v : invariant v → ∃ xs cap, v = vector_of xs cap ∧ length xs ≤ cap.
Proof.
  intros (xs & Hv)%invariant_holds. exists xs. by apply holds_inv.
Qed.

Lemma copies_fail_length xs : (copies xs).2 = false → length (copies xs).1 < length xs.
Proof.
  induction xs as [|x xs IH]; simpl; [done|].
  destruct (copy_construct x) as [y|]; simpl; [|lia].
  destruct (copies xs) as [ys ok]. simpl in *. intros Hok. specialize (IH Hok). lia.
Qed.

Lemma moves_fail_length xs : (moves xs).2 = false → length (moves xs).1 < length xs.
Proof.
  induction xs as [|x xs IH]; simpl; [done|].
  destruct (move_construct x) as [p|]; simpl; [|lia].
  destruct (moves xs) as [ps ok]. simpl in *. intros Hok. specialize (IH Hok). lia.
Qed.

Lemma relocation_fail_length xs :
  (relocation xs).2 = false → length (relocation xs).1.1 < length xs.
Proof.
  unfold relocation. destruct (nothrow_move_constructible || negb copy_constructible).
  - pose proof (moves_fail_length xs) as Hm. destruct (moves xs) as [ps ok]. simpl in *.
    rewrite length_fmap. done.
  - pose proof (copies_fail_length xs) as Hc. by destruct (copies xs) as [ys ok].
Qed.

Lemma copies_prefix xs :
  Forall2 (λ x y, copy_construct x = Some y) (take (length (copies xs).1) xs) (copies xs).1.
Proof.
  induction xs as [|x xs IH]; simpl; [constructor|].
  destruct (copy_construct x) as [y|] eqn:Hy; simpl; [|constructor].
  destruct (copies xs) as [ys ok]. simpl in *. by constructor.
Qed.

Lemma copies_stop xs :
  (copies xs).2 = false →
  ∀ x, xs !! length (copies xs).1 = Some x → copy_construct x = None.
Proof.
  induction xs as [|x0 xs IH]; simpl; [done|].
  destruct (copy_construct x0) as [y|] eqn:Hy; simpl.
  - destruct (copies xs) as [ys ok]. simpl in *. done.
  - intros _ x Hx. by injection Hx as <-.
Qed.

Lemma relocation_nil : relocation (@nil T) = ([], [], true).
Proof. unfold relocation. by destruct (nothrow_move_constructible || negb copy_constructible). Qed.

End Shapes.

(** ** Every call: invariant, size, capacity, objects, undefined behaviour *)
Section EveryCall.
Context {T : Type} `{ElemType T}.
Implicit Types (v : Vector T) (xs : list T).




Lemma call_bookkeeping m v :
  match call m v with
  | Ok v' _ =>
    Size v' = match m with
              | call_Reserve _ => Size v
              | call_Resize n => n
              | call_PopBack | call_Erase _ => Size v - 1
              | _ => Size v + 1
              end
    ∧ Capacity v ≤ Capacity v'
    ∧ ((∀ n, m ≠ call_Reserve n) → Size v' ≤ Capacity v → Capacity v' = Capacity v)
  | Throw v' _ => Size v' = Size v ∧ Capacity v ≤ Capacity v'
  | Undef => True
  end.
Proof.
  assert (∀ c s s' c' : nat,
            s' = S s → c' = (if c <=? s then 1 `max` (2 * s) else c) →
            s' = s + 1 ∧ c ≤ c' ∧ (s' ≤ c → c' = c)) as Hgrowth.
  { intros c s s' c' -> ->. destruct (c <=? s) eqn:Hc; [apply Nat.leb_le in Hc|]; lia. }
  destruct m as [n|n|x|x| |args|pos args|pos x|pos x|pos]; cbn [call];
    unfold PushBack, PushBack_rvalue, Insert, Insert_rvalue.
  - pose proof (Reserve_bookkeeping n v) as Hb.
    destruct (Reserve n v) as [v1 tr1|v1 tr1|]; [|lia|done].
    split; [lia|]. split; [lia|]. intros Hn. by destruct (Hn n).
  - pose proof (Resize_bookkeeping n v) as Hb.
    destruct (Resize n v) as [v1 tr1|v1 tr1|]; [|lia|done].
    destruct Hb as (Hs & Hc & Hfit). split; [done|]. split; [done|].
    intros _ Hn. apply Hfit. lia.
  - pose proof (EmplaceBack_bookkeeping (copy_construct x) v) as Hb.
    destruct (EmplaceBack _ _) as [[v1 r] tr1|v1 tr1|]; [|lia|done].
    destruct Hb as [Hs Hc]. destruct (Hgrowth _ _ _ _ Hs Hc) as (? & ? & ?). auto.
  - pose proof (EmplaceBack_bookkeeping (fst <$> move_construct x) v) as Hb.
    destruct (EmplaceBack _ _) as [[v1 r] tr1|v1 tr1|]; [|lia|done].
    destruct Hb as [Hs Hc]. destruct (Hgrowth _ _ _ _ Hs Hc) as (? & ? & ?). auto.
  - pose proof (PopBack_bookkeeping v) as Hb.
    destruct (PopBack v) as [v1 tr1|v1 tr1|]; [|done..].
    destruct Hb as [Hs Hc]. split; [lia|]. split; [lia|done].
  - pose proof (EmplaceBack_bookkeeping args v) as Hb.
    destruct (EmplaceBack _ _) as [[v1 r] tr1|v1 tr1|]; cbn [state_of]; [|lia|done].
    destruct Hb as [Hs Hc]. destruct (Hgrowth _ _ _ _ Hs Hc) as (? & ? & ?). auto.
  - pose proof (Emplace_bookkeeping pos args v) as Hb.
    destruct (Emplace _ _ _) as [[v1 r] tr1|v1 tr1|]; cbn [state_of]; [|lia|done].
    destruct Hb as (_ & Hs & Hc). destruct (Hgrowth _ _ _ _ Hs Hc) as (? & ? & ?). auto.
  - pose proof (Emplace_bookkeeping pos (copy_construct x) v) as Hb.
    destruct (Emplace _ _ _) as [[v1 r] tr1|v1 tr1|]; cbn [state_of]; [|lia|done].
    destruct Hb as (_ & Hs & Hc). destruct (Hgrowth _ _ _ _ Hs Hc) as (? & ? & ?). auto.
  - pose proof (Emplace_bookkeeping pos (fst <$> move_construct x) v) as Hb.
    destruct (Emplace _ _ _) as [[v1 r] tr1|v1 tr1|]; cbn [state_of]; [|lia|done].
    destruct Hb as (_ & Hs & Hc). destruct (Hgrowth _ _ _ _ Hs Hc) as (? & ? & ?). auto.
  - pose proof (Erase_bookkeeping pos v) as Hb.
    destruct (Erase _ _) as [[v1 r] tr1|v1 tr1|]; cbn [state_of]; [|lia|done].
    destruct Hb as (_ & Hs & Hc). split; [lia|]. split; [lia|done].
Qed.

(** X4.  The size after a call: unchanged by [Reserve], the argument of
    [Resize], one more after [PushBack], [EmplaceBack], [Emplace] and
    [Insert], one less after [PopBack] and [Erase]; and unchanged whenever the
    call throws. *)
Theorem size_after_call m v v' tr :
  (call m v = Ok v' tr →
   Size v' = match m with
             | call_Reserve _ => Size v
             | call_Resize n => n
             | call_PopBack | call_Erase _ => Size v - 1
             | _ => Size v + 1
             end)
  ∧ (call m v = Throw v' tr → Size v' = Size v).
Proof.
  pose proof (call_bookkeeping m v) as Hb.
  split; intros Hm; rewrite Hm in Hb; by destruct Hb.
Qed.

(** X5.  No member function ever gives capacity back, whether it returns or
    throws; and apart from [Reserve] a call that returns changes the capacity
    only when the new size does not fit in the old capacity. *)
Theorem capacity_never_shrinks m v v' tr :
  (call m v = Ok v' tr ∨ call m v = Throw v' tr → Capacity v ≤ Capacity v')
  ∧ (call m v = Ok v' tr → (∀ n, m ≠ call_Reserve n) → Size v' ≤ Capacity v →
     Capacity v' = Capacity v).
Proof.
  pose proof (call_bookkeeping m v) as Hb. split.
  - intros [Hm|Hm]; rewrite Hm in Hb; [by destruct Hb as (_ & ? & _)|by destruct Hb].
  - intros Hm. rewrite Hm in Hb. by destruct Hb as (_ & _ & ?).
Qed.

End EveryCall.

Section Undefined.
Context {T : Type} `{ElemType T}.
Implicit Types (v : Vector T) (xs : list T).


End Undefined.

(** ** Construction, copying and destruction *)
Section Construction.
Context {T : Type} `{ElemType T}.
Implicit Types (v u : Vector T) (xs ys : list T).


(** X8.  The copy constructor allocates exactly [other.size()] slots
    (capacity is not copied) and fills them with copies of the elements in
    order.  When a copy constructor throws, the copies already built are
    destroyed and nothing is lost.  It never runs into undefined
    behaviour. *)
Theorem Vector_copy_correct u xs :
  holds u xs →
  Vector_copy u ≠ Undef
  ∧ (∀ v tr, Vector_copy u = Ok v tr →
       tr = [] ∧ Size v = Size u ∧ Capacity v = Size u
       ∧ ∃ ys, holds v ys ∧ Forall2 (λ x y, copy_construct x = Some y) xs ys)
  ∧ (∀ tr, Vector_copy u = Throw () tr →
       ∃ ys, tr = Destroyed <$> ys ∧ length ys < length xs
           ∧ Forall2 (λ x y, copy_construct x = Some y) (take (length ys) xs) ys
           ∧ (∀ x, xs !! length ys = Some x → copy_construct x = None))
  ∧ ((∀ x, is_Some (copy_construct x)) → ∃ v, Vector_copy u = Ok v [])
  ∧ (Regular T → Vector_copy u = Ok (vector_of xs (Size u)) []).
Proof.
  intros (cap & -> & Hcap)%holds_inv. rewrite Size_vector_of, Vector_copy_layout by done.
  pose proof (copies_ok_length xs) as Hlen.
  pose proof (copies_Forall2 xs) as Hall.
  pose proof (copies_fail_length xs) as Hfail.
  pose proof (copies_prefix xs) as Hprefix.
  pose proof (copies_stop xs) as Hstop.
  split; [by destruct ((copies xs).2)|]. split; [|split; [|split]].
  - intros v tr Hc. destruct ((copies xs).2); [|done]. injection Hc as <- <-.
    split; [done|]. split; [by rewrite Size_vector_of, Hlen|]. split; [done|].
    exists (copies xs).1. split; [|by apply Hall].
    apply vector_of_holds. by rewrite Hlen.
  - intros tr Hc. destruct ((copies xs).2); [done|]. injection Hc as <-.
    exists (copies xs).1. split; [done|]. split; [by apply Hfail|]. split; [done|].
    by apply Hstop.
  - intros Htotal. rewrite (copies_total xs Htotal). eauto.
  - intros Hreg. by rewrite copies_regular.
Qed.

End Construction.

Section Assignment.
Context {T : Type} `{ElemType T}.
Implicit Types (v u : Vector T) (xs ys : list T).

(** X9.  Copy assignment between two distinct vectors, on any element type:
    it never runs into undefined behaviour and never loses an object.  When
    it returns, the target has the size of the source and satisfies the
    invariant; its capacity is kept if the source fits and becomes the size of
    the source otherwise.  When it throws, the target still satisfies the
    invariant with its old size and capacity; and if the source did not fit
    (the copy-and-swap path) the target is exactly what it was. *)
Theorem Vector_copy_assign_safe v xs u ys :
  holds v xs → holds u ys →
  Vector_copy_assign v u ≠ Undef
  ∧ (∀ v' tr, Vector_copy_assign v u = Ok v' tr →
       invariant v' ∧ Size v' = Size u ∧ Capacity v' = Capacity v `max` Size u
       ∧ leak_free tr)
  ∧ (∀ v' tr, Vector_copy_assign v u = Throw v' tr →
       invariant v' ∧ Size v' = Size v ∧ Capacity v' = Capacity v ∧ leak_free tr
       ∧ (Capacity v < Size u → v' = v)).
Proof.
  intros (cap & -> & Hcap)%holds_inv (rcap & -> & Hrcap)%holds_inv.
  rewrite !Size_vector_of, Capacity_vector_of.
  pose proof (Vector_copy_assign_general xs cap ys rcap Hcap Hrcap) as Hg.
  destruct (Vector_copy_assign _ _) as [v1 tr1|v1 tr1|]; [| |done].
  - split; [done|]. split; [|done]. intros v' tr [= <- <-].
    destruct Hg as (Hinv & Hs & Hc & Hl). repeat split; [apply Hinv..|done| |done].
    rewrite Hc. destruct (length ys <=? cap) eqn:Hfit;
      [apply Nat.leb_le in Hfit|apply Nat.leb_gt in Hfit]; lia.
  - split; [done|]. split; [done|]. intros v' tr [= <- <-].
    destruct Hg as (Hinv & Hs & Hc & Hl & Hstrong).
    repeat split; [apply Hinv..|done|done|done|]. intros Hfit. by apply Hstrong.
Qed.

(** X10.  Copy assignment of regular elements: the target ends up holding the
    elements of the source.  If they fit into its capacity the block is kept,
    the common prefix is assigned, and the surplus elements of the target, if
    any, are destroyed; otherwise the target gets a new block of exactly
    [rhs.size()] slots and all its old elements are destroyed. *)
Theorem Vector_copy_assign_correct `{!Regular T} v xs u ys :
  holds v xs → holds u ys →
  ∃ v' tr, Vector_copy_assign v u = Ok v' tr ∧ holds v' ys
         ∧ (Size u ≤ Capacity v →
              Capacity v' = Capacity v ∧ tr = Destroyed <$> drop (Size u) xs)
         ∧ (Capacity v < Size u → Capacity v' = Size u ∧ tr = Destroyed <$> xs).
Proof.
  intros (cap & -> & Hcap)%holds_inv (rcap & -> & Hrcap)%holds_inv.
  rewrite !Size_vector_of, Capacity_vector_of, Vector_copy_assign_regular by done.
  destruct (length ys <=? cap) eqn:Hfit;
    [apply Nat.leb_le in Hfit|apply Nat.leb_gt in Hfit].
  - exists (vector_of ys cap), (Destroyed <$> drop (length ys) xs).
    split; [done|]. split; [by apply vector_of_holds|]. split; [done|lia].
  - exists (vector_of ys (length ys)), (Destroyed <$> xs).
    split; [done|]. split; [by apply vector_of_holds|]. split; [lia|done].
Qed.

(** X11.  The destructor of a well-formed vector destroys each of its
    elements exactly once, in index order, and loses nothing.  Move
    construction and [Swap] hand blocks over without touching an element:
    after a move the new vector owns the elements and destroying the source
    destroys nothing; after a swap each vector holds, and later destroys, what
    the other held. *)
Theorem destroyed_exactly_once v xs u ys :
  holds v xs → holds u ys →
  Vector_destroy v = Some (Destroyed <$> xs)
  ∧ (holds (Vector_move v).1.1 xs ∧ holds (Vector_move v).1.2 []
     ∧ (Vector_move v).2 = []
     ∧ Vector_destroy (Vector_move v).1.1 = Some (Destroyed <$> xs)
     ∧ Vector_destroy (Vector_move v).1.2 = Some [])
  ∧ (holds (Swap v u).1 ys ∧ holds (Swap v u).2 xs
     ∧ Capacity (Swap v u).1 = Capacity u ∧ Capacity (Swap v u).2 = Capacity v
     ∧ Vector_destroy (Swap v u).1 = Some (Destroyed <$> ys)
     ∧ Vector_destroy (Swap v u).2 = Some (Destroyed <$> xs)).
Proof.
  intros (cap & -> & Hcap)%holds_inv (rcap & -> & Hrcap)%holds_inv.
  assert (Vector_move (vector_of xs cap) = (vector_of xs cap, vector_of [] 0, [])) as ->
    by done.
  assert (Swap (vector_of xs cap) (vector_of ys rcap) = (vector_of ys rcap, vector_of xs cap))
    as -> by done.
  cbn [fst snd]. rewrite !Vector_destroy_layout by (done || simpl; lia).
  repeat split; try done; apply vector_of_holds; (done || simpl; lia).
Qed.

(** X12.  [operator[]] of a well-formed vector reads the element at the
    index for every index below the size, and fails its assertion for every
    other index, also one below the capacity. *)
Theorem Vector_at_correct v xs i :
  holds v xs →
  Vector_at v i = xs !! i
  ∧ (i < Size v → ∃ x, Vector_at v i = Some x ∧ RawMemory_at (data_ v) i = Some x)
  ∧ (Size v ≤ i → Vector_at v i = None ∧ RawMemory_at (data_ v) i = None).
Proof.
  intros Hv. pose proof (Vector_at_holds v xs i Hv) as Hat.
  destruct Hv as (Hs & Hc & Hb). unfold Size. split; [done|]. split.
  - intros Hi. destruct (lookup_lt_is_Some_2 xs i) as [x Hx]; [lia|].
    exists x. split; [by rewrite Hat|].
    unfold Vector_at in Hat.
    assert ((i <? size_ v) = true) as Hlt by (by apply Nat.ltb_lt).
    by rewrite Hlt, Hx in Hat.
  - intros Hi. rewrite Hat. split; [apply lookup_ge_None; lia|].
    unfold RawMemory_at, deref. destruct (i <? capacity_ (data_ v)) eqn:Hic; [|done].
    apply Nat.ltb_lt in Hic. rewrite Hb.
    rewrite lookup_app_r by (rewrite length_fmap; lia).
    rewrite lookup_replicate_2; [done|]. rewrite length_fmap. lia.
Qed.

End Assignment.

(** ** Adding and removing at the end *)
Section AtTheEnd.
Context {T : Type} `{ElemType T}.
Implicit Types (v u : Vector T) (xs ys : list T).

Lemma EmplaceBack_regular `{!Regular T} x xs cap :
  length xs ≤ cap →
  ∃ tr, EmplaceBack (Some x) (vector_of xs cap)
        = Ok (vector_of (xs ++ [x]) (if cap <=? length xs then 1 `max` (2 * length xs) else cap),
              x) tr
      ∧ (length xs < cap → tr = []).
Proof.
  intros Hcap. destruct (cap <=? length xs) eqn:Hfull.
  - apply Nat.leb_le in Hfull. rewrite EmplaceBack_grow by done.
    destruct (relocation_regular xs) as [-> ->]. eexists. split; [done|lia].
  - apply Nat.leb_gt in Hfull. rewrite EmplaceBack_room by done. by exists [].
Qed.

(** X13.  [PopBack] on a well-formed vector: undefined on an empty vector
    (its [assert]); otherwise it destroys the last element and nothing else,
    keeps the other elements and the capacity, and cannot throw. *)
Theorem PopBack_correct v xs :
  holds v xs →
  (xs = [] → PopBack v = Undef)
  ∧ (∀ xs' l, xs = xs' ++ [l] →
       ∃ v', PopBack v = Ok v' [Destroyed l] ∧ holds v' xs'
           ∧ Size v' = Size v - 1 ∧ Capacity v' = Capacity v).
Proof.
  intros (cap & -> & Hcap)%holds_inv. split.
  - intros ->. apply PopBack_empty.
  - intros xs' l ->. exists (vector_of xs' cap). rewrite PopBack_layout by done.
    rewrite length_app in Hcap. simpl in Hcap.
    split; [done|]. split; [apply vector_of_holds; lia|].
    rewrite !Size_vector_of, length_app. simpl. split; [lia|done].
Qed.


(** X15.  [PopBack] undoes [EmplaceBack], whatever the element type: after an
    [EmplaceBack] that returned, [PopBack] destroys exactly the element just
    added and leaves a well-formed vector of the old size.  If the vector had
    room it is then exactly what it was before; for regular elements it holds
    the old elements in any case. *)
Theorem EmplaceBack_PopBack_inverse v xs x v1 r tr :
  holds v xs → EmplaceBack (Some x) v = Ok (v1, r) tr →
  r = x
  ∧ ∃ v2, PopBack v1 = Ok v2 [Destroyed x] ∧ Size v2 = Size v ∧ invariant v2
        ∧ (Size v < Capacity v → v2 = v)
        ∧ (Regular T → holds v2 xs).
Proof.
  intros (cap & -> & Hcap)%holds_inv He.
  rewrite Size_vector_of, Capacity_vector_of.
  destruct (decide (cap ≤ length xs)) as [Hfull|Hroom].
  - rewrite EmplaceBack_grow in He by done.
    pose proof (relocation_ok_length xs) as Hlen.
    destruct ((relocation xs).2); [|done]. injection He as <- <- <-.
    specialize (Hlen eq_refl). split; [done|].
    exists (vector_of (relocation xs).1.1 (1 `max` (2 * length xs))).
    rewrite PopBack_layout by (rewrite length_app, Hlen; simpl; lia).
    split; [done|]. split; [by rewrite Size_vector_of|].
    split; [apply vector_of_invariant; lia|]. split; [lia|].
    intros Hreg. destruct (relocation_regular xs) as [-> _].
    apply vector_of_holds. lia.
  - rewrite EmplaceBack_room in He by lia. injection He as <- <- <-.
    split; [done|]. exists (vector_of xs cap).
    rewrite PopBack_layout by (rewrite length_app; simpl; lia).
    split; [done|]. split; [done|]. split; [by apply vector_of_invariant|].
    split; [done|]. intros _. by apply vector_of_holds.
Qed.

(** X16.  [EmplaceBack] into a vector with room works in place on any element
    type: the existing elements are not copied, moved or destroyed (they are
    the same objects afterwards), the capacity is kept, and the reference
    returned is to the new last element. *)
Theorem EmplaceBack_in_place v xs x :
  holds v xs → Size v < Capacity v →
  ∃ v', EmplaceBack (Some x) v = Ok (v', x) [] ∧ holds v' (xs ++ [x])
      ∧ Capacity v' = Capacity v ∧ Vector_at v' (Size v) = Some x
      ∧ ∀ i, i < Size v → Vector_at v' i = Vector_at v i.
Proof.
  intros Hv. pose proof Hv as (cap & -> & Hcap)%holds_inv.
  rewrite Size_vector_of, Capacity_vector_of. intros Hroom.
  assert (holds (vector_of (xs ++ [x]) cap) (xs ++ [x])) as Hv'.
  { apply vector_of_holds. rewrite length_app. simpl. lia. }
  exists (vector_of (xs ++ [x]) cap). rewrite EmplaceBack_room by done.
  split; [done|]. split; [done|]. split; [done|]. split.
  - rewrite (Vector_at_holds _ _ _ Hv'). by apply list_lookup_middle.
  - intros i Hi. rewrite (Vector_at_holds _ _ _ Hv'), (Vector_at_holds _ _ _ Hv).
    by apply lookup_app_l.
Qed.

(** X17.  When the constructor of the new element throws, the vector is left
    exactly as it was and nothing has been destroyed or lost, on the growing
    path as on the in-place path; so for [PushBack] and [Insert] with a
    throwing copy or move constructor. *)
Theorem constructor_throw_changes_nothing v :
  EmplaceBack None v = Throw v []
  ∧ (∀ pos, pos ≤ Size v → Emplace pos None v = Throw v [])
  ∧ (∀ x, copy_construct x = None →
       PushBack x v = Throw v []
       ∧ ∀ pos, pos ≤ Size v → Insert pos x v = Throw v [])
  ∧ (∀ x, move_construct x = None →
       PushBack_rvalue x v = Throw v []
       ∧ ∀ pos, pos ≤ Size v → Insert_rvalue pos x v = Throw v []).
Proof.
  split; [apply EmplaceBack_None|]. split; [intros pos; apply Emplace_None|].
  unfold PushBack, PushBack_rvalue, Insert, Insert_rvalue.
  split; intros x ->; cbn [fmap option_fmap option_map];
    (split; [by rewrite EmplaceBack_None|intros pos; apply Emplace_None]).
Qed.

End AtTheEnd.

(** ** Inserting and erasing inside *)
Section Inside.
Context {T : Type} `{ElemType T}.
Implicit Types (v u : Vector T) (xs ys : list T).


(** X19.  [Erase] of regular elements at position [i < size()]: the element
    at [i] is removed, everything in front of it stays and everything behind
    it moves one index down; one object is destroyed (the moved-from last
    slot); the capacity is kept and the iterator returned is position [i]. *)
Theorem Erase_correct `{!Regular T} v xs i :
  holds v xs → i < Size v →
  ∃ v' z, Erase i v = Ok (v', i) [Destroyed z]
        ∧ holds v' (take i xs ++ drop (S i) xs)
        ∧ Size v' = Size v - 1 ∧ Capacity v' = Capacity v
        ∧ (∀ j, j < i → Vector_at v' j = Vector_at v j)
        ∧ (∀ j, i ≤ j → Vector_at v' j = Vector_at v (S j)).
Proof.
  intros Hv. pose proof Hv as (cap & -> & Hcap)%holds_inv.
  rewrite Size_vector_of, Capacity_vector_of. intros Hi.
  destruct (lookup_lt_is_Some_2 xs i Hi) as [d Hd].
  pose proof (take_drop_middle xs i d Hd) as Hsplit.
  assert (length (take i xs) = i) as Hti by (apply length_take_le; lia).
  destruct (Erase_regular (take i xs) d (drop (S i) xs) cap) as (tr & He).
  { by rewrite Hsplit. }
  rewrite Hsplit, Hti in He.
  destruct (Erase_general xs cap i Hcap Hi) as [(ys & z & He' & _)|(ys & He' & _)];
    rewrite He in He'; [|done].
  assert (tr = [Destroyed z]) as -> by congruence. clear He'.
  assert (length (take i xs ++ drop (S i) xs) = length xs - 1) as Hlen.
  { rewrite length_app, Hti, length_drop. lia. }
  assert (holds (vector_of (take i xs ++ drop (S i) xs) cap) (take i xs ++ drop (S i) xs))
    as Hv'.
  { apply vector_of_holds. lia. }
  exists (vector_of (take i xs ++ drop (S i) xs) cap), z.
  split; [done|]. split; [done|]. rewrite Size_vector_of.
  split; [done|]. split; [done|]. split.
  - intros j Hj. rewrite (Vector_at_holds _ _ _ Hv'), (Vector_at_holds _ _ _ Hv).
    rewrite lookup_app_l by lia. by apply lookup_take_lt.
  - intros j Hj. rewrite (Vector_at_holds _ _ _ Hv'), (Vector_at_holds _ _ _ Hv).
    rewrite lookup_app_r by lia. rewrite Hti, lookup_drop. f_equal. lia.
Qed.

(** X20.  [Erase] at a position below the size, on any element type: it
    never runs into undefined behaviour.  When it returns, exactly one object
    has been destroyed, the size is one less and the iterator returned is the
    position; when a move assignment throws, nothing has been destroyed and
    the size is unchanged.  Either way the capacity is kept, the invariant
    holds, and the elements in front of the position are what they were. *)
Theorem Erase_safe v xs pos :
  holds v xs → pos < Size v →
  Erase pos v ≠ Undef
  ∧ (∀ v' r tr, Erase pos v = Ok (v', r) tr →
       r = pos ∧ (∃ z, tr = [Destroyed z]) ∧ Size v' = Size v - 1
       ∧ Capacity v' = Capacity v ∧ invariant v'
       ∧ ∀ i, i < pos → Vector_at v' i = Vector_at v i)
  ∧ (∀ v' tr, Erase pos v = Throw v' tr →
       tr = [] ∧ Size v' = Size v ∧ Capacity v' = Capacity v ∧ invariant v'
       ∧ ∀ i, i < pos → Vector_at v' i = Vector_at v i).
Proof.
  intros Hv. pose proof Hv as (cap & -> & Hcap)%holds_inv.
  rewrite Size_vector_of, Capacity_vector_of. intros Hpos.
  assert (∀ ys i, length ys ≤ cap → take pos ys = take pos xs → i < pos →
            Vector_at (vector_of ys cap) i = Vector_at (vector_of xs cap) i) as Hfront.
  { intros ys i Hys Ht Hi.
    rewrite (Vector_at_holds _ ys), (Vector_at_holds _ xs) by (by apply vector_of_holds).
    rewrite <- (lookup_take_lt ys pos i), <- (lookup_take_lt xs pos i) by done.
    by rewrite Ht. }
  destruct (Erase_general xs cap pos Hcap Hpos)
    as [(ys & z & -> & Hl & Ht)|(ys & -> & Hl & Ht)].
  - split; [done|]. split; [|done]. intros v' r tr [= <- <- <-].
    split; [done|]. split; [by exists z|]. rewrite Size_vector_of.
    split; [lia|]. split; [done|]. split; [apply vector_of_invariant; lia|].
    intros i Hi. apply Hfront; [lia|done..].
  - split; [done|]. split; [done|]. intros v' tr [= <- <-].
    split; [done|]. rewrite Size_vector_of. split; [done|]. split; [done|].
    split; [apply vector_of_invariant; lia|].
    intros i Hi. apply Hfront; [lia|done..].
Qed.


(** X22.  [Emplace] at [end()] is [EmplaceBack]: whenever it does not run
    into undefined behaviour it returns or throws with the same vector and the
    same objects destroyed as [EmplaceBack] with the same arguments; and
    [EmplaceBack] is then defined as well. *)
Theorem Emplace_at_end_is_EmplaceBack v xs args :
  holds v xs → Emplace (Size v) args v ≠ Undef →
  state_of (Emplace (Size v) args v) = state_of (EmplaceBack args v)
  ∧ ∀ v' r tr, Emplace (Size v) args v = Ok (v', r) tr →
      r = Size v ∧ ∃ x, args = Some x ∧ EmplaceBack args v = Ok (v', x) tr
                      ∧ Vector_at v' r = Some x.
Proof.
  intros (cap & -> & Hcap)%holds_inv. rewrite Size_vector_of.
  destruct args as [x|].
  2: { rewrite Emplace_None, EmplaceBack_None by done. by split. }
  destruct (decide (cap ≤ length xs)) as [Hfull|Hroom].
  - rewrite Emplace_grow_at, EmplaceBack_grow by done.
    rewrite take_ge, drop_ge, relocation_nil by done. cbn [fst snd].
    pose proof (relocation_ok_length xs) as Hlen.
    destruct ((relocation xs).2); [|done]. intros _.
    rewrite !app_nil_r. split; [done|]. intros v' r tr [= <- <- <-].
    split; [done|]. exists x. split; [done|]. split; [done|].
    rewrite (Vector_at_holds _ ((relocation xs).1.1 ++ [x])).
    + rewrite <- (Hlen eq_refl). by apply list_lookup_middle.
    + apply vector_of_holds. rewrite length_app, Hlen by done. simpl. lia.
  - rewrite Emplace_end, EmplaceBack_room by lia. intros _.
    split; [done|]. intros v' r tr [= <- <- <-].
    split; [done|]. exists x. split; [done|]. split; [done|].
    rewrite (Vector_at_holds _ (xs ++ [x])).
    + by apply list_lookup_middle.
    + apply vector_of_holds. rewrite length_app. simpl. lia.
Qed.

End Inside.

(** ** When relocation throws *)
Section RelocationThrows.
Context {T : Type} `{ElemType T}.
Implicit Types (v u : Vector T) (xs ys : list T).


(** X24.  [Emplace] and [Insert] on a full vector can only throw, once the
    new element is built, while the elements behind the position are
    relocated.  The new element and everything built in the new block are
    then destroyed, nothing is lost, the vector keeps its block, size and
    capacity and satisfies the invariant; and if [T] is copy-constructible
    the vector is exactly what it was. *)
Theorem Emplace_growth_throw v xs pos x v' tr :
  holds v xs → Capacity v ≤ Size v → pos ≤ Size v →
  Emplace pos (Some x) v = Throw v' tr →
  (relocation (take pos xs)).2 = true ∧ (relocation (drop pos xs)).2 = false
  ∧ nothrow_move_constructible = false
  ∧ Size v' = Size v ∧ Capacity v' = Capacity v ∧ invariant v'
  ∧ leak_free tr ∧ Destroyed x ∈ tr
  ∧ (copy_constructible = true → v' = v).
Proof.
  intros (cap & -> & Hcap)%holds_inv.
  rewrite Size_vector_of, Capacity_vector_of. intros Hfull Hpos He.
  rewrite Emplace_grow_at in He by done.
  destruct ((relocation (take pos xs)).2) eqn:Hprefix; [|done].
  destruct ((relocation (drop pos xs)).2) eqn:Hsuffix; [done|]. injection He as <- <-.
  assert (nothrow_move_constructible = false) as Hnothrow.
  { destruct nothrow_move_constructible eqn:Hnt; [|done].
    by rewrite relocation_nothrow_ok in Hsuffix. }
  assert (length ((relocation (take pos xs)).1.2 ++ (relocation (drop pos xs)).1.2)
          = length xs) as Hlen.
  { rewrite length_app, !relocation_source_length, length_take, length_drop. lia. }
  split; [done|]. split; [done|]. split; [done|].
  split; [by rewrite Size_vector_of|]. split; [done|].
  split; [apply vector_of_invariant; lia|]. split; [apply leak_free_destroyed|]. split.
  - apply list_elem_of_fmap_2. rewrite !elem_of_app, list_elem_of_singleton. auto.
  - intros Hcopy. by rewrite !relocation_copy_source, take_drop.
Qed.

End RelocationThrows.

(** ** Sequences of [PushBack] *)
Section Pushes.
Context {T : Type} `{ElemType T}.
Implicit Types (v u : Vector T) (xs ys : list T).

Lemma push_all_room xs ys cap :
  length ys + length xs ≤ cap →
  push_all xs (vector_of ys cap)
  = (if (copies xs).2 then Ok else Throw) (vector_of (ys ++ (copies xs).1) cap) [].
Proof.
  revert ys. induction xs as [|x xs IH]; intros ys Hroom.
  { simpl. by rewrite app_nil_r. }
  cbn [push_all copies length] in *. unfold PushBack.
  destruct (copy_construct x) as [y|].
  - rewrite EmplaceBack_room by lia. cbn [and_then]. rewrite after_nil.
    rewrite IH by (rewrite length_app; simpl; lia).
    destruct (copies xs) as [zs ok]. cbn [fst snd]. by rewrite <- app_assoc.
  - rewrite EmplaceBack_None. cbn [and_then fst snd]. by rewrite app_nil_r.
Qed.

Lemma push_all_regular `{!Regular T} xs ys cap :
  length ys ≤ cap →
  (ys = [] ∧ cap = 0) ∨ (∃ k, cap = 2 ^ k ∧ 2 ^ k < 2 * length ys) →
  ∃ v tr, push_all xs (vector_of ys cap) = Ok v tr ∧ holds v (ys ++ xs)
        ∧ ((ys ++ xs = [] ∧ Capacity v = 0)
           ∨ ∃ k, Capacity v = 2 ^ k ∧ 2 ^ k < 2 * length (ys ++ xs)).
Proof.
  revert ys cap. induction xs as [|x xs IH]; intros ys cap Hcap Hpow.
  { exists (vector_of ys cap), []. rewrite app_nil_r.
    split; [done|]. split; [by apply vector_of_holds|done]. }
  cbn [push_all]. unfold PushBack. rewrite copy_construct_regular.
  destruct (EmplaceBack_regular x ys cap Hcap) as (tr & -> & _).
  cbn [and_then].
  set (cap' := if cap <=? length ys then 1 `max` (2 * length ys) else cap).
  destruct (IH (ys ++ [x]) cap') as (v & tr' & Hp & Hv & Hk).
  - rewrite length_app. simpl. unfold cap'.
    destruct (cap <=? length ys) eqn:Hfull;
      [apply Nat.leb_le in Hfull|apply Nat.leb_gt in Hfull]; lia.
  - right. rewrite length_app. simpl. unfold cap'.
    destruct Hpow as [[-> ->]|(k & -> & Hk)].
    + exists 0. simpl. lia.
    + destruct (2 ^ k <=? length ys) eqn:Hfull.
      * apply Nat.leb_le in Hfull. exists (S k). rewrite Nat.pow_succ_r'. lia.
      * exists k. lia.
  - exists v, (tr ++ tr'). rewrite Hp. cbn [after].
    rewrite <- app_assoc in Hv, Hk. cbn [app] in Hv, Hk. done.
Qed.

(** X25.  Pushing [n >= 1] regular elements one by one onto an empty vector
    leaves a vector that holds them in order and whose capacity is a power of
    two, at least [n] and less than [2 * n]: the capacities passed through are
    1, 2, 4, 8, ... *)
Theorem push_all_doubles `{!Regular T} xs :
  xs ≠ [] →
  ∃ v tr k, push_all xs Vector_default = Ok v tr ∧ holds v xs
          ∧ Capacity v = 2 ^ k ∧ length xs ≤ 2 ^ k ∧ 2 ^ k < 2 * length xs.
Proof.
  intros Hne.
  destruct (push_all_regular xs [] 0) as (v & tr & Hp & Hv & Hk); [done|by left|].
  cbn [app] in Hv, Hk. destruct Hk as [[-> _]|(k & Hk & Hlt)]; [done|].
  exists v, tr, k. split; [done|]. split; [done|]. split; [done|]. split; [|done].
  rewrite <- Hk. by eapply holds_capacity.
Qed.


End Pushes.

(** ** [RawMemory] *)
Section RawMemoryFacts.
Context {T : Type}.

Lemma Deallocate_elem_of (b : block T) e :
  e ∈ Deallocate b ↔ ∃ x, e = Leaked x ∧ Live x ∈ b.
Proof.
  unfold Deallocate. induction b as [|s b IH]; simpl.
  { split; [by intros ?%elem_of_nil|]. by intros (x & _ & ?%elem_of_nil). }
  rewrite elem_of_app, IH. split.
  - intros [He|(x & -> & Hx)].
    + destruct s as [|y]; simpl in He; [by apply elem_of_nil in He|].
      apply list_elem_of_singleton in He as ->. exists y. split; [done|]. by left.
    + exists x. split; [done|]. by right.
  - intros (x & -> & Hx). apply elem_of_cons in Hx as [<-|Hx].
    + left. simpl. by apply list_elem_of_singleton.
    + right. by exists x.
Qed.


End RawMemoryFacts.

(** ** When the final assignment of the in-place path throws *)
Section AssignmentThrows.
Context {T : Type} `{ElemType T}.
Implicit Types (v u : Vector T) (xs ys : list T).

Lemma Emplace_assignment_throws x xs0 last cap pos y last' b2 tr2 d :
  length xs0 + 1 < cap → pos ≤ length xs0 →
  move_construct last = Some (y, last') →
  std_move_backward ((Live <$> xs0 ++ [last'; y]) ++ replicate (cap - length xs0 - 2) Raw)
    pos (length xs0) (S (length xs0)) = Ok b2 tr2 →
  deref b2 pos = Some d → move_assign d x = None →
  Emplace pos (Some x) (vector_of (xs0 ++ [last]) cap)
  = Throw {| data_ := {| buffer_ := b2; capacity_ := cap |}; size_ := S (length xs0) |}
          [Destroyed x]
  ∧ ∃ ys, length ys = S (length xs0)
        ∧ b2 = (Live <$> ys) ++ Live y :: replicate (cap - length xs0 - 2) Raw.
Proof.
  intros Hcap Hpos Hmove Hshift Hd Hassign.
  rewrite Emplace_middle_unfold, Hmove, Hshift, Hd, Hassign by done.
  set (raws := replicate (cap - length xs0 - 2) (@Raw T)) in *.
  pose proof (std_move_backward_shape
                ((Live <$> xs0 ++ [last'; y]) ++ raws) pos (length xs0) (S (length xs0)))
    as Hshape.
  rewrite Hshift in Hshape. destruct Hshape as [Hshape ->]. split; [done|].
  unfold raws in Hshape. rewrite shape_all_live in Hshape.
  destruct (block_of_shape b2 (S (S (length xs0))) cap) as (zs & Hl & Hb2); [lia| |].
  { rewrite Hshape. do 2 f_equal. lia. }
  destruct zs as [|z ys _] using rev_ind; [done|].
  rewrite length_app in Hl. simpl in Hl.
  pose proof (std_move_backward_frame
                ((Live <$> xs0 ++ [last'; y]) ++ raws) pos (length xs0) (S (length xs0))
                (S (length xs0))) as Hframe.
  rewrite Hshift in Hframe. specialize (Hframe ltac:(lia) ltac:(lia)).
  rewrite lookup_app_l in Hframe by (rewrite length_fmap, length_app; simpl; lia).
  rewrite list_lookup_fmap, lookup_app_r in Hframe by lia.
  replace (S (length xs0) - length xs0) with 1 in Hframe by lia.
  rewrite Hb2, lookup_app_l in Hframe by (rewrite length_fmap, length_app; simpl; lia).
  rewrite list_lookup_fmap, lookup_app_r in Hframe by lia.
  replace (S (length xs0) - length ys) with 0 in Hframe by lia.
  injection Hframe as ->.
  exists ys. split; [lia|]. rewrite Hb2, fmap_app, <- app_assoc. cbn [fmap list_fmap app].
  unfold raws. do 3 f_equal. lia.
Qed.

(** X28.  What the throwing assignment at the end of the in-place path
    costs.  When [Emplace] works in place in front of the end, the shift has
    gone through and the final move assignment of the new value throws, the
    vector is left with its old size but with a live object, the one built
    from the old last element, in the slot just past its size.  It no longer
    satisfies the invariant, and its destructor destroys [size()] objects and
    releases the block with that object still alive: it is lost. *)
Theorem Emplace_assignment_throw_leaks v xs0 last pos x y last' b2 d :
  holds v (xs0 ++ [last]) → Size v < Capacity v → pos < Size v →
  move_construct last = Some (y, last') →
  std_move_backward
    ((Live <$> xs0 ++ [last'; y]) ++ replicate (Capacity v - Size v - 1) Raw)
    pos (Size v - 1) (Size v) = Ok b2 [] →
  deref b2 pos = Some d → move_assign d x = None →
  ∃ v' ys, Emplace pos (Some x) v = Throw v' [Destroyed x]
         ∧ Size v' = Size v ∧ Capacity v' = Capacity v
         ∧ buffer_ (data_ v') !! Size v' = Some (Live y)
         ∧ ¬ invariant v'
         ∧ length ys = Size v
         ∧ Vector_destroy v' = Some ((Destroyed <$> ys) ++ [Leaked y]).
Proof.
  intros (cap & -> & Hcap)%holds_inv.
  rewrite Size_vector_of, Capacity_vector_of, length_app in *. cbn [length] in *.
  intros Hroom Hpos Hmove Hshift Hd Hassign.
  replace (length xs0 + 1 - 1) with (length xs0) in Hshift by lia.
  replace (length xs0 + 1) with (S (length xs0)) in Hshift by lia.
  replace (cap - S (length xs0) - 1) with (cap - length xs0 - 2) in Hshift by lia.
  destruct (Emplace_assignment_throws x xs0 last cap pos y last' b2 [] d)
    as (He & ys & Hl & Hb2); [lia|lia|done..|].
  exists {| data_ := {| buffer_ := b2; capacity_ := cap |}; size_ := S (length xs0) |}, ys.
  unfold Size, Capacity. cbn [data_ size_ capacity_ buffer_].
  assert (b2 !! S (length xs0) = Some (Live y)) as Hy.
  { rewrite Hb2, <- Hl. rewrite <- (length_fmap Live ys). apply lookup_middle. }
  split; [done|]. split; [lia|]. split; [done|]. split; [done|]. split; [|split; [lia|]].
  - intros [_ Hshape]. cbn [data_ size_ capacity_ buffer_] in Hshape.
    assert ((is_live <$> b2) !! S (length xs0) = Some true) as Hlive
      by (by rewrite list_lookup_fmap, Hy).
    rewrite Hshape in Hlive.
    rewrite lookup_app_r in Hlive by (rewrite length_replicate; lia).
    rewrite length_replicate, Nat.sub_diag in Hlive.
    by rewrite (replicate_pos (cap - S (length xs0))) in Hlive by lia.
  - unfold Vector_destroy. cbn [data_ size_ capacity_ buffer_].
    rewrite (destroy_n_spec _ _ _ [] ys (Live y :: replicate (cap - length xs0 - 2) Raw))
      by done.
    unfold RawMemory_destroy, with_buffer. cbn [buffer_ app].
    rewrite Deallocate_app, Deallocate_raw. cbn [app].
    change (Live y :: replicate (cap - length xs0 - 2) Raw)
      with ((Live <$> [y]) ++ replicate (cap - length xs0 - 2) Raw).
    by rewrite Deallocate_app, Deallocate_live, Deallocate_raw, app_nil_r.
Qed.

End AssignmentThrows.

(** ** Instances of the further properties *)





(** Witness for X8: copying the vector [1, 2] of capacity 4 gives one of
    capacity 2. *)
Lemma Vector_copy_correct_witness :
  Vector_copy (H := IntElem) (vector_of [1; 2]%Z 4)
  = Ok (vector_of [1; 2]%Z (Size (vector_of [1; 2]%Z 4))) [].
Proof.
  destruct (Vector_copy_correct (H := IntElem) (vector_of [1; 2]%Z 4) [1; 2]%Z)
    as (_ & _ & _ & _ & Hreg); [holds_by_evaluation|].
  exact (Hreg IntElem_regular).
Defined.

(** Witness for X9: assigning [5, 13] to the vector [1] of capacity 1 throws
    while copying 13 and leaves [1]. *)
Lemma Vector_copy_assign_safe_witness :
  invariant (vector_of [1] 1) ∧ Size (vector_of [1] 1) = Size (vector_of [1] 1)
  ∧ Capacity (vector_of [1] 1) = Capacity (vector_of [1] 1)
  ∧ leak_free [Destroyed 5]
  ∧ (Capacity (vector_of [1] 1) < Size fragile_full → vector_of [1] 1 = vector_of [1] 1).
Proof.
  destruct (Vector_copy_assign_safe (H := Fragile true) (vector_of [1] 1) [1]
              fragile_full [5; 13]) as (_ & _ & Hthrow);
    [holds_by_evaluation|holds_by_evaluation|].
  exact (Hthrow (vector_of [1] 1) [Destroyed 5] eq_refl).
Defined.

(** Witness for X10: assigning [7, 8, 9] to the vector [1, 2] of capacity
    2. *)
Lemma Vector_copy_assign_correct_witness :
  ∃ v' tr,
    Vector_copy_assign (H := IntElem) (vector_of [1; 2]%Z 2) (vector_of [7; 8; 9]%Z 5)
    = Ok v' tr
    ∧ holds v' [7; 8; 9]%Z
    ∧ (Size (vector_of [7; 8; 9]%Z 5) ≤ Capacity (vector_of [1; 2]%Z 2) →
         Capacity v' = Capacity (vector_of [1; 2]%Z 2)
         ∧ tr = Destroyed <$> drop (Size (vector_of [7; 8; 9]%Z 5)) [1; 2]%Z)
    ∧ (Capacity (vector_of [1; 2]%Z 2) < Size (vector_of [7; 8; 9]%Z 5) →
         Capacity v' = Size (vector_of [7; 8; 9]%Z 5) ∧ tr = Destroyed <$> [1; 2]%Z).
Proof.
  apply (Vector_copy_assign_correct (H := IntElem) (Regular0 := IntElem_regular)
           (vector_of [1; 2]%Z 2) [1; 2]%Z (vector_of [7; 8; 9]%Z 5) [7; 8; 9]%Z);
    holds_by_evaluation.
Defined.

(** Witness for X11: the vectors [1, 2] and [3]. *)
Lemma destroyed_exactly_once_witness :
  Vector_destroy (vector_of [1; 2]%Z 2) = Some (Destroyed <$> [1; 2]%Z).
Proof.
  destruct (destroyed_exactly_once (vector_of [1; 2]%Z 2) [1; 2]%Z
              (vector_of [3]%Z 4) [3]%Z) as (Hd & _);
    [holds_by_evaluation|holds_by_evaluation|].
  exact Hd.
Defined.

(** Witness for X12: index 2 of the vector [1, 2] of capacity 4. *)
Lemma Vector_at_correct_witness :
  Vector_at (vector_of [1; 2]%Z 4) 2 = None
  ∧ RawMemory_at (data_ (vector_of [1; 2]%Z 4)) 2 = None.
Proof.
  destruct (Vector_at_correct (vector_of [1; 2]%Z 4) [1; 2]%Z 2)
    as (_ & _ & Hout); [holds_by_evaluation|].
  apply Hout. unfold Size. simpl. lia.
Defined.

(** Witness for X13: [PopBack] on the vector [1, 2]. *)
Lemma PopBack_correct_witness :
  ∃ v', PopBack (vector_of [1; 2]%Z 2) = Ok v' [Destroyed 2%Z] ∧ holds v' [1%Z]
      ∧ Size v' = Size (vector_of [1; 2]%Z 2) - 1
      ∧ Capacity v' = Capacity (vector_of [1; 2]%Z 2).
Proof.
  destruct (PopBack_correct (vector_of [1; 2]%Z 2) [1; 2]%Z) as (_ & Hpop);
    [holds_by_evaluation|].
  exact (Hpop [1%Z] 2%Z eq_refl).
Defined.


(** Witness for X15: [EmplaceBack(3)] on the full vector [1, 2], then
    [PopBack]. *)
Lemma EmplaceBack_PopBack_inverse_witness :
  3%Z = 3%Z
  ∧ ∃ v2, PopBack (vector_of [1; 2; 3]%Z 4) = Ok v2 [Destroyed 3%Z]
        ∧ Size v2 = Size (vector_of [1; 2]%Z 2) ∧ invariant v2
        ∧ (Size (vector_of [1; 2]%Z 2) < Capacity (vector_of [1; 2]%Z 2) →
             v2 = vector_of [1; 2]%Z 2)
        ∧ (Regular Z (H := IntElem) → holds v2 [1; 2]%Z).
Proof.
  apply (EmplaceBack_PopBack_inverse (H := IntElem) (vector_of [1; 2]%Z 2) [1; 2]%Z 3%Z
           (vector_of [1; 2; 3]%Z 4) 3%Z [Destroyed 1%Z; Destroyed 2%Z]).
  - holds_by_evaluation.
  - reflexivity.
Defined.

(** Witness for X16: [EmplaceBack(13)] into the vector [13, 5] of [Fragile]
    objects with room for a third. *)
Lemma EmplaceBack_in_place_witness :
  ∃ v', EmplaceBack (H := Fragile true) (Some 13) fragile_room = Ok (v', 13) []
      ∧ holds v' ([13; 5] ++ [13])
      ∧ Capacity v' = Capacity fragile_room
      ∧ Vector_at v' (Size fragile_room) = Some 13
      ∧ ∀ i, i < Size fragile_room → Vector_at v' i = Vector_at fragile_room i.
Proof.
  apply (EmplaceBack_in_place (H := Fragile true) fragile_room [13; 5] 13).
  - holds_by_evaluation.
  - unfold fragile_room, Size, Capacity. simpl. lia.
Defined.


(** Witness for X19: [Erase(begin() + 1)] on [1, 2, 3]. *)
Lemma Erase_correct_witness :
  ∃ v' z,
    Erase (H := IntElem) 1 (vector_of [1; 2; 3]%Z 4) = Ok (v', 1) [Destroyed z]
    ∧ holds v' (take 1 [1; 2; 3]%Z ++ drop 2 [1; 2; 3]%Z)
    ∧ Size v' = Size (vector_of [1; 2; 3]%Z 4) - 1
    ∧ Capacity v' = Capacity (vector_of [1; 2; 3]%Z 4)
    ∧ (∀ j, j < 1 → Vector_at v' j = Vector_at (vector_of [1; 2; 3]%Z 4) j)
    ∧ (∀ j, 1 ≤ j → Vector_at v' j = Vector_at (vector_of [1; 2; 3]%Z 4) (S j)).
Proof.
  apply (Erase_correct (H := IntElem) (Regular0 := IntElem_regular)
           (vector_of [1; 2; 3]%Z 4) [1; 2; 3]%Z 1).
  - holds_by_evaluation.
  - unfold Size. simpl. lia.
Defined.

(** Witness for X20: [Erase(begin())] on the vector [1, 13, 5] of [Fragile]
    objects throws when 13 is moved down. *)
Lemma Erase_safe_witness :
  @nil (event nat) = [] ∧ Size (vector_of [1; 13; 5] 3) = Size (vector_of [1; 13; 5] 3)
  ∧ Capacity (vector_of [1; 13; 5] 3) = Capacity (vector_of [1; 13; 5] 3)
  ∧ invariant (vector_of [1; 13; 5] 3)
  ∧ ∀ i, i < 0 → Vector_at (vector_of [1; 13; 5] 3) i = Vector_at (vector_of [1; 13; 5] 3) i.
Proof.
  destruct (Erase_safe (H := Fragile true) (vector_of [1; 13; 5] 3) [1; 13; 5] 0)
    as (_ & _ & Hthrow).
  - holds_by_evaluation.
  - unfold Size. simpl. lia.
  - exact (Hthrow (vector_of [1; 13; 5] 3) [] eq_refl).
Defined.


(** Witness for X22: [Emplace(end(), 7)] on the full vector [1, 5] of
    [Fragile] objects. *)
Lemma Emplace_at_end_is_EmplaceBack_witness :
  state_of (Emplace (H := Fragile true) (Size (vector_of [1; 5] 2)) (Some 7)
              (vector_of [1; 5] 2))
  = state_of (EmplaceBack (H := Fragile true) (Some 7) (vector_of [1; 5] 2)).
Proof.
  destruct (Emplace_at_end_is_EmplaceBack (H := Fragile true) (vector_of [1; 5] 2) [1; 5]
              (Some 7)) as (Hsame & _).
  - holds_by_evaluation.
  - discriminate.
  - exact Hsame.
Defined.


(** Witness for X24: [Emplace(begin() + 1, 7)] on the full vector [5, 13] of
    [Fragile] objects throws while copying 13 behind the new element. *)
Lemma Emplace_growth_throw_witness :
  (relocation (H := Fragile true) (take 1 [5; 13])).2 = true
  ∧ (relocation (H := Fragile true) (drop 1 [5; 13])).2 = false
  ∧ nothrow_move_constructible (ElemType := Fragile true) = false
  ∧ Size fragile_full = Size fragile_full ∧ Capacity fragile_full = Capacity fragile_full
  ∧ invariant fragile_full
  ∧ leak_free [Destroyed 5; Destroyed 7] ∧ Destroyed 7 ∈ [Destroyed 5; Destroyed 7]
  ∧ (copy_constructible (ElemType := Fragile true) = true → fragile_full = fragile_full).
Proof.
  apply (Emplace_growth_throw (H := Fragile true) fragile_full [5; 13] 1 7 fragile_full
           [Destroyed 5; Destroyed 7]).
  - holds_by_evaluation.
  - unfold fragile_full, Size, Capacity. simpl. lia.
  - unfold fragile_full, Size. simpl. lia.
  - reflexivity.
Defined.

(** Witness for X25: pushing 1, 2, 3 onto the empty vector ends with capacity
    4. *)
Lemma push_all_doubles_witness :
  ∃ v tr k, push_all (H := IntElem) [1; 2; 3]%Z Vector_default = Ok v tr
          ∧ holds v [1; 2; 3]%Z
          ∧ Capacity v = 2 ^ k ∧ length [1; 2; 3]%Z ≤ 2 ^ k
          ∧ 2 ^ k < 2 * length [1; 2; 3]%Z.
Proof.
  apply (push_all_doubles (H := IntElem) (Regular0 := IntElem_regular) [1; 2; 3]%Z).
  discriminate.
Defined.


(** Witness for X28: [Emplace(begin(), 13)] into the vector [1, 5] of
    [Fragile] objects with room for a third: 5 is moved to the new slot, 1 is
    shifted, and assigning 13 throws. *)
Lemma Emplace_assignment_throw_leaks_witness :
  ∃ v' ys, Emplace (H := Fragile true) 0 (Some 13) fragile_room' = Throw v' [Destroyed 13]
         ∧ Size v' = Size fragile_room' ∧ Capacity v' = Capacity fragile_room'
         ∧ buffer_ (data_ v') !! Size v' = Some (Live 5)
         ∧ ¬ invariant v'
         ∧ length ys = Size fragile_room'
         ∧ Vector_destroy v' = Some ((Destroyed <$> ys) ++ [Leaked 5]).
Proof.
  apply (Emplace_assignment_throw_leaks (H := Fragile true) fragile_room' [1] 5 0 13 5 0
           [Live 0; Live 1; Live 5] 0).
  - holds_by_evaluation.
  - unfold fragile_room', Size, Capacity. simpl. lia.
  - unfold fragile_room', Size. simpl. lia.
  - reflexivity.
  - reflexivity.
  - reflexivity.
  - reflexivity.
Defined.
